(** * Software pipelines of Pallas kernels on Mosaic GPU

    A shallow embedding of [jax/_src/pallas/mosaic_gpu/pipeline.py] and the
    properties of its schedule: the grid counter [_inc_grid], the slices
    and the index invariance of a [BufferedRef], and the prologue, the
    steady-state loop and the epilogue emitted by [emit_pipeline].

    The step counter and the grid indices of the traced loop are signed
    integers of 32 bits, the default integers of JAX: their sums and
    differences wrap around ([wrap32]), and a Python integer that meets
    one of them in an operation without fitting in 32 bits is an
    OverflowError ([int32]).  The grid, the number of slots and the steps
    of the prologue are Python integers ([Z]).  Block coordinates and the
    start offsets of slices are taken as exact, as they are for arrays of
    fewer than [2 ^ 31] elements per dimension.  [lax.div] and
    [lax.rem] round towards zero; [%] is the floored modulo.  Errors
    raised while the pipeline is built ([safe_zip] and [safe_map] on
    sequences of different lengths, [functools.reduce] on an empty
    sequence, a failed [assert], [islice] with a negative bound, a
    modulo by zero, an OverflowError) are [None]. *)

From stdpp Require Import base option list numbers list_numbers.
From Stdlib Require Import ZArith Lia.

Local Open Scope Z_scope.

(** ** Sequences *)

(** [util.safe_zip]: the sequences must have the same length. *)
Fixpoint safe_zip {A B : Type} (xs : list A) (ys : list B) : option (list (A * B)) :=
  match xs, ys with
  | [], [] => Some []
  | x :: xs', y :: ys' => ps ← safe_zip xs' ys'; Some ((x, y) :: ps)
  | _, _ => None
  end.

(** [util.safe_map] with a function of two arguments. *)
Definition safe_map2 {A B C : Type} (f : A → B → C) (xs : list A) (ys : list B)
  : option (list C) :=
  ps ← safe_zip xs ys; Some (map (λ p, f p.1 p.2) ps).

(** [functools.reduce] without an initial value. *)
Definition reduce {A : Type} (f : A → A → A) (xs : list A) : option A :=
  match xs with
  | [] => None
  | x :: xs' => Some (fold_left f xs' x)
  end.

(** [range(n)]. *)
Definition range (n : Z) : list Z := seqZ 0 n.

(** [itertools.product] of several iterables: the last iterable varies fastest. *)
Fixpoint product (ls : list (list Z)) : list (list Z) :=
  match ls with
  | [] => [[]]
  | l :: ls' => flat_map (λ x, map (cons x) (product ls')) l
  end.

(** [enumerate]. *)
Fixpoint enumerate_from {A : Type} (i : Z) (xs : list A) : list (Z * A) :=
  match xs with
  | [] => []
  | x :: xs' => (i, x) :: enumerate_from (i + 1) xs'
  end.

Definition enumerate {A : Type} (xs : list A) : list (Z * A) := enumerate_from 0 xs.

(** [math.prod]. *)
Definition prod (xs : list Z) : Z := fold_left Z.mul xs 1.

(** ** Integers of 32 bits *)

Definition fits32 (z : Z) : bool := (- 2 ^ 31 <=? z) && (z <? 2 ^ 31).

(** The int32 value of a sum or of a difference of int32 values. *)
Definition wrap32 (z : Z) : Z := (z + 2 ^ 31) `mod` 2 ^ 32 - 2 ^ 31.

(** A Python integer that meets an int32 value in an addition, a
    comparison or a modulo is converted to int32: an OverflowError when
    it does not fit. *)
Definition int32 (z : Z) : option Z := if fits32 z then Some z else None.

(** [lax.div] and [lax.rem] on int32 values round towards zero.  A
    division by zero is not an error; its result is left to the backend,
    and XLA gives [-1] and the dividend.  The quotient of [- 2 ^ 31] by
    [-1] wraps around. *)
Definition lax_div (x y : Z) : Z := if y =? 0 then -1 else wrap32 (Z.quot x y).

Definition lax_rem (x y : Z) : Z := if y =? 0 then x else Z.rem x y.

(** ** Grid index arithmetic *)

(** One iteration of the loop of [_inc_grid]: the new index of the axis
    and the carry into the next slower axis.  The index is an int32 value
    and the size a Python integer; the carry is the Python integer [by]
    in the first iteration and an int32 value afterwards. *)
Definition inc_axis (idx size carry : Z) : option (Z * Z) :=
  carry ← int32 carry;
  let idx := wrap32 (idx + carry) in
  two_sizes ← int32 (2 * size);
  Some (if idx <? two_sizes
        then (if idx <? size then (idx, 0) else (wrap32 (idx - size), 1))
        else (lax_rem idx size, lax_div idx size)).

(** The state of the loop is [(new_indices, carry)], or the error that
    an iteration before has raised. *)
Definition inc_step (st : option (list Z * Z)) (p : Z * Z) : option (list Z * Z) :=
  '(new_indices, carry) ← st;
  '(new_idx, carry) ← inc_axis p.1 p.2 carry;
  Some (new_indices ++ [new_idx], carry).

(** [indices] are int32 values, as the loop carries them; [grid] and
    [by_] are Python integers. *)
Definition _inc_grid (indices grid : list Z) (by_ : Z) : option (list Z) :=
  ps ← safe_zip indices grid;
  st ← fold_left inc_step (rev ps) (Some ([], by_));
  Some (rev st.1).

(** The counter of the specification: every axis by division and
    remainder, the carry going from the last axis to the first. *)
Fixpoint increment_divrem (ps : list (Z * Z)) (by_ : Z) : list Z * Z :=
  match ps with
  | [] => ([], by_)
  | (idx, size) :: ps' =>
      let '(rest, carry) := increment_divrem ps' by_ in
      (Z.rem (idx + carry) size :: rest, Z.quot (idx + carry) size)
  end.

Definition increment (indices grid : list Z) (by_ : Z) : option (list Z) :=
  ps ← safe_zip indices grid; Some (increment_divrem ps by_).1.

(** The position of [indices] in the row-major order of the grid. *)
Fixpoint ravel (indices grid : list Z) : Z :=
  match indices, grid with
  | idx :: indices', size :: grid' => idx * prod grid' + ravel indices' grid'
  | _, _ => 0
  end.

(** Every index is within its axis. *)
Definition in_grid (indices grid : list Z) : Prop :=
  Forall2 (λ idx size, 0 ≤ idx < size) indices grid.


(** The indices of step [n] of the row-major walk over the grid. *)
Fixpoint unravel (grid : list Z) (n : Z) : list Z :=
  match grid with
  | [] => []
  | size :: grid' => (n / prod grid') `mod` size :: unravel grid' n
  end.

(** ** Memory references, slices and events *)

(** Modelled from the spec: a handle of an array in bulk memory (GMEM) or
    in scratch memory (SMEM); [pallas_core.AbstractMemoryRef] is declared
    outside this file. *)
Record AbstractMemoryRef := mkRef {
  ref_name : nat;
  ref_shape : list Z;
  ref_dtype : nat
}.

(** [gpu_core.SMEM(shape, dtype)]: a request for scratch memory, turned
    into a reference by [pl.run_scoped]. *)
Record SMEM := mkSMEM { smem_shape : list Z; smem_dtype : nat }.

(** [gpu_core.Barrier(num_arrivals, num_barriers)]. *)
Record Barrier := mkBarrier { num_arrivals : Z; num_barriers : Z }.

Module pl.
(** [pl.Slice(start, size)]. *)
Record Slice := mkSlice { start : Z; size : Z }.
End pl.

Record _Slice := mk_Slice { start : Z; size : Z }.

(** [_Slice.__eq__]. *)
Definition _Slice_eq (self other : _Slice) : bool :=
  (start self =? start other) && (size self =? size other).

(** The calls of the scheduler to the transfer engine, to the barriers
    and to the kernel body, in the order they are issued. *)
Inductive event :=
  | copy_gmem_to_smem (src : AbstractMemoryRef * list pl.Slice)
      (dst : AbstractMemoryRef * Z) (barrier : Barrier * Z)
  | copy_smem_to_gmem (src : AbstractMemoryRef * Z)
      (dst : AbstractMemoryRef * list pl.Slice) (predicate : option bool)
  | barrier_wait (barrier : Barrier * Z)
  | wait_smem_to_gmem (n : Z)
  | commit_smem
  | call_body (grid_env : list (Z * Z)) (refs : list (AbstractMemoryRef * Z)).

(** ** The monad of the scheduler: a log of events, or an error *)

Definition M (A : Type) : Type := option (A * list event).

Definition retM {A : Type} (a : A) : M A := Some (a, []).

Definition bindM {A B : Type} (m : M A) (k : A → M B) : M B :=
  match m with
  | None => None
  | Some (a, t1) =>
      match k a with
      | None => None
      | Some (b, t2) => Some (b, t1 ++ t2)
      end
  end.

Definition emit (e : event) : M unit := Some (tt, [e]).

Definition failM {A : Type} : M A := None.

Definition liftM {A : Type} (o : option A) : M A :=
  match o with
  | Some a => retM a
  | None => failM
  end.

(** [assert]. *)
Definition assertM (b : bool) : M unit := if b then retM tt else failM.

Notation "'let*' x ':=' m 'in' k" := (bindM m (λ x, k))
  (at level 10, x name, m at level 100, k at level 200).
Notation "'let*' ' p ':=' m 'in' k" := (bindM m (λ x, match x with p => k end))
  (at level 10, p pattern, m at level 100, k at level 200).
Notation "m ';;' k" := (bindM m (λ _, k))
  (at level 100, k at level 200, right associativity).

(** A [for] loop, or a [map] called for its effects. *)
Fixpoint for_each {A : Type} (xs : list A) (f : A → M unit) : M unit :=
  match xs with
  | [] => retM tt
  | x :: xs' => f x;; for_each xs' f
  end.

(** A [for] loop that updates a local variable. *)
Fixpoint for_fold {A S : Type} (xs : list A) (f : A → S → M S) (s : S) : M S :=
  match xs with
  | [] => retM s
  | x :: xs' => let* s' := f x s in for_fold xs' f s'
  end.

(** [jax.lax.cond]: both branches are traced, so an error in either one
    is an error of the call; the selected branch runs. *)
Definition cond {A : Type} (pred : bool) (true_fun false_fun : M A) : M A :=
  match true_fun, false_fun with
  | Some _, Some _ => if pred then true_fun else false_fun
  | _, _ => None
  end.

(** [jax.lax.fori_loop(lower, upper, body_fun, init_val)].  The counter
    is an int32 value; it stays below [upper], which the body of the loop
    of this file requires to fit in 32 bits. *)
Fixpoint fori_loop_from {C : Type} (n : nat) (i : Z) (body_fun : Z → C → M C)
    (val : C) : M C :=
  match n with
  | O => retM val
  | S n' => let* val' := body_fun i val in fori_loop_from n' (i + 1) body_fun val'
  end.

Definition fori_loop {C : Type} (lower upper : Z) (body_fun : Z → C → M C)
    (init_val : C) : M C :=
  fori_loop_from (Z.to_nat (upper - lower)) lower body_fun init_val.

(** [itertools.islice(iterable, stop)]: a negative [stop] is an error. *)
Definition islice {A : Type} (xs : list A) (stop : Z) : option (list A) :=
  if stop <? 0 then None else Some (take (Z.to_nat stop) xs).

(** [util.split_list(args, [n])]. *)
Definition split_list {A : Type} (args : list A) (n : nat) : list A * list A :=
  (take n args, drop n args).

(** Python's [%] on integers. *)
Definition py_mod (a b : Z) : option Z :=
  if b =? 0 then None else Some (a `mod` b).

(** ** The analysis of index maps *)

(** The host compiler, declared outside this file: an index map is a
    Python callable, which is called on grid indices and returns block
    coordinates; [pe.trace_to_jaxpr_dynamic] turns a callable of [n]
    scalar arguments into a program, [pe.dce_jaxpr] removes what the used
    outputs do not need and tells which inputs remain in use. *)
Class Tracing := {
  Callable : Type;
  call : Callable → list Z → list Z;
  Jaxpr : Type;
  outvars : Jaxpr → list nat;
  trace_to_jaxpr_dynamic : Callable → nat → Jaxpr;
  dce_jaxpr : Jaxpr → list bool → Jaxpr * list bool
}.

Coercion call : Callable >-> Funclass.

Definition _uses_arguments `{Tracing} (index_map : Callable) (grid : list Z)
  : list bool :=
  let jaxpr := trace_to_jaxpr_dynamic index_map (length grid) in
  let '(_, used_inputs) := dce_jaxpr jaxpr (replicate (length (outvars jaxpr)) true) in
  used_inputs.

(** ** Buffered operands *)

(** Modelled from the spec: a block specification is a block shape and an
    index map from grid indices to block coordinates;
    [pallas_core.BlockSpec] is declared outside this file. *)
Record BlockSpec `{Tracing} := mkBlockSpec {
  block_shape : list Z;
  index_map : Callable
}.

Arguments mkBlockSpec {_} _ _.

Module BufferedRef.

Record t `{Tracing} := mk {
  spec : BlockSpec;
  grid : list Z;
  gmem_ref : AbstractMemoryRef;
  smem_ref : AbstractMemoryRef
}.

Arguments mk {_} _ _ _ _.

Definition compute_gmem_slice `{Tracing} (self : t) (grid_indices : list Z)
  : option (list pl.Slice) :=
  ps ← safe_zip (index_map (spec self) grid_indices) (block_shape (spec self));
  Some (map (λ p, pl.mkSlice (p.1 * p.2) p.2) ps).

Definition is_index_invariant `{Tracing} (self : t) : bool :=
  negb (existsb id (_uses_arguments (index_map (spec self)) (grid self))).

Definition copy_in `{Tracing} (self : t) (slot : Z) (grid_indices : list Z)
    (barrier_ref : Barrier) : M unit :=
  let* gmem_slices := liftM (compute_gmem_slice self grid_indices) in
  emit (copy_gmem_to_smem (gmem_ref self, gmem_slices) (smem_ref self, slot)
          (barrier_ref, slot)).

Definition copy_out `{Tracing} (self : t) (slot : Z) (grid_indices : list Z)
    (predicate : option bool) : M unit :=
  let* gmem_slices := liftM (compute_gmem_slice self grid_indices) in
  emit (copy_smem_to_gmem (smem_ref self, slot) (gmem_ref self, gmem_slices)
          predicate).

End BufferedRef.

(** ** The pipeline *)

(** Modelled from the spec: [pl.run_scoped] allocates one scratch handle
    per request; the handles of one scope are numbered in the order of
    the requests. *)
Fixpoint allocate (first : nat) (requests : list SMEM) : list AbstractMemoryRef :=
  match requests with
  | [] => []
  | r :: requests' =>
      mkRef first (smem_shape r) (smem_dtype r) :: allocate (S first) requests'
  end.

Definition run_scoped {A : Type}
    (f : list AbstractMemoryRef → list AbstractMemoryRef → Barrier → M A)
    (in_smem_refs out_smem_refs : list SMEM) (barrier_ref : Barrier) : M A :=
  f (allocate 0 in_smem_refs) (allocate (length in_smem_refs) out_smem_refs)
    barrier_ref.

Section Pipeline.

Context `{Tracing}.
Variable grid : list Z.
Variables in_specs out_specs : list BlockSpec.

Definition num_steps : Z := prod grid.

(** [[BufferedRef(spec, grid, gmem_ref, smem_ref) for ... in zip(...)]]. *)
Definition make_brefs (specs : list BlockSpec)
    (gmem_refs smem_refs : list AbstractMemoryRef) : option (list BufferedRef.t) :=
  ps ← safe_zip specs gmem_refs;
  qs ← safe_zip ps smem_refs;
  Some (map (λ q, BufferedRef.mk q.1.1 grid q.1.2 q.2) qs).

Section Scoped.

(** The number of slots, after [emit_pipeline] has shrunk it. *)
Variable max_concurrent_steps : Z.

Definition prologue (in_brefs : list BufferedRef.t) (barrier_ref : Barrier)
  : M unit :=
  let* steps := liftM (islice (product (map range grid)) max_concurrent_steps) in
  for_each (enumerate steps) (λ p,
    for_each in_brefs (λ bref, BufferedRef.copy_in bref p.1 p.2 barrier_ref)).

(** One iteration of the loop over the outputs in [loop_body].  An index
    out of range is an error when [last_store_slices] is read; the list
    that is written has the same length, so the write is within range. *)
Definition store_output (step slot : Z) (indices : list Z)
    (last_store_slices : list (option (list _Slice)))
    (p : Z * BufferedRef.t)
    (new_store_slices : list (option (list _Slice)))
  : M (list (option (list _Slice))) :=
  let '(idx, bref) := p in
  let* last := liftM (last_store_slices !! Z.to_nat idx) in
  if BufferedRef.is_index_invariant bref then
    assertM (bool_decide (last = None));;
    retM new_store_slices
  else
    match last with
    | None => failM
    | Some last_slices =>
        let* gmem_slices := liftM (BufferedRef.compute_gmem_slice bref indices) in
        let new_slices := map (λ s, mk_Slice (pl.start s) (pl.size s)) gmem_slices in
        let new_store_slices := <[Z.to_nat idx := Some new_slices]> new_store_slices in
        let* are_same_slices := liftM (safe_map2 _Slice_eq last_slices new_slices) in
        let* same := liftM (reduce andb are_same_slices) in
        let slices_changed := negb same in
        let* last_step := liftM (int32 (num_steps - 1)) in
        let is_last_step := step =? last_step in
        BufferedRef.copy_out bref slot indices (Some (slices_changed || is_last_step));;
        retM new_store_slices
    end.

(** The body of the loop: [step] is the int32 counter of [lax.fori_loop],
    [max_concurrent_steps] and [num_steps] are Python integers. *)
Definition loop_body (in_brefs out_brefs : list BufferedRef.t)
    (barrier_ref : Barrier) (step : Z)
    (carry : list Z * list (option (list _Slice)))
  : M (list Z * list (option (list _Slice))) :=
  let* slots := liftM (int32 max_concurrent_steps) in
  let slot := step `mod` slots in
  let '(indices, last_store_slices) := carry in
  match in_specs with
  | [] => retM tt
  | _ :: _ => emit (barrier_wait (barrier_ref, slot))
  end;;
  emit (wait_smem_to_gmem (max_concurrent_steps - 1));;
  let* grid_env := liftM (safe_zip indices grid) in
  emit (call_body grid_env
          (map (λ bref, (BufferedRef.smem_ref bref, slot)) (in_brefs ++ out_brefs)));;
  (if negb (forallb BufferedRef.is_index_invariant out_brefs)
   then emit commit_smem else retM tt);;
  let* new_store_slices :=
    for_fold (enumerate out_brefs)
      (store_output step slot indices last_store_slices) last_store_slices in
  let fetch_step := wrap32 (step + slots) in
  let fetch_slot := slot in
  let* steps := liftM (int32 num_steps) in
  cond (fetch_step <? steps)
    (for_each in_brefs (λ bref,
       let* next := liftM (_inc_grid indices grid max_concurrent_steps) in
       BufferedRef.copy_in bref fetch_slot next barrier_ref))
    (retM tt);;
  let* next_indices := liftM (_inc_grid indices grid 1) in
  retM (next_indices, new_store_slices).

(** The record of the last stores before the loop. *)
Definition init_store_slices (out_brefs : list BufferedRef.t)
  : list (option (list _Slice)) :=
  map (λ bref,
         if BufferedRef.is_index_invariant bref then None
         else Some (replicate (length (block_shape (BufferedRef.spec bref)))
                      (mk_Slice (-1) (-1))))
      out_brefs.

Definition steady_state (in_brefs out_brefs : list BufferedRef.t)
    (barrier_ref : Barrier) : M (list Z * list (option (list _Slice))) :=
  fori_loop 0 num_steps (loop_body in_brefs out_brefs barrier_ref)
    (replicate (length grid) 0, init_store_slices out_brefs).

Definition epilogue (out_brefs : list BufferedRef.t) : M unit :=
  (if forallb BufferedRef.is_index_invariant out_brefs
   then emit commit_smem else retM tt);;
  let* last_slot := liftM (py_mod (num_steps - 1) max_concurrent_steps) in
  for_each out_brefs (λ bref,
    if BufferedRef.is_index_invariant bref
    then BufferedRef.copy_out bref last_slot (replicate (length grid) 0) None
    else retM tt);;
  emit (wait_smem_to_gmem 0).

Definition scoped_pipeline (in_gmem_refs out_gmem_refs : list AbstractMemoryRef)
    (in_smem_refs out_smem_refs : list AbstractMemoryRef) (barrier_ref : Barrier)
  : M unit :=
  let* in_brefs := liftM (make_brefs in_specs in_gmem_refs in_smem_refs) in
  let* out_brefs := liftM (make_brefs out_specs out_gmem_refs out_smem_refs) in
  prologue in_brefs barrier_ref;;
  steady_state in_brefs out_brefs barrier_ref;;
  epilogue out_brefs.

Definition pipeline (gmem_refs : list AbstractMemoryRef) : M unit :=
  let '(in_gmem_refs, out_gmem_refs) := split_list gmem_refs (length in_specs) in
  let* smem_refs :=
    liftM (safe_map2
             (λ spec ref,
                mkSMEM (max_concurrent_steps :: block_shape spec) (ref_dtype ref))
             (in_specs ++ out_specs) gmem_refs) in
  let '(in_smem_refs, out_smem_refs) := split_list smem_refs (length in_specs) in
  run_scoped (scoped_pipeline in_gmem_refs out_gmem_refs)
    in_smem_refs out_smem_refs
    (mkBarrier (Z.of_nat (length in_specs)) max_concurrent_steps).

End Scoped.

Definition emit_pipeline (max_concurrent_steps : Z)
  : list AbstractMemoryRef → M unit :=
  let max_concurrent_steps :=
    if max_concurrent_steps >? num_steps then num_steps else max_concurrent_steps in
  pipeline max_concurrent_steps.

End Pipeline.

(** ** Index maps in symbolic form *)

(** Modelled from the spec: the index-usage analyzer is outside this file;
    the analysis is "static analysis of the mapping function, not runtime
    evaluation", by "tracing the index-mapping function symbolically", on
    mappings "expressed in a restricted symbolic form that makes axis usage
    syntactically evident".  An index map is the tuple of expressions it
    returns over its arguments, the grid indices. *)
Inductive jexpr :=
  | Invar (k : nat)
  | Literal (z : Z)
  | Add (a b : jexpr)
  | Sub (a b : jexpr)
  | Mul (a b : jexpr)
  | FloorDiv (a : jexpr) (b : positive)
  | Rem (a : jexpr) (b : positive).

(** The value of an expression on the arguments of a call; the pipeline
    calls an index map on one index per axis of the grid, and an argument
    that a call does not pass reads as 0. *)
Fixpoint eval (args : list Z) (e : jexpr) : Z :=
  match e with
  | Invar k => default 0 (args !! k)
  | Literal z => z
  | Add a b => eval args a + eval args b
  | Sub a b => eval args a - eval args b
  | Mul a b => eval args a * eval args b
  | FloorDiv a b => eval args a / Z.pos b
  | Rem a b => eval args a `mod` Z.pos b
  end.

(** The argument [k] occurs in the expression. *)
Fixpoint mentions (k : nat) (e : jexpr) : bool :=
  match e with
  | Invar j => bool_decide (j = k)
  | Literal _ => false
  | Add a b | Sub a b | Mul a b => mentions k a || mentions k b
  | FloorDiv a _ | Rem a _ => mentions k a
  end.

(** An expression of the index map mentions the argument [k]. *)
Definition mentions_axis (index_map : list jexpr) (k : nat) : bool :=
  existsb (mentions k) index_map.

(** Modelled from the spec: the program of a traced index map, its
    number of inputs and the expressions of its outputs. *)
Record jaxpr := mk_jaxpr { jaxpr_invars : nat; jaxpr_outs : list jexpr }.

(** Modelled from the spec: dead-code elimination keeps the used outputs;
    an input remains in use when a kept output mentions it. *)
Definition dce (j : jaxpr) (used_outputs : list bool) : jaxpr * list bool :=
  let outs := map fst (List.filter snd (zip (jaxpr_outs j) used_outputs)) in
  (mk_jaxpr (jaxpr_invars j) outs,
   map (mentions_axis outs) (seq 0 (jaxpr_invars j))).

(** Modelled from the spec: the tracer on index maps in symbolic form. *)
Definition jaxpr_tracing : Tracing := {|
  Callable := list jexpr;
  call := λ index_map args, map (eval args) index_map;
  Jaxpr := jaxpr;
  outvars := λ j, seq 0 (length (jaxpr_outs j));
  trace_to_jaxpr_dynamic := λ index_map n, mk_jaxpr n index_map;
  dce_jaxpr := dce
|}.

(** The index map that returns the values of the expressions. *)
Definition lambda (outs : list jexpr) : @Callable jaxpr_tracing := outs.

(** Blocks of 8 elements of an array of 24: one block per step, the
    same block at every step, and one block for two steps. *)
Definition ex_in : @BlockSpec jaxpr_tracing := mkBlockSpec [8] (lambda [Invar 0]).
Definition ex_const : @BlockSpec jaxpr_tracing := mkBlockSpec [8] (lambda [Literal 0]).
Definition ex_half : @BlockSpec jaxpr_tracing :=
  mkBlockSpec [8] (lambda [FloorDiv (Invar 0) 2]).
(** A block of two dimensions with an index map of one coordinate. *)
Definition ex_wrong_rank : @BlockSpec jaxpr_tracing :=
  mkBlockSpec [8; 8] (lambda [Invar 0]).
(** An index map that mentions the grid index without depending on it. *)
Definition ex_times_zero : @BlockSpec jaxpr_tracing :=
  mkBlockSpec [8] (lambda [Mul (Invar 0) (Literal 0)]).
(** A block of one element per index of the second axis of a grid. *)
Definition ex_column : @BlockSpec jaxpr_tracing := mkBlockSpec [1] (lambda [Invar 1]).
Definition ex_refs : list AbstractMemoryRef := [mkRef 10 [24] 0; mkRef 11 [24] 0].

(** The loop of [_inc_grid] as a recursion from the first axis: the
    indices after [by_] steps and the carry out of the first axis. *)
Fixpoint inc_pairs (ps : list (Z * Z)) (by_ : Z) : option (list Z * Z) :=
  match ps with
  | [] => Some ([], by_)
  | p :: ps' =>
      '(rest, carry) ← inc_pairs ps' by_;
      '(new_idx, carry') ← inc_axis p.1 p.2 carry;
      Some (new_idx :: rest, carry')
  end.


(** ** The schedule, step by step

    What the pipeline is expected to issue, written without the loop
    state: the indices of a step come from [unravel] and the record of
    the last store comes from the step before. *)

#[global] Instance _Slice_eq_dec : EqDecision _Slice.
Proof. solve_decision. Defined.

Definition to_Slice (s : pl.Slice) : _Slice := mk_Slice (pl.start s) (pl.size s).

(** The slices of [compute_gmem_slice] when the index map returns one
    block coordinate per dimension of the block. *)
Definition gmem_slice `{Tracing} (spec : BlockSpec) (grid_indices : list Z)
  : list pl.Slice :=
  zip_with (λ idx size, pl.mkSlice (idx * size) size)
    (index_map spec grid_indices) (block_shape spec).

(** On the indices of a grid of [n] axes the index map returns one block
    coordinate per dimension of the block. *)
Definition wf_spec `{Tracing} (n : nat) (spec : BlockSpec) : Prop :=
  ∀ grid_indices,
    length grid_indices = n →
    length (index_map spec grid_indices) = length (block_shape spec).

Definition sentinel `{Tracing} (bref : BufferedRef.t) : list _Slice :=
  replicate (length (block_shape (BufferedRef.spec bref))) (mk_Slice (-1) (-1)).

Section Schedule.

Context `{Tracing}.
Variable grid : list Z.
Variable in_specs : list BlockSpec.
Variable max_concurrent_steps : Z.
Variable barrier_ref : Barrier.

(** An output that depends on the grid has at least one dimension. *)
Definition wf_out (bref : BufferedRef.t) : Prop :=
  wf_spec (length grid) (BufferedRef.spec bref)
  ∧ (BufferedRef.is_index_invariant bref = false
     → block_shape (BufferedRef.spec bref) ≠ []).

(** The region of bulk memory of an operand at a step. *)
Definition region (bref : BufferedRef.t) (step : Z) : list pl.Slice :=
  gmem_slice (BufferedRef.spec bref) (unravel grid step).

(** The record of the last store that reaches a step. *)
Definition record_before (bref : BufferedRef.t) (step : Z) : list _Slice :=
  if step =? 0 then sentinel bref else map to_Slice (region bref (step - 1)).

Definition records (out_brefs : list BufferedRef.t) (step : Z)
  : list (option (list _Slice)) :=
  map (λ bref, if BufferedRef.is_index_invariant bref then None
               else Some (record_before bref step)) out_brefs.

(** The region differs from the recorded one, or the step is the last. *)
Definition store_predicate (bref : BufferedRef.t) (step : Z) : bool :=
  negb (bool_decide (record_before bref step = map to_Slice (region bref step)))
  || (step =? num_steps grid - 1).

Definition store_at (step : Z) (bref : BufferedRef.t) : event :=
  copy_smem_to_gmem (BufferedRef.smem_ref bref, step `mod` max_concurrent_steps)
    (BufferedRef.gmem_ref bref, region bref step)
    (Some (store_predicate bref step)).

Definition stores_at (out_brefs : list BufferedRef.t) (step : Z) : list event :=
  flat_map (λ bref, if BufferedRef.is_index_invariant bref then []
                    else [store_at step bref]) out_brefs.

(** The loads of every input from its region at some grid indices. *)
Definition load_from (slot : Z) (grid_indices : list Z) (bref : BufferedRef.t)
  : event :=
  copy_gmem_to_smem
    (BufferedRef.gmem_ref bref, gmem_slice (BufferedRef.spec bref) grid_indices)
    (BufferedRef.smem_ref bref, slot) (barrier_ref, slot).

Definition loads_from (in_brefs : list BufferedRef.t) (slot : Z)
    (grid_indices : list Z) : list event :=
  map (load_from slot grid_indices) in_brefs.

(** The loads of every input from its region at a step. *)
Definition loads_at (in_brefs : list BufferedRef.t) (slot step : Z) : list event :=
  loads_from in_brefs slot (unravel grid step).

(** The indices that the loop computes at a step for the loads it issues
    ahead, by the traced counter on int32 values. *)
Definition fetch_indices (step : Z) : list Z :=
  default [] (_inc_grid (unravel grid step) grid max_concurrent_steps).

Definition step_events (in_brefs out_brefs : list BufferedRef.t) (step : Z)
  : list event :=
  let slot := step `mod` max_concurrent_steps in
  match in_specs with [] => [] | _ :: _ => [barrier_wait (barrier_ref, slot)] end
  ++ [wait_smem_to_gmem (max_concurrent_steps - 1);
      call_body (zip (unravel grid step) grid)
        (map (λ bref, (BufferedRef.smem_ref bref, slot)) (in_brefs ++ out_brefs))]
  ++ (if forallb BufferedRef.is_index_invariant out_brefs then [] else [commit_smem])
  ++ stores_at out_brefs step
  ++ (if wrap32 (step + max_concurrent_steps) <? num_steps grid
      then loads_from in_brefs slot (fetch_indices step) else []).

Definition prologue_events (in_brefs : list BufferedRef.t) : list event :=
  flat_map (λ step, loads_at in_brefs step step) (range max_concurrent_steps).

Definition loop_events (in_brefs out_brefs : list BufferedRef.t) : list event :=
  flat_map (step_events in_brefs out_brefs) (range (num_steps grid)).

Definition final_store (bref : BufferedRef.t) : event :=
  copy_smem_to_gmem
    (BufferedRef.smem_ref bref, (num_steps grid - 1) `mod` max_concurrent_steps)
    (BufferedRef.gmem_ref bref,
     gmem_slice (BufferedRef.spec bref) (replicate (length grid) 0))
    None.

Definition epilogue_events (out_brefs : list BufferedRef.t) : list event :=
  (if forallb BufferedRef.is_index_invariant out_brefs then [commit_smem] else [])
  ++ flat_map (λ bref, if BufferedRef.is_index_invariant bref
                       then [final_store bref] else []) out_brefs
  ++ [wait_smem_to_gmem 0].

(** The operands that [pipeline] builds from the specifications, the
    references in bulk memory and the scratch memory of its scope. *)
Fixpoint operands (first : nat) (specs : list BlockSpec)
    (gmem_refs : list AbstractMemoryRef) : list BufferedRef.t :=
  match specs, gmem_refs with
  | spec :: specs', ref :: gmem_refs' =>
      BufferedRef.mk spec grid ref
        (mkRef first (max_concurrent_steps :: block_shape spec) (ref_dtype ref))
      :: operands (S first) specs' gmem_refs'
  | _, _ => []
  end.

End Schedule.

(** The index invariance of an operand depends on its block
    specification and on the grid only. *)
Definition invariant_spec `{Tracing} (grid : list Z) (spec : BlockSpec) : bool :=
  negb (existsb id (_uses_arguments (index_map spec) grid)).

(** The number of slots that [emit_pipeline] settles on. *)
Definition depth (grid : list Z) (max_concurrent_steps : Z) : Z :=
  Z.min max_concurrent_steps (num_steps grid).

Definition in_operands `{Tracing} (grid : list Z) (in_specs : list BlockSpec)
    (max_concurrent_steps : Z) (gmem_refs : list AbstractMemoryRef)
  : list BufferedRef.t :=
  operands grid (depth grid max_concurrent_steps) 0 in_specs
    (take (length in_specs) gmem_refs).

Definition out_operands `{Tracing} (grid : list Z)
    (in_specs out_specs : list BlockSpec)
    (max_concurrent_steps : Z) (gmem_refs : list AbstractMemoryRef)
  : list BufferedRef.t :=
  operands grid (depth grid max_concurrent_steps) (length in_specs) out_specs
    (drop (length in_specs) gmem_refs).

Definition pipeline_barrier `{Tracing} (grid : list Z) (in_specs : list BlockSpec)
    (max_concurrent_steps : Z) : Barrier :=
  mkBarrier (Z.of_nat (length in_specs)) (depth grid max_concurrent_steps).

(** The inputs of [emit_pipeline] and of the function it returns that the
    data model allows: a grid of positive sizes that the traced loop
    accepts (twice the size of an axis and the number of steps fit in 32
    bits: the loop raises an OverflowError otherwise), at least one slot,
    index maps of the rank of their blocks, outputs that depend on the grid
    with at least one dimension, and one reference per operand. *)
Record wf_pipeline `{Tracing} (grid : list Z) (in_specs out_specs : list BlockSpec)
    (max_concurrent_steps : Z) (gmem_refs : list AbstractMemoryRef) : Prop := {
  wf_grid : Forall (λ size, 0 < size) grid;
  wf_sizes : Forall (λ size, 2 * size < 2 ^ 31) grid;
  wf_steps : num_steps grid < 2 ^ 31;
  wf_depth : 0 < max_concurrent_steps;
  wf_in_specs : Forall (wf_spec (length grid)) in_specs;
  wf_out_specs :
    Forall (λ spec, wf_spec (length grid) spec
                    ∧ (invariant_spec grid spec = false → block_shape spec ≠ []))
      out_specs;
  wf_gmem_refs : length gmem_refs = (length in_specs + length out_specs)%nat
}.

Definition is_body (e : event) : bool :=
  match e with call_body _ _ => true | _ => false end.

Definition is_wait (e : event) : bool :=
  match e with barrier_wait _ | wait_smem_to_gmem _ => true | _ => false end.

(** A slot is within the leading dimension of the scratch memory it
    indexes, a barrier within the barriers that were allocated. *)
Definition slot_of_ref (ref : AbstractMemoryRef) (slot : Z) : bool :=
  match ref_shape ref with
  | [] => false
  | slots :: _ => (0 <=? slot) && (slot <? slots)
  end.

Definition slot_of_barrier (barrier : Barrier) (slot : Z) : bool :=
  (0 <=? slot) && (slot <? num_barriers barrier).

Definition slots_in_bounds (e : event) : bool :=
  match e with
  | copy_gmem_to_smem _ dst barrier =>
      slot_of_ref dst.1 dst.2 && slot_of_barrier barrier.1 barrier.2
  | copy_smem_to_gmem src _ _ => slot_of_ref src.1 src.2
  | barrier_wait barrier => slot_of_barrier barrier.1 barrier.2
  | call_body _ refs => forallb (λ r, slot_of_ref r.1 r.2) refs
  | wait_smem_to_gmem _ | commit_smem => true
  end.

(** The scratch memory is committed when a store is issued: the flag is
    whether a commit followed the last call of the body. *)
Fixpoint stores_committed (committed : bool) (t : list event) : bool :=
  match t with
  | [] => true
  | call_body _ _ :: t' => stores_committed false t'
  | commit_smem :: t' => stores_committed true t'
  | copy_smem_to_gmem _ _ _ :: t' => committed && stores_committed committed t'
  | _ :: t' => stores_committed committed t'
  end.

Fixpoint committed_after (committed : bool) (t : list event) : bool :=
  match t with
  | [] => committed
  | call_body _ _ :: t' => committed_after false t'
  | commit_smem :: t' => committed_after true t'
  | _ :: t' => committed_after committed t'
  end.

(** The arrivals on the barriers: a load arrives once on the barrier of
    its slot, a wait needs the arrivals the barrier expects and starts the
    count of its slot again.  The result is the count per slot at the end,
    or [None] when a wait does not find its arrivals. *)
Fixpoint barrier_arrivals (pending : Z → Z) (t : list event) : option (Z → Z) :=
  match t with
  | [] => Some pending
  | copy_gmem_to_smem _ _ barrier :: t' =>
      barrier_arrivals
        (λ slot, if slot =? barrier.2 then pending slot + 1 else pending slot) t'
  | barrier_wait barrier :: t' =>
      if pending barrier.2 =? num_arrivals barrier.1
      then barrier_arrivals (λ slot, if slot =? barrier.2 then 0 else pending slot) t'
      else None
  | _ :: t' => barrier_arrivals pending t'
  end.

(** What is pending on the barrier of a slot when the loop reaches a
    step: the arrivals of the next step that uses the slot, if there is
    one. *)
Definition pending_on (steps d arrivals : Z) (step : Z) (pending : Z → Z) : Prop :=
  ∀ k, pending k
       = if (0 <=? k) && (k <? d) && (step + (k - step) `mod` d <? steps)
         then arrivals else 0.

(** The number of events of a kind. *)
Definition count (p : event → bool) (t : list event) : nat :=
  length (List.filter p t).

#[global] Instance AbstractMemoryRef_eq_dec : EqDecision AbstractMemoryRef.
Proof. solve_decision. Defined.

(** The stores out of the scratch memory of an operand. *)
Definition is_store_from `{Tracing} (bref : BufferedRef.t) (e : event) : bool :=
  match e with
  | copy_smem_to_gmem src _ _ => bool_decide (src.1 = BufferedRef.smem_ref bref)
  | _ => false
  end.

(** The block coordinates change with axis [k] of a grid of [n] axes. *)
Definition depends_on_axis (index_map : list Z → list Z) (n k : nat) : Prop :=
  ∃ grid_indices v,
    length grid_indices = n
    ∧ index_map (<[k := v]> grid_indices) ≠ index_map grid_indices.

(** Modelled from the spec: the analysis of an index map, whose tracer
    and dead-code elimination are outside this file, "returns, per axis,
    whether the mapping's output depends on that axis". *)
Definition analysis_exact `{Tracing} (index_map : Callable) (grid : list Z)
  : Prop :=
  length (_uses_arguments index_map grid) = length grid
  ∧ ∀ k, (k < length grid)%nat →
      _uses_arguments index_map grid !! k = Some true
      ↔ depends_on_axis index_map (length grid) k.

(** The kinds of events. *)
Definition is_load (e : event) : bool :=
  match e with copy_gmem_to_smem _ _ _ => true | _ => false end.

Definition is_store (e : event) : bool :=
  match e with copy_smem_to_gmem _ _ _ => true | _ => false end.

Definition is_commit (e : event) : bool :=
  match e with commit_smem => true | _ => false end.

(** * Properties *)

(** ** Sequences *)

Lemma safe_zip_Some {A B : Type} (xs : list A) (ys : list B) :
  length xs = length ys → safe_zip xs ys = Some (zip xs ys).
Proof.
  revert ys. induction xs as [|x xs IH]; intros [|y ys] Hlen; simpl in *; try done.
  rewrite IH by lia. done.
Qed.

Lemma safe_zip_inv {A B : Type} (xs : list A) (ys : list B) ps :
  safe_zip xs ys = Some ps → length xs = length ys ∧ ps = zip xs ys.
Proof.
  revert ys ps. induction xs as [|x xs IH]; intros [|y ys] ps Hz; simpl in *; try done.
  - by inversion Hz.
  - destruct (safe_zip xs ys) as [qs|] eqn:E; simpl in Hz; [|done].
    inversion Hz; subst. destruct (IH _ _ E) as [-> ->]. done.
Qed.

Lemma prod_from (xs : list Z) (a : Z) : fold_left Z.mul xs a = a * prod xs.
Proof.
  unfold prod. revert a. induction xs as [|x xs IH]; intros a; simpl.
  - lia.
  - rewrite IH. rewrite (IH (1 * x)). lia.
Qed.

Lemma prod_nil : prod [] = 1.
Proof. reflexivity. Qed.

Lemma prod_cons (x : Z) (xs : list Z) : prod (x :: xs) = x * prod xs.
Proof. unfold prod at 1. simpl. rewrite prod_from. lia. Qed.

Lemma prod_pos (xs : list Z) : Forall (λ size, 0 < size) xs → 0 < prod xs.
Proof.
  induction 1 as [|x xs Hx _ IH]; [by rewrite prod_nil|].
  rewrite prod_cons. lia.
Qed.

(** ** Integers of 32 bits *)

Lemma fits32_spec (z : Z) : fits32 z = true ↔ - 2 ^ 31 ≤ z < 2 ^ 31.
Proof. unfold fits32. rewrite andb_true_iff, Z.leb_le, Z.ltb_lt. done. Qed.

Lemma int32_fits (z : Z) : - 2 ^ 31 ≤ z < 2 ^ 31 → int32 z = Some z.
Proof. intros Hz. unfold int32. by rewrite (proj2 (fits32_spec z) Hz). Qed.

Lemma int32_Some (z z' : Z) : int32 z = Some z' → z' = z ∧ - 2 ^ 31 ≤ z < 2 ^ 31.
Proof.
  unfold int32. destruct (fits32 z) eqn:Hz; [|done].
  intros [= <-]. split; [done|]. by apply fits32_spec.
Qed.

Lemma int32_None (z : Z) : int32 z = None ↔ ¬ (- 2 ^ 31 ≤ z < 2 ^ 31).
Proof.
  unfold int32. rewrite <- fits32_spec. by destruct (fits32 z).
Qed.

Lemma wrap32_small (z : Z) : - 2 ^ 31 ≤ z < 2 ^ 31 → wrap32 z = z.
Proof. intros Hz. unfold wrap32. rewrite Z.mod_small by lia. lia. Qed.

(** A sum of two int32 values that does not fit is negative. *)
Lemma wrap32_over (z : Z) : 2 ^ 31 ≤ z < 2 ^ 32 → wrap32 z = z - 2 ^ 32.
Proof.
  intros Hz. unfold wrap32.
  replace (z + 2 ^ 31) with (z + 2 ^ 31 - 2 ^ 32 + 1 * 2 ^ 32) by lia.
  rewrite Z.mod_add by lia. rewrite Z.mod_small by lia. lia.
Qed.

Lemma wrap32_range (z : Z) : - 2 ^ 31 ≤ wrap32 z < 2 ^ 31.
Proof.
  unfold wrap32. pose proof (Z.mod_pos_bound (z + 2 ^ 31) (2 ^ 32)). lia.
Qed.

(** ** Grid index arithmetic *)

(** While the sum of the index and the carry fits, the two paths of an
    axis agree with division and remainder. *)
Lemma inc_axis_exact (idx size carry : Z) :
  0 ≤ idx → 0 ≤ carry → 0 < size → 2 * size < 2 ^ 31 → idx + carry < 2 ^ 31 →
  inc_axis idx size carry = Some ((idx + carry) `mod` size, (idx + carry) / size).
Proof.
  intros Hi Hc Hs H2 Hfit. unfold inc_axis.
  rewrite (int32_fits carry) by lia. cbn [mbind option_bind].
  rewrite (int32_fits (2 * size)) by lia. cbn [mbind option_bind].
  rewrite wrap32_small by lia. f_equal.
  destruct (Z.ltb_spec (idx + carry) (2 * size)) as [Hlt|Hge].
  - destruct (Z.ltb_spec (idx + carry) size) as [H1|H1].
    + rewrite Z.mod_small, Z.div_small by lia. done.
    + rewrite wrap32_small by lia. f_equal.
      * apply Z.mod_unique_pos with 1; lia.
      * apply Z.div_unique_pos with (idx + carry - size); lia.
  - unfold lax_rem, lax_div. destruct (Z.eqb_spec size 0) as [?|_]; [lia|].
    rewrite Z.rem_mod_nonneg, Z.quot_div_nonneg by lia.
    rewrite wrap32_small; [done|]. split.
    + pose proof (Z.div_pos (idx + carry) size). lia.
    + apply Z.div_lt_upper_bound; [lia|nia].
Qed.

(** The carry out of an axis is an int32 value. *)
Lemma inc_axis_carry (idx size carry new_idx carry' : Z) :
  inc_axis idx size carry = Some (new_idx, carry') → - 2 ^ 31 ≤ carry' < 2 ^ 31.
Proof.
  unfold inc_axis. destruct (int32 carry) as [c|]; [|done]. cbn [mbind option_bind].
  destruct (int32 (2 * size)) as [s2|]; [|done]. cbn [mbind option_bind].
  intros [= Heq]. revert Heq.
  destruct (wrap32 (idx + c) <? s2).
  - destruct (wrap32 (idx + c) <? size); intros [= _ <-]; lia.
  - intros [= _ <-]. unfold lax_div. destruct (size =? 0); [lia|apply wrap32_range].
Qed.

Lemma inc_axis_None (idx size carry : Z) :
  inc_axis idx size carry = None
  ↔ ¬ (- 2 ^ 31 ≤ carry < 2 ^ 31) ∨ ¬ (- 2 ^ 31 ≤ 2 * size < 2 ^ 31).
Proof.
  unfold inc_axis. rewrite <- !int32_None.
  destruct (int32 carry) as [c|]; cbn [mbind option_bind]; [|by split; [left|]].
  destruct (int32 (2 * size)) as [s2|]; cbn [mbind option_bind]; [|by split; [right|]].
  split; [done|]. by intros [?|?].
Qed.

Lemma inc_grid_pairs (indices grid : list Z) (by_ : Z) :
  _inc_grid indices grid by_
  = ps ← safe_zip indices grid; st ← inc_pairs ps by_; Some st.1.
Proof.
  unfold _inc_grid. destruct (safe_zip indices grid) as [ps|]; simpl; [|done].
  assert (Hgen : ∀ acc, fold_left inc_step (rev ps) (Some (acc, by_))
                 = st ← inc_pairs ps by_; Some (acc ++ rev st.1, st.2)).
  { induction ps as [|p ps IH]; intros acc; simpl.
    - by rewrite app_nil_r.
    - rewrite fold_left_app, IH. simpl.
      destruct (inc_pairs ps by_) as [[rest carry]|]; simpl; [|done].
      destruct (inc_axis p.1 p.2 carry) as [[new_idx carry']|]; simpl; [|done].
      by rewrite <- app_assoc. }
  rewrite Hgen. destruct (inc_pairs ps by_) as [st|]; simpl; [|done].
  by rewrite rev_involutive.
Qed.

Lemma in_grid_length (indices grid : list Z) :
  in_grid indices grid → length indices = length grid.
Proof. apply Forall2_length. Qed.

Lemma in_grid_pos (indices grid : list Z) :
  in_grid indices grid → Forall (λ size, 0 < size) grid.
Proof. induction 1; constructor; [lia|done]. Qed.

(** On indices within the grid, while no sum of an index and the number
    of steps overflows, the loop agrees with division and remainder on
    every axis, and the carry stays between zero and the number of steps. *)
Lemma inc_pairs_exact (indices grid : list Z) (by_ : Z) :
  in_grid indices grid → Forall (λ size, 2 * size < 2 ^ 31) grid → 0 ≤ by_ →
  Forall (λ idx, idx + by_ < 2 ^ 31) indices →
  inc_pairs (zip indices grid) by_ = Some (increment_divrem (zip indices grid) by_)
  ∧ 0 ≤ (increment_divrem (zip indices grid) by_).2 ≤ by_.
Proof.
  intros Hin. induction Hin as [|idx size indices grid Hi Hin IH];
    intros Hsz Hby Hfit; simpl.
  - split; [done|lia].
  - apply Forall_cons in Hsz as [Hs Hsz]. apply Forall_cons in Hfit as [Hf Hfit].
    destruct (IH Hsz Hby Hfit) as [IH1 IH2]. rewrite IH1. cbn [mbind option_bind].
    destruct (increment_divrem (zip indices grid) by_) as [rest carry]. simpl in *.
    rewrite inc_axis_exact by lia. cbn [mbind option_bind].
    rewrite Z.rem_mod_nonneg, Z.quot_div_nonneg by lia. split; [done|]. simpl.
    split; [apply Z.div_pos; lia|].
    apply Z.lt_succ_r, Z.div_lt_upper_bound; [lia|nia].
Qed.

(** The loop raises no error when the number of steps and twice the size
    of every axis fit in 32 bits; it returns one index per axis. *)
Lemma inc_pairs_Some (ps : list (Z * Z)) (by_ : Z) :
  - 2 ^ 31 ≤ by_ < 2 ^ 31 →
  Forall (λ p : Z * Z, - 2 ^ 31 ≤ 2 * p.2 < 2 ^ 31) ps →
  ∃ st, inc_pairs ps by_ = Some st ∧ length st.1 = length ps
        ∧ - 2 ^ 31 ≤ st.2 < 2 ^ 31.
Proof.
  intros Hby. induction 1 as [|p ps Hp _ (st & IH & Hlen & Hc)]; simpl.
  - eexists. split; [done|]. by split.
  - rewrite IH. cbn [mbind option_bind]. destruct st as [rest carry]. simpl in *.
    destruct (inc_axis p.1 p.2 carry) as [[new_idx carry']|] eqn:Hax.
    + cbn [mbind option_bind]. eexists. split; [done|]. simpl.
      split; [by rewrite Hlen|]. by eapply inc_axis_carry.
    + apply inc_axis_None in Hax. lia.
Qed.

Lemma unravel_length (grid : list Z) (n : Z) : length (unravel grid n) = length grid.
Proof. induction grid as [|size grid IH]; simpl; [done|by rewrite IH]. Qed.

Lemma unravel_in_grid (grid : list Z) (n : Z) :
  Forall (λ size, 0 < size) grid → in_grid (unravel grid n) grid.
Proof.
  induction 1 as [|size grid Hs _ IH]; simpl; constructor; [|done].
  apply Z.mod_pos_bound. done.
Qed.

Lemma unravel_0 (grid : list Z) : unravel grid 0 = replicate (length grid) 0.
Proof.
  induction grid as [|size grid IH]; simpl; [done|].
  rewrite IH, Zdiv_0_l, Zmod_0_l. done.
Qed.

(** The walk over the grid is periodic in the number of steps. *)
Lemma unravel_periodic (grid : list Z) (n m : Z) :
  Forall (λ size, 0 < size) grid → unravel grid (n + m * prod grid) = unravel grid n.
Proof.
  intros Hpos. revert m. induction Hpos as [|size grid Hs Hpos IH]; intros m; simpl; [done|].
  pose proof (prod_pos _ Hpos) as HP. rewrite prod_cons. f_equal.
  - replace (n + m * (size * prod grid)) with (n + m * size * prod grid) by lia.
    rewrite Z.div_add by lia. rewrite Z.mod_add by lia. done.
  - replace (n + m * (size * prod grid)) with (n + m * size * prod grid) by lia.
    apply IH.
Qed.

Lemma unravel_mod (grid : list Z) (n : Z) :
  Forall (λ size, 0 < size) grid → unravel grid (n `mod` prod grid) = unravel grid n.
Proof.
  intros Hpos. pose proof (prod_pos _ Hpos) as HP.
  rewrite (Z.div_mod n (prod grid)) at 2 by lia.
  replace (prod grid * (n / prod grid) + n `mod` prod grid)
    with (n `mod` prod grid + n / prod grid * prod grid) by lia.
  by rewrite unravel_periodic.
Qed.

Lemma ravel_bounds (indices grid : list Z) :
  in_grid indices grid → 0 ≤ ravel indices grid < prod grid.
Proof.
  induction 1 as [|idx size indices grid Hi Hin IH]; simpl.
  - rewrite prod_nil. lia.
  - rewrite prod_cons. nia.
Qed.

Lemma unravel_ravel (indices grid : list Z) :
  in_grid indices grid → unravel grid (ravel indices grid) = indices.
Proof.
  induction 1 as [|idx size indices grid Hi Hin IH]; simpl; [done|].
  pose proof (ravel_bounds _ _ Hin) as Hr.
  pose proof (in_grid_pos _ _ Hin) as Hpos. f_equal.
  - rewrite Z.add_comm, Z.div_add by lia.
    rewrite Z.div_small by lia. rewrite Z.mod_small by lia. done.
  - rewrite Z.add_comm, unravel_periodic by done. done.
Qed.

Lemma ravel_unravel (grid : list Z) (n : Z) :
  Forall (λ size, 0 < size) grid → ravel (unravel grid n) grid = n `mod` prod grid.
Proof.
  induction 1 as [|size grid Hs Hpos IH]; simpl.
  - rewrite prod_nil. by rewrite Z.mod_1_r.
  - pose proof (prod_pos _ Hpos) as HP. rewrite IH, prod_cons.
    rewrite (Z.mul_comm size), Z.rem_mul_r by lia. lia.
Qed.

(** Advancing the indices of step [n] by [k] steps gives the indices of
    step [n + k]; the carry out of the first axis counts the wraps. *)
Lemma increment_divrem_unravel (grid : list Z) (n k : Z) :
  Forall (λ size, 0 < size) grid → 0 ≤ k →
  increment_divrem (zip (unravel grid n) grid) k
  = (unravel grid (n + k), (n `mod` prod grid + k) / prod grid).
Proof.
  intros Hpos Hk. induction Hpos as [|size grid Hs Hpos IH]; simpl.
  - rewrite prod_nil, Z.mod_1_r, Z.div_1_r. done.
  - pose proof (prod_pos _ Hpos) as HP. rewrite IH, prod_cons.
    set (P := prod grid) in *. set (c := (n `mod` P + k) / P).
    assert (0 ≤ c) by (apply Z.div_pos; [pose proof (Z.mod_pos_bound n P); lia | lia]).
    assert (0 ≤ (n / P) `mod` size < size) by (apply Z.mod_pos_bound; lia).
    assert (Hdiv : (n + k) / P = n / P + c).
    { unfold c. rewrite (Z.div_mod n P) at 1 by lia.
      replace (P * (n / P) + n `mod` P + k) with (n / P * P + (n `mod` P + k)) by lia.
      rewrite Z.div_add_l by lia. done. }
    rewrite Z.rem_mod_nonneg, Z.quot_div_nonneg by lia. f_equal.
    + f_equal. rewrite Hdiv. by rewrite Zplus_mod_idemp_l.
    + rewrite (Z.mul_comm size), Z.rem_mul_r by lia.
      rewrite <- Z.div_div by lia.
      replace (n `mod` P + P * ((n / P) `mod` size) + k)
        with ((n / P) `mod` size * P + (n `mod` P + k)) by lia.
      rewrite Z.div_add_l by lia. done.
Qed.

Lemma unravel_fits (grid : list Z) (n k : Z) :
  Forall (λ size, 0 < size) grid → Forall (λ size, size + k ≤ 2 ^ 31) grid →
  Forall (λ idx, idx + k < 2 ^ 31) (unravel grid n).
Proof.
  induction 1 as [|size grid Hs _ IH]; intros Hfit; simpl; [constructor|].
  apply Forall_cons in Hfit as [Hf Hfit]. constructor; [|by apply IH].
  pose proof (Z.mod_pos_bound (n / prod grid) size Hs). lia.
Qed.

Lemma inc_grid_unravel (grid : list Z) (n k : Z) :
  Forall (λ size, 0 < size) grid → Forall (λ size, 2 * size < 2 ^ 31) grid →
  0 ≤ k → Forall (λ idx, idx + k < 2 ^ 31) (unravel grid n) →
  _inc_grid (unravel grid n) grid k = Some (unravel grid (n + k)).
Proof.
  intros Hpos Hsz Hk Hfit. rewrite inc_grid_pairs.
  rewrite safe_zip_Some by apply unravel_length. cbn [mbind option_bind].
  destruct (inc_pairs_exact (unravel grid n) grid k) as [-> _];
    [by apply unravel_in_grid | done | done | done |].
  cbn [mbind option_bind]. by rewrite increment_divrem_unravel.
Qed.

Lemma inc_grid_ravel (indices grid : list Z) (k : Z) :
  in_grid indices grid → Forall (λ size, 2 * size < 2 ^ 31) grid →
  0 ≤ k → Forall (λ idx, idx + k < 2 ^ 31) indices →
  _inc_grid indices grid k = Some (unravel grid (ravel indices grid + k)).
Proof.
  intros Hin Hsz Hk Hfit. pose proof (unravel_ravel indices grid Hin) as Hu.
  rewrite <- Hu at 1. apply inc_grid_unravel; [by eapply in_grid_pos|done|done|].
  by rewrite Hu.
Qed.

(** One step from indices within a grid that the loop accepts. *)
Lemma inc_grid_next (grid : list Z) (n : Z) :
  Forall (λ size, 0 < size) grid → Forall (λ size, 2 * size < 2 ^ 31) grid →
  _inc_grid (unravel grid n) grid 1 = Some (unravel grid (n + 1)).
Proof.
  intros Hpos Hsz. apply inc_grid_unravel; [done|done|lia|].
  apply unravel_fits; [done|]. eapply Forall_impl; [exact Hsz|]. simpl. intros; lia.
Qed.

Lemma in_grid_fits (indices grid : list Z) (k : Z) :
  in_grid indices grid → Forall (λ size, size + k ≤ 2 ^ 31) grid →
  Forall (λ idx, idx + k < 2 ^ 31) indices.
Proof.
  induction 1 as [|idx size indices grid Hi Hin IH]; intros Hfit; [constructor|].
  apply Forall_cons in Hfit as [Hf Hfit]. constructor; [lia|by apply IH].
Qed.

(** C2 (counterexample): from the index 2 of an axis of size 3, the steps
    [2 ^ 31 - 3] and then 2 lead to the index 0; the step [2 ^ 31 - 1]
    taken at once overflows the sum of the index and the step and leaves
    a negative index. *)
Lemma inc_grid_additive_overflow :
  in_grid [2] [3] ∧ 0 ≤ 2147483645 ∧ 0 ≤ 2
  ∧ _inc_grid [2] [3] 2147483645 = Some [1]
  ∧ _inc_grid [1] [3] 2 = Some [0]
  ∧ _inc_grid [2] [3] (2147483645 + 2) = Some [-2147483647].
Proof.
  split; [repeat constructor; lia|]. split; [lia|]. split; [lia|].
  split; [|split]; vm_compute; reflexivity.
Qed.

(** C2: on indices within the grid, while twice the size of every axis
    fits in 32 bits and the size of no axis plus [a + b] exceeds
    [2 ^ 31], advancing by [a] and then by [b] steps is advancing by
    [a + b] steps: both give the same indices, which are within the grid,
    at position [(position + a + b) mod product(grid)] of the row-major
    order. *)
Theorem inc_grid_additive (indices grid : list Z) (a b : Z) :
  in_grid indices grid → 0 ≤ a → 0 ≤ b →
  Forall (λ size, 2 * size < 2 ^ 31 ∧ size + (a + b) ≤ 2 ^ 31) grid →
  ∃ mid last,
    _inc_grid indices grid a = Some mid
    ∧ _inc_grid mid grid b = Some last
    ∧ _inc_grid indices grid (a + b) = Some last
    ∧ in_grid mid grid ∧ in_grid last grid
    ∧ ravel mid grid = (ravel indices grid + a) `mod` prod grid
    ∧ ravel last grid = (ravel indices grid + (a + b)) `mod` prod grid.
Proof.
  intros Hin Ha Hb Hfit. pose proof (in_grid_pos _ _ Hin) as Hpos.
  assert (Hsz : Forall (λ size, 2 * size < 2 ^ 31) grid)
    by (eapply Forall_impl; [exact Hfit|]; simpl; intros; lia).
  assert (Hfa : Forall (λ size, size + a ≤ 2 ^ 31) grid)
    by (eapply Forall_impl; [exact Hfit|]; simpl; intros; lia).
  assert (Hfb : Forall (λ size, size + b ≤ 2 ^ 31) grid)
    by (eapply Forall_impl; [exact Hfit|]; simpl; intros; lia).
  assert (Hfab : Forall (λ size, size + (a + b) ≤ 2 ^ 31) grid)
    by (eapply Forall_impl; [exact Hfit|]; simpl; intros; lia).
  exists (unravel grid (ravel indices grid + a)),
         (unravel grid (ravel indices grid + (a + b))).
  split; [apply inc_grid_ravel; [done|done|done|by eapply in_grid_fits]|].
  split.
  { rewrite inc_grid_unravel; [by rewrite Z.add_assoc|done|done|done|].
    by apply unravel_fits. }
  split; [apply inc_grid_ravel; [done|done|lia|by eapply in_grid_fits]|].
  split; [by apply unravel_in_grid|].
  split; [by apply unravel_in_grid|].
  split; by apply ravel_unravel.
Qed.

Lemma inc_grid_additive_witness :
  in_grid [1; 2] [2; 3] ∧ 0 ≤ 4 ∧ 0 ≤ 5
  ∧ Forall (λ size, 2 * size < 2 ^ 31 ∧ size + (4 + 5) ≤ 2 ^ 31) [2; 3]
  ∧ ∃ mid last,
      _inc_grid [1; 2] [2; 3] 4 = Some mid
      ∧ _inc_grid mid [2; 3] 5 = Some last
      ∧ _inc_grid [1; 2] [2; 3] (4 + 5) = Some last
      ∧ in_grid mid [2; 3] ∧ in_grid last [2; 3]
      ∧ ravel mid [2; 3] = (ravel [1; 2] [2; 3] + 4) `mod` prod [2; 3]
      ∧ ravel last [2; 3] = (ravel [1; 2] [2; 3] + (4 + 5)) `mod` prod [2; 3].
Proof.
  assert (Hin : in_grid [1; 2] [2; 3]) by (repeat constructor; lia).
  assert (Hfit : Forall (λ size, 2 * size < 2 ^ 31 ∧ size + (4 + 5) ≤ 2 ^ 31) [2; 3])
    by (repeat constructor; lia).
  split; [exact Hin|]. split; [lia|]. split; [lia|]. split; [exact Hfit|].
  apply (inc_grid_additive [1; 2] [2; 3] 4 5); [exact Hin | lia | lia | exact Hfit].
Defined.

(** C3 (counterexample): from the index 2 of an axis of size 3 and for
    [2 ^ 31 - 1] steps, the sum of the index and the steps overflows: the
    fast path returns it as the new index, division and remainder return
    the index 0. *)
Lemma inc_grid_fast_path_overflow :
  in_grid [2] [3] ∧ 0 ≤ 2147483647
  ∧ _inc_grid [2] [3] 2147483647 = Some [-2147483647]
  ∧ increment [2] [3] 2147483647 = Some [0].
Proof.
  split; [repeat constructor; lia|]. split; [lia|].
  split; vm_compute; reflexivity.
Qed.

(** C3: on indices within the grid and for [by_ >= 0], while twice the
    size of every axis fits in 32 bits and no index plus [by_] reaches
    [2 ^ 31], [_inc_grid] with its fast path and its fallback returns what
    the counter by division and remainder on every axis returns. *)
Theorem inc_grid_refines_increment (indices grid : list Z) (by_ : Z) :
  in_grid indices grid → 0 ≤ by_ →
  Forall (λ size, 2 * size < 2 ^ 31) grid →
  Forall (λ idx, idx + by_ < 2 ^ 31) indices →
  _inc_grid indices grid by_ = increment indices grid by_
  ∧ is_Some (_inc_grid indices grid by_).
Proof.
  intros Hin Hby Hsz Hfit. rewrite inc_grid_pairs. unfold increment.
  rewrite safe_zip_Some by by apply in_grid_length. cbn [mbind option_bind].
  destruct (inc_pairs_exact indices grid by_ Hin Hsz Hby Hfit) as [-> _].
  cbn [mbind option_bind]. eauto.
Qed.

Lemma inc_grid_refines_increment_witness :
  in_grid [1; 2] [2; 3] ∧ 0 ≤ 11
  ∧ Forall (λ size, 2 * size < 2 ^ 31) [2; 3]
  ∧ Forall (λ idx, idx + 11 < 2 ^ 31) [1; 2]
  ∧ _inc_grid [1; 2] [2; 3] 11 = increment [1; 2] [2; 3] 11
  ∧ is_Some (_inc_grid [1; 2] [2; 3] 11).
Proof.
  assert (Hin : in_grid [1; 2] [2; 3]) by (repeat constructor; lia).
  assert (Hsz : Forall (λ size, 2 * size < 2 ^ 31) [2; 3]) by (repeat constructor; lia).
  assert (Hfit : Forall (λ idx, idx + 11 < 2 ^ 31) [1; 2]) by (repeat constructor; lia).
  split; [exact Hin|]. split; [lia|]. split; [exact Hsz|]. split; [exact Hfit|].
  apply (inc_grid_refines_increment [1; 2] [2; 3] 11);
    [exact Hin | lia | exact Hsz | exact Hfit].
Defined.

Lemma zip_sizes_fit (indices grid : list Z) :
  Forall (λ size, 0 < size) grid → Forall (λ size, 2 * size < 2 ^ 31) grid →
  Forall (λ p : Z * Z, - 2 ^ 31 ≤ 2 * p.2 < 2 ^ 31) (zip indices grid).
Proof.
  intros Hpos. revert indices. induction Hpos as [|size grid Hs _ IH];
    intros [|idx indices] Hsz; simpl; try constructor.
  - apply Forall_cons in Hsz as [? _]. simpl. lia.
  - apply Forall_cons in Hsz as [_ Hsz]. by apply IH.
Qed.

(** ** The order of the steps *)

Lemma range_mul (a : nat) (b : Z) :
  0 ≤ b →
  range (Z.of_nat a * b)
  = flat_map (λ x, map (λ j, x * b + j) (range b)) (range (Z.of_nat a)).
Proof.
  intros Hb. unfold range. induction a as [|a IH].
  - done.
  - rewrite seqZ_S, flat_map_app. simpl. rewrite app_nil_r, <- IH.
    replace (Z.of_nat (S a) * b) with (Z.of_nat a * b + b) by lia.
    rewrite seqZ_app by lia. f_equal.
    replace (0 + Z.of_nat a * b) with (Z.of_nat a * b + 0) by lia.
    rewrite <- fmap_add_seqZ. apply map_ext. intros j. lia.
Qed.

Lemma flat_map_ext_Forall {A B : Type} (f g : A → list B) (l : list A) :
  Forall (λ x, f x = g x) l → flat_map f l = flat_map g l.
Proof. induction 1 as [|x l Hx _ IH]; simpl; [done|]. by rewrite Hx, IH. Qed.

Lemma map_ext_Forall' {A B : Type} (f g : A → B) (l : list A) :
  Forall (λ x, f x = g x) l → map f l = map g l.
Proof. induction 1 as [|x l Hx _ IH]; simpl; [done|]. by rewrite Hx, IH. Qed.

Lemma map_flat_map {A B C : Type} (f : A → list B) (g : B → C) (l : list A) :
  map g (flat_map f l) = flat_map (λ x, map g (f x)) l.
Proof. induction l as [|x l IH]; simpl; [done|]. by rewrite map_app, IH. Qed.

(** [itertools.product] over the ranges of the axes enumerates the
    indices of the steps [0], [1], ... in order. *)
Lemma product_ranges (grid : list Z) :
  Forall (λ size, 0 < size) grid →
  product (map range grid) = map (unravel grid) (range (prod grid)).
Proof.
  induction 1 as [|size grid Hs Hpos IH]; [done|].
  pose proof (prod_pos _ Hpos) as HP. simpl. rewrite IH, prod_cons.
  replace (size * prod grid) with (Z.of_nat (Z.to_nat size) * prod grid) by lia.
  rewrite range_mul by lia.
  rewrite Z2Nat.id by lia. rewrite map_flat_map.
  apply flat_map_ext_Forall. apply Forall_seqZ. intros x Hx.
  rewrite !map_map. apply map_ext_Forall'. apply Forall_seqZ. intros j Hj.
  f_equal.
  - rewrite Z.div_add_l by lia. rewrite Z.div_small by lia.
    rewrite Z.add_0_r, Z.mod_small by lia. done.
  - rewrite Z.add_comm, unravel_periodic by done. done.
Qed.

(** ** The monad of the scheduler *)

Lemma bindM_Some {A B : Type} (m : M A) (k : A → M B) a t1 b t2 :
  m = Some (a, t1) → k a = Some (b, t2) → bindM m k = Some (b, t1 ++ t2).
Proof. intros -> Hk. simpl. by rewrite Hk. Qed.

Lemma bindM_run {A B : Type} (m : M A) (k : A → M B) a t1 b t2 t :
  m = Some (a, t1) → k a = Some (b, t2) → t = t1 ++ t2 → bindM m k = Some (b, t).
Proof. intros Hm Hk ->. by eapply bindM_Some. Qed.

Lemma bindM_ret {A B : Type} (a : A) (k : A → M B) : bindM (retM a) k = k a.
Proof. unfold bindM, retM. by destruct (k a) as [[b t]|]. Qed.

Lemma bindM_lift {A B : Type} (a : A) (k : A → M B) : bindM (liftM (Some a)) k = k a.
Proof. apply bindM_ret. Qed.

Lemma for_each_events {A : Type} (f : A → M unit) (g : A → list event) (xs : list A) :
  Forall (λ x, f x = Some (tt, g x)) xs → for_each xs f = Some (tt, flat_map g xs).
Proof.
  induction 1 as [|x xs Hx _ IH]; simpl; [done|].
  by rewrite Hx, IH.
Qed.

Lemma for_each_map {A : Type} (f : A → M unit) (g : A → event) (xs : list A) :
  Forall (λ x, f x = Some (tt, [g x])) xs → for_each xs f = Some (tt, map g xs).
Proof.
  induction 1 as [|x xs Hx _ IH]; simpl; [done|].
  by rewrite Hx, IH.
Qed.

Lemma fori_loop_from_events {C : Type} (body_fun : Z → C → M C)
    (state : Z → C) (events : Z → list event) (n : nat) (i : Z) :
  (∀ j, i ≤ j < i + Z.of_nat n → body_fun j (state j) = Some (state (j + 1), events j)) →
  fori_loop_from n i body_fun (state i)
  = Some (state (i + Z.of_nat n), flat_map events (seqZ i (Z.of_nat n))).
Proof.
  revert i. induction n as [|n IH]; intros i Hbody.
  - simpl. by rewrite Z.add_0_r.
  - cbn [fori_loop_from]. rewrite seqZ_cons by lia. simpl.
    erewrite bindM_Some; [reflexivity | apply Hbody; lia |].
    rewrite IH by (intros j Hj; apply Hbody; lia).
    f_equal. f_equal; [f_equal; lia|].
    f_equal. f_equal; lia.
Qed.

(** ** Buffered operands *)

Lemma compute_gmem_slice_wf `{Tracing} (bref : BufferedRef.t) (grid_indices : list Z) :
  wf_spec (length grid_indices) (BufferedRef.spec bref) →
  BufferedRef.compute_gmem_slice bref grid_indices
  = Some (gmem_slice (BufferedRef.spec bref) grid_indices).
Proof.
  intros Hwf. unfold BufferedRef.compute_gmem_slice, gmem_slice.
  rewrite safe_zip_Some by by apply Hwf. simpl. f_equal.
  generalize (index_map (BufferedRef.spec bref) grid_indices) as xs.
  generalize (block_shape (BufferedRef.spec bref)) as ys.
  intros ys xs. revert ys. induction xs as [|x xs IH]; intros [|y ys]; simpl; try done.
  by rewrite IH.
Qed.

Lemma gmem_slice_length `{Tracing} (spec : BlockSpec) (grid_indices : list Z) :
  wf_spec (length grid_indices) spec →
  length (gmem_slice spec grid_indices) = length (block_shape spec).
Proof.
  intros Hwf. unfold gmem_slice. rewrite length_zip_with, Hwf by done. lia.
Qed.

Lemma copy_in_events `{Tracing} (bref : BufferedRef.t) (slot : Z) (grid_indices : list Z)
    (barrier_ref : Barrier) :
  wf_spec (length grid_indices) (BufferedRef.spec bref) →
  BufferedRef.copy_in bref slot grid_indices barrier_ref
  = Some (tt, [copy_gmem_to_smem
                 (BufferedRef.gmem_ref bref,
                  gmem_slice (BufferedRef.spec bref) grid_indices)
                 (BufferedRef.smem_ref bref, slot) (barrier_ref, slot)]).
Proof.
  intros Hwf. unfold BufferedRef.copy_in. by rewrite compute_gmem_slice_wf.
Qed.

Lemma copy_out_events `{Tracing} (bref : BufferedRef.t) (slot : Z) (grid_indices : list Z)
    (predicate : option bool) :
  wf_spec (length grid_indices) (BufferedRef.spec bref) →
  BufferedRef.copy_out bref slot grid_indices predicate
  = Some (tt, [copy_smem_to_gmem (BufferedRef.smem_ref bref, slot)
                 (BufferedRef.gmem_ref bref,
                  gmem_slice (BufferedRef.spec bref) grid_indices)
                 predicate]).
Proof.
  intros Hwf. unfold BufferedRef.copy_out. by rewrite compute_gmem_slice_wf.
Qed.

(** ** Comparing the slices of two stores *)

Lemma _Slice_eq_decide (a b : _Slice) : _Slice_eq a b = bool_decide (a = b).
Proof.
  destruct a as [s1 z1], b as [s2 z2]. unfold _Slice_eq. simpl.
  destruct (Z.eqb_spec s1 s2) as [->|Hs], (Z.eqb_spec z1 z2) as [->|Hz]; simpl;
    symmetry; first [by apply bool_decide_eq_true | apply bool_decide_eq_false; congruence].
Qed.

Lemma fold_left_andb (xs : list bool) (b : bool) :
  fold_left andb xs b = b && forallb id xs.
Proof.
  revert b. induction xs as [|x xs IH]; intros b; simpl.
  - by rewrite andb_true_r.
  - rewrite IH. by rewrite andb_assoc.
Qed.

Lemma forallb_Slice_eq (old new : list _Slice) :
  length old = length new →
  forallb id (map (λ p, _Slice_eq p.1 p.2) (zip old new)) = bool_decide (old = new).
Proof.
  revert new. induction old as [|a old IH]; intros [|b new] Hlen; simpl in *; try done.
  rewrite IH by lia. rewrite _Slice_eq_decide. unfold id.
  destruct (decide (a = b)) as [->|Hab].
  - rewrite bool_decide_eq_true_2 by done. simpl.
    apply bool_decide_ext. split; congruence.
  - rewrite bool_decide_eq_false_2 by done. simpl. symmetry.
    apply bool_decide_eq_false. congruence.
Qed.

(** The comparison of [loop_body]: all dimensions are the same exactly
    when the two tuples of slices are equal. *)
Lemma reduce_same_slices (old new : list _Slice) :
  length old = length new → old ≠ [] →
  ∃ are_same_slices,
    safe_map2 _Slice_eq old new = Some are_same_slices
    ∧ reduce andb are_same_slices = Some (bool_decide (old = new)).
Proof.
  intros Hlen Hne. unfold safe_map2. rewrite safe_zip_Some by done. simpl.
  eexists. split; [done|]. rewrite <- forallb_Slice_eq by done.
  destruct old as [|a old]; [done|]. destruct new as [|b new]; [done|]. simpl.
  by rewrite fold_left_andb.
Qed.

(** ** The prologue *)

Lemma take_range (d n : Z) : 0 ≤ d ≤ n → take (Z.to_nat d) (range n) = range d.
Proof.
  intros Hd. unfold range. replace n with (d + (n - d)) by lia.
  rewrite seqZ_app by lia. rewrite take_app_length'; [done|].
  by rewrite length_seqZ.
Qed.

Lemma enumerate_from_map {A : Type} (f : Z → A) (n : nat) (i : Z) :
  enumerate_from i (map f (seqZ i (Z.of_nat n)))
  = map (λ step, (step, f step)) (seqZ i (Z.of_nat n)).
Proof.
  revert i. induction n as [|n IH]; intros i; [done|].
  rewrite seqZ_cons by lia. simpl. f_equal.
  replace (Z.pred (Z.of_nat (S n))) with (Z.of_nat n) by lia.
  apply IH.
Qed.

Lemma enumerate_map_range {A : Type} (f : Z → A) (n : Z) :
  enumerate (map f (range n)) = map (λ step, (step, f step)) (range n).
Proof.
  unfold enumerate, range. destruct (Z_lt_le_dec n 0) as [Hn|Hn].
  - by rewrite seqZ_nil by lia.
  - rewrite <- (Z2Nat.id n) by lia. apply enumerate_from_map.
Qed.

Lemma flat_map_map {A B C : Type} (f : A → B) (g : B → list C) (l : list A) :
  flat_map g (map f l) = flat_map (λ x, g (f x)) l.
Proof. induction l as [|x l IH]; simpl; [done|]. by rewrite IH. Qed.

Section PhaseLemmas.

Context `{Tracing}.
Variable grid : list Z.
Variables in_specs out_specs : list BlockSpec.
Variable max_concurrent_steps : Z.
Variable barrier_ref : Barrier.
Variables in_brefs out_brefs : list BufferedRef.t.

Hypothesis grid_pos : Forall (λ size, 0 < size) grid.
Hypothesis sizes_fit : Forall (λ size, 2 * size < 2 ^ 31) grid.
Hypothesis steps_fit : num_steps grid < 2 ^ 31.
Hypothesis depth_pos : 0 < max_concurrent_steps < 2 ^ 31.
Hypothesis in_wf :
  Forall (λ bref, wf_spec (length grid) (BufferedRef.spec bref)) in_brefs.
Hypothesis out_wf : Forall (wf_out grid) out_brefs.

Lemma prologue_run :
  max_concurrent_steps ≤ num_steps grid →
  prologue grid max_concurrent_steps in_brefs barrier_ref
  = Some (tt, prologue_events grid max_concurrent_steps barrier_ref in_brefs).
Proof using grid_pos depth_pos in_wf.
  intros Hd. unfold prologue, islice.
  destruct (Z.ltb_spec max_concurrent_steps 0) as [?|_]; [lia|].
  rewrite product_ranges by done. rewrite firstn_map.
  rewrite take_range by (unfold num_steps in Hd; lia).
  rewrite bindM_lift, enumerate_map_range.
  erewrite for_each_events with
    (g := λ p, map (λ bref, copy_gmem_to_smem
                              (BufferedRef.gmem_ref bref,
                               gmem_slice (BufferedRef.spec bref) p.2)
                              (BufferedRef.smem_ref bref, p.1) (barrier_ref, p.1))
                 in_brefs).
  - simpl. unfold prologue_events. by rewrite flat_map_map.
  - apply List.Forall_map. apply Forall_forall. intros step _. apply for_each_map.
    eapply Forall_impl; [exact in_wf|]. intros bref Hwf. simpl.
    apply copy_in_events. by rewrite unravel_length.
Qed.

Lemma record_before_length (bref : BufferedRef.t) (step : Z) :
  wf_spec (length grid) (BufferedRef.spec bref) →
  length (record_before grid bref step) = length (block_shape (BufferedRef.spec bref)).
Proof.
  intros Hwf. unfold record_before, sentinel, region.
  destruct (step =? 0).
  - by rewrite length_replicate.
  - rewrite length_map, gmem_slice_length; [done|]. by rewrite unravel_length.
Qed.

Lemma record_before_succ (bref : BufferedRef.t) (step : Z) :
  0 ≤ step → record_before grid bref (step + 1) = map to_Slice (region grid bref step).
Proof.
  intros Hs. unfold record_before.
  destruct (Z.eqb_spec (step + 1) 0) as [?|_]; [lia|].
  by replace (step + 1 - 1) with step by lia.
Qed.

Lemma records_app (l1 l2 : list BufferedRef.t) (step : Z) :
  records grid (l1 ++ l2) step = records grid l1 step ++ records grid l2 step.
Proof. unfold records. apply map_app. Qed.

Lemma records_cons (bref : BufferedRef.t) (l : list BufferedRef.t) (step : Z) :
  records grid (bref :: l) step
  = (if BufferedRef.is_index_invariant bref then None
     else Some (record_before grid bref step)) :: records grid l step.
Proof. reflexivity. Qed.

Lemma records_length (l : list BufferedRef.t) (step : Z) :
  length (records grid l step) = length l.
Proof. unfold records. apply length_map. Qed.

(** The loop over the outputs of one step: every output that depends
    on the grid issues one store and records its region. *)
Lemma store_outputs_run (step : Z) (suffix : list BufferedRef.t) :
  0 ≤ step →
  ∀ prefix, out_brefs = prefix ++ suffix →
  for_fold (enumerate_from (Z.of_nat (length prefix)) suffix)
    (store_output grid step (step `mod` max_concurrent_steps)
       (unravel grid step) (records grid out_brefs step))
    (records grid prefix (step + 1) ++ records grid suffix step)
  = Some (records grid out_brefs (step + 1),
          stores_at grid max_concurrent_steps suffix step).
Proof using grid_pos steps_fit out_wf.
  intros Hstep. pose proof (prod_pos _ grid_pos) as HN. fold (num_steps grid) in HN.
  induction suffix as [|bref rest IH]; intros prefix Hout.
  - simpl. rewrite Hout, !app_nil_r. done.
  - assert (Hwf : wf_out grid bref).
    { eapply Forall_forall; [exact out_wf|]. rewrite Hout.
      apply elem_of_app. right. apply elem_of_cons. by left. }
    destruct Hwf as [Hspec Hrank].
    cbn [enumerate_from for_fold]. unfold store_output at 1.
    rewrite Nat2Z.id.
    assert (Hlook : records grid out_brefs step !! length prefix
                    = Some (if BufferedRef.is_index_invariant bref then None
                            else Some (record_before grid bref step))).
    { rewrite Hout, records_app, records_cons.
      apply list_lookup_middle. by rewrite records_length. }
    rewrite Hlook, bindM_lift.
    specialize (IH (prefix ++ [bref])).
    rewrite length_app, Nat2Z.inj_add in IH.
    change (Z.of_nat (length [bref])) with 1 in IH.
    rewrite records_app, records_cons, <- !app_assoc in IH.
    cbn [records map app] in IH. specialize (IH Hout).
    rewrite records_cons.
    unfold stores_at. cbn [flat_map]. fold (stores_at grid max_concurrent_steps rest step).
    destruct (BufferedRef.is_index_invariant bref) eqn:Hinv.
    + rewrite bool_decide_eq_true_2 by done. unfold assertM. rewrite !bindM_ret.
      exact IH.
    + assert (Hspec' : wf_spec (length (unravel grid step)) (BufferedRef.spec bref))
        by by rewrite unravel_length.
      rewrite compute_gmem_slice_wf, bindM_lift by done.
      destruct (reduce_same_slices (record_before grid bref step)
                  (map to_Slice (gmem_slice (BufferedRef.spec bref) (unravel grid step))))
        as (same & Hsame & Hreduce).
      { rewrite record_before_length, length_map, gmem_slice_length by done. done. }
      { intros Hnil. apply Hrank; [done|].
        apply (f_equal length) in Hnil. rewrite record_before_length in Hnil by done.
        by apply length_zero_iff_nil. }
      cbv zeta. change (λ s : pl.Slice, mk_Slice (pl.start s) (pl.size s)) with to_Slice.
      rewrite Hsame, bindM_lift, Hreduce, bindM_lift.
      rewrite int32_fits, bindM_lift by lia.
      rewrite copy_out_events by done.
      rewrite insert_app_r_alt by (rewrite records_length; lia).
      rewrite records_length, Nat.sub_diag. cbn [insert list_insert].
      rewrite record_before_succ in IH by done.
      eapply bindM_run; [ | exact IH | reflexivity].
      eapply bindM_run; [reflexivity | reflexivity | reflexivity].
Qed.

(** The counter of the loads ahead returns one index per axis. *)
Lemma fetch_indices_run (step : Z) :
  _inc_grid (unravel grid step) grid max_concurrent_steps
  = Some (fetch_indices grid max_concurrent_steps step)
  ∧ length (fetch_indices grid max_concurrent_steps step) = length grid.
Proof using grid_pos sizes_fit depth_pos.
  unfold fetch_indices. rewrite inc_grid_pairs.
  rewrite safe_zip_Some by apply unravel_length. cbn [mbind option_bind].
  destruct (inc_pairs_Some (zip (unravel grid step) grid) max_concurrent_steps)
    as (st & -> & Hlen & _); [lia | by apply zip_sizes_fit |].
  simpl. split; [done|]. rewrite Hlen, length_zip_with, unravel_length. lia.
Qed.

Lemma prefetch_run (step : Z) :
  cond (wrap32 (step + max_concurrent_steps) <? num_steps grid)
    (for_each in_brefs (λ bref,
       let* next := liftM (_inc_grid (unravel grid step) grid max_concurrent_steps) in
       BufferedRef.copy_in bref (step `mod` max_concurrent_steps) next barrier_ref))
    (retM tt)
  = Some (tt, if wrap32 (step + max_concurrent_steps) <? num_steps grid
              then loads_from barrier_ref in_brefs (step `mod` max_concurrent_steps)
                     (fetch_indices grid max_concurrent_steps step)
              else []).
Proof using grid_pos sizes_fit depth_pos in_wf.
  destruct (fetch_indices_run step) as [Hnext Hlen]. unfold cond.
  erewrite for_each_map with
    (g := load_from barrier_ref (step `mod` max_concurrent_steps)
            (fetch_indices grid max_concurrent_steps step)).
  - unfold retM. by destruct (wrap32 (step + max_concurrent_steps) <? num_steps grid).
  - eapply Forall_impl; [exact in_wf|]. intros bref Hwf. simpl.
    rewrite Hnext, bindM_lift. apply copy_in_events. by rewrite Hlen.
Qed.

(** One step of the loop, from the indices and the records of the
    step to those of the next step. *)
Lemma loop_body_run (step : Z) :
  0 ≤ step →
  loop_body grid in_specs max_concurrent_steps in_brefs out_brefs barrier_ref step
    (unravel grid step, records grid out_brefs step)
  = Some ((unravel grid (step + 1), records grid out_brefs (step + 1)),
          step_events grid in_specs max_concurrent_steps barrier_ref
            in_brefs out_brefs step).
Proof using grid_pos sizes_fit steps_fit depth_pos in_wf out_wf.
  intros Hstep. pose proof (prod_pos _ grid_pos) as HN. fold (num_steps grid) in HN.
  enough (Hrun : ∃ t,
    loop_body grid in_specs max_concurrent_steps in_brefs out_brefs barrier_ref step
      (unravel grid step, records grid out_brefs step)
    = Some ((unravel grid (step + 1), records grid out_brefs (step + 1)), t)
    ∧ t = step_events grid in_specs max_concurrent_steps barrier_ref
            in_brefs out_brefs step)
    by (destruct Hrun as (t & -> & ->); done).
  eexists. split.
  - unfold loop_body. rewrite int32_fits, bindM_lift by lia. cbv zeta.
    eapply bindM_run; [ | | reflexivity].
    { instantiate (1 := match in_specs with
                        | [] => []
                        | _ :: _ => [barrier_wait (barrier_ref, step `mod` max_concurrent_steps)]
                        end).
      instantiate (1 := tt). by destruct in_specs. }
    eapply bindM_run; [reflexivity | | reflexivity].
    rewrite safe_zip_Some by apply unravel_length. rewrite bindM_lift.
    eapply bindM_run; [reflexivity | | reflexivity].
    eapply bindM_run; [ | | reflexivity].
    { instantiate (1 := if forallb BufferedRef.is_index_invariant out_brefs
                        then [] else [commit_smem]).
      instantiate (1 := tt).
      by destruct (forallb BufferedRef.is_index_invariant out_brefs). }
    eapply bindM_run; [ | | reflexivity].
    { exact (store_outputs_run step out_brefs Hstep [] eq_refl). }
    rewrite int32_fits, bindM_lift by lia.
    eapply bindM_run; [by apply prefetch_run | | reflexivity].
    rewrite inc_grid_next by done. rewrite bindM_lift. reflexivity.
  - unfold step_events. cbv zeta. simpl. rewrite app_nil_r. done.
Qed.

Lemma steady_state_run :
  steady_state grid in_specs max_concurrent_steps in_brefs out_brefs barrier_ref
  = Some ((unravel grid (num_steps grid), records grid out_brefs (num_steps grid)),
          loop_events grid in_specs max_concurrent_steps barrier_ref
            in_brefs out_brefs).
Proof using grid_pos sizes_fit steps_fit depth_pos in_wf out_wf.
  pose proof (prod_pos _ grid_pos) as HN. fold (num_steps grid) in HN.
  unfold steady_state, fori_loop, loop_events, range.
  rewrite <- unravel_0.
  change (init_store_slices out_brefs) with (records grid out_brefs 0).
  rewrite (fori_loop_from_events _
             (λ step, (unravel grid step, records grid out_brefs step))
             (step_events grid in_specs max_concurrent_steps barrier_ref
                in_brefs out_brefs)).
  - rewrite Z.sub_0_r, Z2Nat.id by lia. done.
  - intros j Hj. apply loop_body_run. lia.
Qed.

Lemma epilogue_run :
  epilogue grid max_concurrent_steps out_brefs
  = Some (tt, epilogue_events grid max_concurrent_steps out_brefs).
Proof using depth_pos out_wf.
  enough (Hrun : ∃ t,
    epilogue grid max_concurrent_steps out_brefs = Some (tt, t)
    ∧ t = epilogue_events grid max_concurrent_steps out_brefs)
    by (destruct Hrun as (t & -> & ->); done).
  eexists. split.
  - unfold epilogue.
    eapply bindM_run; [ | | reflexivity].
    { instantiate (1 := if forallb BufferedRef.is_index_invariant out_brefs
                        then [commit_smem] else []).
      instantiate (1 := tt).
      by destruct (forallb BufferedRef.is_index_invariant out_brefs). }
    unfold py_mod. destruct (Z.eqb_spec max_concurrent_steps 0) as [?|_]; [lia|].
    rewrite bindM_lift.
    eapply bindM_run; [ | reflexivity | reflexivity].
    apply for_each_events with
      (g := λ bref, if BufferedRef.is_index_invariant bref
                    then [final_store grid max_concurrent_steps bref] else []).
    eapply Forall_impl; [exact out_wf|]. intros bref [Hwf _]. simpl.
    destruct (BufferedRef.is_index_invariant bref); [|done].
    apply copy_out_events. by rewrite length_replicate.
  - unfold epilogue_events. done.
Qed.

End PhaseLemmas.

(** ** The whole pipeline *)

Section OperandLemmas.

Context `{Tracing}.
Variable grid : list Z.
Variable max_concurrent_steps : Z.

Lemma operands_length (first : nat) (specs : list BlockSpec)
    (gmem_refs : list AbstractMemoryRef) :
  length specs = length gmem_refs →
  length (operands grid max_concurrent_steps first specs gmem_refs) = length specs.
Proof.
  revert first gmem_refs. induction specs as [|spec specs IH];
    intros first [|ref gmem_refs] Hlen; simpl in *; try done.
  by rewrite IH by lia.
Qed.

Lemma operands_lookup (first : nat) (specs : list BlockSpec)
    (gmem_refs : list AbstractMemoryRef) (j : nat) (bref : BufferedRef.t) :
  operands grid max_concurrent_steps first specs gmem_refs !! j = Some bref →
  ∃ spec ref,
    specs !! j = Some spec ∧ gmem_refs !! j = Some ref
    ∧ bref = BufferedRef.mk spec grid ref
               (mkRef (first + j) (max_concurrent_steps :: block_shape spec)
                  (ref_dtype ref)).
Proof.
  revert first gmem_refs j. induction specs as [|spec specs IH];
    intros first [|ref gmem_refs] j Hj; simpl in *; try done.
  destruct j as [|j]; simpl in *.
  - inversion Hj; subst. exists spec, ref. by rewrite Nat.add_0_r.
  - destruct (IH _ _ _ Hj) as (spec' & ref' & ? & ? & ->).
    exists spec', ref'. repeat split; try done. do 2 f_equal. lia.
Qed.

Lemma operands_spec (first : nat) (specs : list BlockSpec)
    (gmem_refs : list AbstractMemoryRef) (P : BlockSpec → Prop) :
  Forall P specs →
  Forall (λ bref, P (BufferedRef.spec bref) ∧ BufferedRef.grid bref = grid)
    (operands grid max_concurrent_steps first specs gmem_refs).
Proof.
  intros HP. revert first gmem_refs. induction HP as [|spec specs Hs _ IH];
    intros first [|ref gmem_refs]; simpl; by constructor.
Qed.

Lemma make_brefs_operands (first : nat) (specs : list BlockSpec)
    (gmem_refs : list AbstractMemoryRef) :
  length specs = length gmem_refs →
  make_brefs grid specs gmem_refs
    (allocate first
       (map (λ p, mkSMEM (max_concurrent_steps :: block_shape p.1) (ref_dtype p.2))
          (zip specs gmem_refs)))
  = Some (operands grid max_concurrent_steps first specs gmem_refs).
Proof.
  intros Hlen. unfold make_brefs. rewrite safe_zip_Some by done. simpl.
  revert first gmem_refs Hlen. induction specs as [|spec specs IH];
    intros first [|ref gmem_refs] Hlen; simpl in *; try done.
  specialize (IH (S first) gmem_refs).
  destruct (safe_zip (zip specs gmem_refs) _) as [qs|]; simpl in *.
  - f_equal. f_equal. assert (Hl : length specs = length gmem_refs) by lia.
    specialize (IH Hl). by inversion IH.
  - assert (Hl : length specs = length gmem_refs) by lia. by specialize (IH Hl).
Qed.

End OperandLemmas.

Section PipelineLemmas.

Context `{Tracing}.
Variable grid : list Z.
Variable max_concurrent_steps : Z.

Lemma clamp_depth :
  (if max_concurrent_steps >? num_steps grid then num_steps grid
   else max_concurrent_steps)
  = depth grid max_concurrent_steps.
Proof.
  unfold depth. destruct (Z.gtb_spec max_concurrent_steps (num_steps grid)); lia.
Qed.

Variables in_specs out_specs : list BlockSpec.
Variable gmem_refs : list AbstractMemoryRef.
Hypothesis wf : wf_pipeline grid in_specs out_specs max_concurrent_steps gmem_refs.

Lemma wf_num_steps : 0 < num_steps grid.
Proof using wf. apply prod_pos, wf. Qed.

Lemma wf_depth_bounds : 0 < depth grid max_concurrent_steps ≤ num_steps grid.
Proof using wf.
  pose proof wf_num_steps. pose proof (wf_depth _ _ _ _ _ wf). unfold depth. lia.
Qed.

Lemma wf_in_operands :
  Forall (λ bref, wf_spec (length grid) (BufferedRef.spec bref))
    (in_operands grid in_specs max_concurrent_steps gmem_refs).
Proof using wf.
  eapply Forall_impl; [apply operands_spec, (wf_in_specs _ _ _ _ _ wf)|].
  by intros bref [? _].
Qed.

Lemma wf_out_operands :
  Forall (wf_out grid) (out_operands grid in_specs out_specs max_concurrent_steps gmem_refs).
Proof using wf.
  eapply Forall_impl; [apply operands_spec, (wf_out_specs _ _ _ _ _ wf)|].
  intros bref [[Hwf Hrank] Hgrid]. split; [done|].
  unfold BufferedRef.is_index_invariant. rewrite Hgrid. exact Hrank.
Qed.

Lemma in_operands_length :
  length (in_operands grid in_specs max_concurrent_steps gmem_refs) = length in_specs.
Proof using wf.
  apply operands_length. rewrite length_take. pose proof (wf_gmem_refs _ _ _ _ _ wf). lia.
Qed.

Lemma out_operands_length :
  length (out_operands grid in_specs out_specs max_concurrent_steps gmem_refs)
  = length out_specs.
Proof using wf.
  apply operands_length. rewrite length_drop. pose proof (wf_gmem_refs _ _ _ _ _ wf). lia.
Qed.

(** The pipeline runs without an error and issues the events of the
    prologue, of the loop and of the epilogue, in this order. *)
Lemma emit_pipeline_run :
  let d := depth grid max_concurrent_steps in
  let barrier_ref := pipeline_barrier grid in_specs max_concurrent_steps in
  let in_brefs := in_operands grid in_specs max_concurrent_steps gmem_refs in
  let out_brefs := out_operands grid in_specs out_specs max_concurrent_steps gmem_refs in
  prologue grid d in_brefs barrier_ref
  = Some (tt, prologue_events grid d barrier_ref in_brefs)
  ∧ steady_state grid in_specs d in_brefs out_brefs barrier_ref
    = Some ((unravel grid (num_steps grid), records grid out_brefs (num_steps grid)),
            loop_events grid in_specs d barrier_ref in_brefs out_brefs)
  ∧ epilogue grid d out_brefs = Some (tt, epilogue_events grid d out_brefs)
  ∧ emit_pipeline grid in_specs out_specs max_concurrent_steps gmem_refs
    = Some (tt, prologue_events grid d barrier_ref in_brefs
                ++ loop_events grid in_specs d barrier_ref in_brefs out_brefs
                ++ epilogue_events grid d out_brefs).
Proof using wf.
  intros d barrier_ref in_brefs out_brefs.
  pose proof wf_depth_bounds as Hd. fold d in Hd.
  pose proof (wf_grid _ _ _ _ _ wf) as Hgrid.
  pose proof (wf_gmem_refs _ _ _ _ _ wf) as Hlen.
  pose proof (wf_sizes _ _ _ _ _ wf) as Hsizes.
  pose proof (wf_steps _ _ _ _ _ wf) as Hsteps.
  assert (Hd31 : 0 < d < 2 ^ 31) by lia.
  assert (Hp := prologue_run grid d barrier_ref in_brefs Hgrid Hd31
                  wf_in_operands (proj2 Hd)).
  assert (Hl := steady_state_run grid in_specs d barrier_ref in_brefs out_brefs
                  Hgrid Hsizes Hsteps Hd31 wf_in_operands wf_out_operands).
  assert (He := epilogue_run grid d out_brefs Hd31 wf_out_operands).
  split; [exact Hp|]. split; [exact Hl|]. split; [exact He|].
  unfold emit_pipeline. cbv zeta. rewrite clamp_depth. fold d.
  unfold pipeline, split_list, safe_map2.
  rewrite safe_zip_Some by (rewrite length_app; lia). cbn [mbind option_bind].
  rewrite bindM_lift. unfold run_scoped, scoped_pipeline.
  set (n := length in_specs) in *.
  assert (Hzip : zip (in_specs ++ out_specs) gmem_refs
                 = zip in_specs (take n gmem_refs) ++ zip out_specs (drop n gmem_refs)).
  { rewrite <- (take_drop n gmem_refs) at 1. apply zip_with_app.
    rewrite length_take. lia. }
  rewrite Hzip, map_app.
  assert (Hn : length (map (λ p : BlockSpec * AbstractMemoryRef,
                              mkSMEM (d :: block_shape p.1) (ref_dtype p.2))
                         (zip in_specs (take n gmem_refs))) = n).
  { rewrite length_map, length_zip_with, length_take. lia. }
  rewrite take_app_length' by (symmetry; exact Hn).
  rewrite drop_app_length' by (symmetry; exact Hn).
  rewrite Hn.
  rewrite make_brefs_operands by (rewrite length_take; lia).
  rewrite bindM_lift.
  rewrite make_brefs_operands by (rewrite length_drop; lia).
  rewrite bindM_lift.
  eapply bindM_run; [exact Hp | | reflexivity].
  eapply bindM_run; [exact Hl | exact He | reflexivity].
Qed.

End PipelineLemmas.

(** ** The examples are well formed *)

Lemma ex_wf_half : @wf_pipeline jaxpr_tracing [3] [ex_in] [ex_half] 2 ex_refs.
Proof.
  split.
  - repeat constructor.
  - repeat constructor.
  - reflexivity.
  - lia.
  - constructor; [|constructor]. by intros grid_indices Hlen.
  - constructor; [|constructor]. split; [|done]. by intros grid_indices Hlen.
  - reflexivity.
Qed.

Lemma ex_wf_const : @wf_pipeline jaxpr_tracing [3] [ex_in] [ex_const] 2 ex_refs.
Proof.
  split.
  - repeat constructor.
  - repeat constructor.
  - reflexivity.
  - lia.
  - constructor; [|constructor]. by intros grid_indices Hlen.
  - constructor; [|constructor]. split; [|done]. by intros grid_indices Hlen.
  - reflexivity.
Qed.

Lemma ex_wf_no_output :
  @wf_pipeline jaxpr_tracing [3] [ex_in] [] 2 [mkRef 10 [24] 0].
Proof.
  split.
  - repeat constructor.
  - repeat constructor.
  - reflexivity.
  - lia.
  - constructor; [|constructor]. by intros grid_indices Hlen.
  - constructor.
  - reflexivity.
Qed.

(** ** Counting the transfers *)

Lemma count_app (p : event → bool) (t1 t2 : list event) :
  count p (t1 ++ t2) = (count p t1 + count p t2)%nat.
Proof. unfold count. by rewrite List.filter_app, length_app. Qed.

Lemma count_flat_map {A : Type} (p : event → bool) (f : A → list event)
    (l : list A) (c : nat) :
  Forall (λ x, count p (f x) = c) l → count p (flat_map f l) = (length l * c)%nat.
Proof.
  induction 1 as [|x l Hx _ IH]; simpl; [done|].
  rewrite count_app, Hx, IH. lia.
Qed.

Section EventKinds.

Context `{Tracing}.
Variable grid : list Z.
Variable in_specs : list BlockSpec.
Variable max_concurrent_steps : Z.
Variable barrier_ref : Barrier.
Variables in_brefs out_brefs : list BufferedRef.t.

Lemma filter_load_loads (slot : Z) (grid_indices : list Z) :
  List.filter is_load (loads_from barrier_ref in_brefs slot grid_indices)
  = loads_from barrier_ref in_brefs slot grid_indices.
Proof.
  unfold loads_from. induction in_brefs as [|b l IH]; simpl; [done|]. by rewrite IH.
Qed.

Lemma filter_other_loads (p : event → bool) (slot : Z) (grid_indices : list Z) :
  (∀ src dst barrier, p (copy_gmem_to_smem src dst barrier) = false) →
  List.filter p (loads_from barrier_ref in_brefs slot grid_indices) = [].
Proof.
  intros Hp. unfold loads_from. induction in_brefs as [|b l IH]; simpl; [done|].
  unfold load_from at 1. by rewrite Hp.
Qed.

Lemma filter_other_stores (p : event → bool) (step : Z) :
  (∀ src dst predicate, p (copy_smem_to_gmem src dst predicate) = false) →
  List.filter p (stores_at grid max_concurrent_steps out_brefs step) = [].
Proof.
  intros Hp. unfold stores_at. induction out_brefs as [|b l IH]; simpl; [done|].
  destruct (BufferedRef.is_index_invariant b); simpl; [done|].
  unfold store_at at 1. by rewrite Hp.
Qed.

Lemma filter_load_step (step : Z) :
  List.filter is_load
    (step_events grid in_specs max_concurrent_steps barrier_ref in_brefs out_brefs step)
  = if wrap32 (step + max_concurrent_steps) <? num_steps grid
    then loads_from barrier_ref in_brefs (step `mod` max_concurrent_steps)
           (fetch_indices grid max_concurrent_steps step)
    else [].
Proof.
  unfold step_events. cbv zeta. rewrite !List.filter_app.
  rewrite filter_other_stores by done.
  assert (Hw : List.filter is_load
                 match in_specs with
                 | [] => []
                 | _ :: _ => [barrier_wait (barrier_ref, step `mod` max_concurrent_steps)]
                 end = []) by by destruct in_specs.
  rewrite Hw.
  assert (Hc : List.filter is_load
                 (if forallb BufferedRef.is_index_invariant out_brefs
                  then [] else [commit_smem]) = [])
    by by destruct (forallb BufferedRef.is_index_invariant out_brefs).
  rewrite Hc. simpl.
  destruct (wrap32 (step + max_concurrent_steps) <? num_steps grid); [|done].
  apply filter_load_loads.
Qed.

Lemma loads_from_length (slot : Z) (grid_indices : list Z) :
  length (loads_from barrier_ref in_brefs slot grid_indices) = length in_brefs.
Proof. unfold loads_from. apply length_map. Qed.

Lemma count_load_prologue :
  0 ≤ max_concurrent_steps →
  Z.of_nat (count is_load (prologue_events grid max_concurrent_steps barrier_ref in_brefs))
  = max_concurrent_steps * Z.of_nat (length in_brefs).
Proof.
  intros Hd. unfold prologue_events.
  rewrite (count_flat_map _ _ _ (length in_brefs)).
  - unfold range. rewrite length_seqZ, Nat2Z.inj_mul. rewrite Z2Nat.id by lia. done.
  - apply Forall_forall. intros step _. unfold count, loads_at.
    by rewrite filter_load_loads, loads_from_length.
Qed.

(** The test of the loads ahead on the int32 counter: it holds while
    [step + max_concurrent_steps] is a step of the loop, and again once the
    sum overflows. *)
Lemma fetch_test (step : Z) :
  0 < max_concurrent_steps ≤ num_steps grid → num_steps grid < 2 ^ 31 →
  0 ≤ step < num_steps grid →
  (wrap32 (step + max_concurrent_steps) <? num_steps grid)
  = (step + max_concurrent_steps <? num_steps grid)
    || (2 ^ 31 <=? step + max_concurrent_steps).
Proof.
  intros Hd HN Hstep.
  destruct (Z.leb_spec (2 ^ 31) (step + max_concurrent_steps)) as [Hover|Hfit].
  - rewrite wrap32_over by lia. rewrite orb_true_r. apply Z.ltb_lt. lia.
  - rewrite wrap32_small by lia. by rewrite orb_false_r.
Qed.

Lemma count_load_loop :
  0 < max_concurrent_steps ≤ num_steps grid → num_steps grid < 2 ^ 31 →
  Z.of_nat (count is_load
              (loop_events grid in_specs max_concurrent_steps barrier_ref
                 in_brefs out_brefs))
  = (num_steps grid - max_concurrent_steps
     + Z.max 0 (num_steps grid + max_concurrent_steps - 2 ^ 31))
    * Z.of_nat (length in_brefs).
Proof.
  intros Hd HN. unfold loop_events, range.
  set (m := Z.max 0 (num_steps grid + max_concurrent_steps - 2 ^ 31)).
  assert (Hm : 0 ≤ m ≤ max_concurrent_steps) by lia.
  replace (num_steps grid)
    with ((num_steps grid - max_concurrent_steps) + ((max_concurrent_steps - m) + m))
    at 1 by lia.
  rewrite !seqZ_app by lia. rewrite !flat_map_app, !count_app.
  rewrite (count_flat_map _ _ (seqZ 0 _) (length in_brefs)).
  - rewrite (count_flat_map _ _ (seqZ _ (max_concurrent_steps - m)) 0).
    + rewrite (count_flat_map _ _ (seqZ _ m) (length in_brefs)).
      * rewrite !length_seqZ, !Nat2Z.inj_add, !Nat2Z.inj_mul.
        rewrite !Z2Nat.id by lia. lia.
      * apply Forall_seqZ. intros step Hstep. unfold count.
        rewrite filter_load_step, fetch_test by lia.
        destruct (Z.leb_spec (2 ^ 31) (step + max_concurrent_steps)); [|lia].
        rewrite orb_true_r. apply loads_from_length.
    + apply Forall_seqZ. intros step Hstep. unfold count.
      rewrite filter_load_step, fetch_test by lia.
      destruct (Z.ltb_spec (step + max_concurrent_steps) (num_steps grid)); [lia|].
      destruct (Z.leb_spec (2 ^ 31) (step + max_concurrent_steps)); [lia|done].
  - apply Forall_seqZ. intros step Hstep. unfold count.
    rewrite filter_load_step, fetch_test by lia.
    destruct (Z.ltb_spec (step + max_concurrent_steps) (num_steps grid)); [|lia].
    apply loads_from_length.
Qed.

Lemma count_load_epilogue :
  count is_load (epilogue_events grid max_concurrent_steps out_brefs) = 0%nat.
Proof.
  unfold epilogue_events. rewrite !count_app.
  assert (Hc : count is_load
                 (if forallb BufferedRef.is_index_invariant out_brefs
                  then [commit_smem] else []) = 0%nat)
    by by destruct (forallb BufferedRef.is_index_invariant out_brefs).
  rewrite Hc. rewrite (count_flat_map _ _ _ 0).
  - rewrite Nat.mul_0_r. done.
  - apply Forall_forall. intros b _. by destruct (BufferedRef.is_index_invariant b).
Qed.

Lemma filter_store_stores (step : Z) :
  List.filter is_store (stores_at grid max_concurrent_steps out_brefs step)
  = stores_at grid max_concurrent_steps out_brefs step.
Proof.
  unfold stores_at. induction out_brefs as [|b l IH]; simpl; [done|].
  destruct (BufferedRef.is_index_invariant b); simpl; by rewrite IH.
Qed.

Lemma stores_at_filter (step : Z) :
  stores_at grid max_concurrent_steps out_brefs step
  = map (store_at grid max_concurrent_steps step)
      (List.filter (λ bref, negb (BufferedRef.is_index_invariant bref)) out_brefs).
Proof.
  unfold stores_at. induction out_brefs as [|b l IH]; simpl; [done|].
  destruct (BufferedRef.is_index_invariant b); simpl; by rewrite IH.
Qed.

Lemma filter_store_step (step : Z) :
  List.filter is_store
    (step_events grid in_specs max_concurrent_steps barrier_ref in_brefs out_brefs step)
  = stores_at grid max_concurrent_steps out_brefs step.
Proof.
  unfold step_events. cbv zeta. rewrite !List.filter_app.
  rewrite filter_store_stores.
  assert (Hw : List.filter is_store
                 match in_specs with
                 | [] => []
                 | _ :: _ => [barrier_wait (barrier_ref, step `mod` max_concurrent_steps)]
                 end = []) by by destruct in_specs.
  rewrite Hw.
  assert (Hc : List.filter is_store
                 (if forallb BufferedRef.is_index_invariant out_brefs
                  then [] else [commit_smem]) = [])
    by by destruct (forallb BufferedRef.is_index_invariant out_brefs).
  rewrite Hc. simpl.
  destruct (wrap32 (step + max_concurrent_steps) <? num_steps grid).
  - rewrite filter_other_loads by done. by rewrite app_nil_r.
  - by rewrite app_nil_r.
Qed.

Lemma filter_commit_step (step : Z) :
  List.filter is_commit
    (step_events grid in_specs max_concurrent_steps barrier_ref in_brefs out_brefs step)
  = if forallb BufferedRef.is_index_invariant out_brefs then [] else [commit_smem].
Proof.
  unfold step_events. cbv zeta. rewrite !List.filter_app.
  rewrite filter_other_stores by done.
  assert (Hw : List.filter is_commit
                 match in_specs with
                 | [] => []
                 | _ :: _ => [barrier_wait (barrier_ref, step `mod` max_concurrent_steps)]
                 end = []) by by destruct in_specs.
  rewrite Hw. simpl.
  assert (Hl : List.filter is_commit
                 (if wrap32 (step + max_concurrent_steps) <? num_steps grid
                  then loads_from barrier_ref in_brefs
                         (step `mod` max_concurrent_steps)
                         (fetch_indices grid max_concurrent_steps step)
                  else []) = []).
  { destruct (wrap32 (step + max_concurrent_steps) <? num_steps grid); [|done].
    by apply filter_other_loads. }
  rewrite Hl, app_nil_r.
  by destruct (forallb BufferedRef.is_index_invariant out_brefs).
Qed.

Lemma filter_prologue_other (p : event → bool) :
  (∀ src dst barrier, p (copy_gmem_to_smem src dst barrier) = false) →
  List.filter p (prologue_events grid max_concurrent_steps barrier_ref in_brefs) = [].
Proof.
  intros Hp. unfold prologue_events, loads_at.
  induction (range max_concurrent_steps) as [|step l IH]; simpl; [done|].
  by rewrite List.filter_app, filter_other_loads, IH.
Qed.

(** Only the stores of a step can satisfy a predicate that holds of
    stores only. *)
Lemma filter_step_stores (p : event → bool) (step : Z) :
  (∀ e, is_store e = false → p e = false) →
  List.filter p
    (step_events grid in_specs max_concurrent_steps barrier_ref in_brefs out_brefs step)
  = List.filter p (stores_at grid max_concurrent_steps out_brefs step).
Proof.
  intros Hp. unfold step_events. cbv zeta. rewrite !List.filter_app.
  assert (Hw : List.filter p
                 match in_specs with
                 | [] => []
                 | _ :: _ => [barrier_wait (barrier_ref, step `mod` max_concurrent_steps)]
                 end = []).
  { destruct in_specs; [done|]. simpl. by rewrite Hp. }
  rewrite Hw.
  assert (Hc : List.filter p
                 (if forallb BufferedRef.is_index_invariant out_brefs
                  then [] else [commit_smem]) = []).
  { destruct (forallb BufferedRef.is_index_invariant out_brefs); [done|].
    simpl. by rewrite Hp. }
  rewrite Hc. simpl. rewrite !Hp by done.
  destruct (wrap32 (step + max_concurrent_steps) <? num_steps grid).
  - rewrite filter_other_loads by (intros; by apply Hp). by rewrite app_nil_r.
  - by rewrite app_nil_r.
Qed.

Lemma filter_epilogue_stores (p : event → bool) :
  (∀ e, is_store e = false → p e = false) →
  List.filter p (epilogue_events grid max_concurrent_steps out_brefs)
  = List.filter p
      (flat_map (λ bref, if BufferedRef.is_index_invariant bref
                         then [final_store grid max_concurrent_steps bref] else [])
         out_brefs).
Proof.
  intros Hp. unfold epilogue_events. rewrite !List.filter_app.
  assert (Hc : List.filter p
                 (if forallb BufferedRef.is_index_invariant out_brefs
                  then [commit_smem] else []) = []).
  { destruct (forallb BufferedRef.is_index_invariant out_brefs); [|done].
    simpl. by rewrite Hp. }
  rewrite Hc. simpl. rewrite Hp by done. by rewrite app_nil_r.
Qed.

(** The state of the loop when it reaches a step. *)
Lemma loop_state (step : Z) :
  Forall (λ size, 0 < size) grid → Forall (λ size, 2 * size < 2 ^ 31) grid →
  num_steps grid < 2 ^ 31 → 0 < max_concurrent_steps < 2 ^ 31 →
  Forall (λ bref, wf_spec (length grid) (BufferedRef.spec bref)) in_brefs →
  Forall (wf_out grid) out_brefs →
  0 ≤ step →
  ∃ t, fori_loop 0 step
         (loop_body grid in_specs max_concurrent_steps in_brefs out_brefs barrier_ref)
         (replicate (length grid) 0, init_store_slices out_brefs)
       = Some ((unravel grid step, records grid out_brefs step), t).
Proof.
  intros Hgrid Hsizes Hsteps Hd Hin Hout Hstep. unfold fori_loop. rewrite <- unravel_0.
  change (init_store_slices out_brefs) with (records grid out_brefs 0).
  rewrite (fori_loop_from_events _
             (λ step, (unravel grid step, records grid out_brefs step))
             (step_events grid in_specs max_concurrent_steps barrier_ref
                in_brefs out_brefs)).
  - rewrite Z.sub_0_r, Z2Nat.id by lia. eauto.
  - intros j Hj. apply loop_body_run; (done || lia).
Qed.

End EventKinds.

Lemma ex_wf_overflow :
  @wf_pipeline jaxpr_tracing [2; 1073741823] [ex_column] [] 3
    [mkRef 10 [1073741823] 0].
Proof.
  split.
  - repeat constructor.
  - repeat constructor.
  - reflexivity.
  - lia.
  - constructor; [|constructor]. by intros grid_indices Hlen.
  - constructor.
  - reflexivity.
Qed.

(** C4 (counterexample): on the grid [(2, 2 ^ 30 - 1)], with 3 slots and
    one input, the sum [step + 3] overflows at the last step of the loop,
    the test of the loads ahead holds again, and the pipeline issues
    [2 ^ 31 - 1] loads for the [2 ^ 31 - 2] steps of the grid. *)
Lemma inbound_transfers_overflow :
  @wf_pipeline jaxpr_tracing [2; 1073741823] [ex_column] [] 3
    [mkRef 10 [1073741823] 0]
  ∧ ∃ t,
      @emit_pipeline jaxpr_tracing [2; 1073741823] [ex_column] [] 3
        [mkRef 10 [1073741823] 0] = Some (tt, t)
      ∧ Z.of_nat (count is_load t) = 2147483647
      ∧ num_steps [2; 1073741823] * Z.of_nat (length [ex_column]) = 2147483646.
Proof.
  split; [exact ex_wf_overflow|].
  destruct (@emit_pipeline_run jaxpr_tracing [2; 1073741823] 3 [ex_column] []
              [mkRef 10 [1073741823] 0] ex_wf_overflow) as (_ & _ & _ & Hrun).
  eexists. split; [exact Hrun|]. split; [|reflexivity].
  assert (HN : num_steps [2; 1073741823] = 2147483646) by reflexivity.
  assert (Hd : depth [2; 1073741823] 3 = 3) by reflexivity.
  rewrite !count_app, !Nat2Z.inj_add, count_load_epilogue.
  rewrite count_load_prologue by (rewrite Hd; lia).
  rewrite count_load_loop by (rewrite ?Hd, ?HN; lia).
  rewrite Hd, HN.
  change (length (in_operands [2; 1073741823] [ex_column] 3 [mkRef 10 [1073741823] 0]))
    with 1%nat.
  lia.
Qed.

(** C4: while [num_steps + min(depth, num_steps)] does not exceed
    [2 ^ 31], the prologue issues [min(depth, num_steps)] loads per input,
    a step of the loop issues one load per input exactly when
    [step + depth < num_steps] (with the number of slots asked for or
    with the number in use, the test is the same), the epilogue issues
    none, and the pipeline issues [num_steps * len(in_specs)] loads in
    all. *)
Theorem inbound_transfers_total `{Tracing} (grid : list Z)
    (in_specs out_specs : list BlockSpec) (max_concurrent_steps : Z)
    (gmem_refs : list AbstractMemoryRef) :
  wf_pipeline grid in_specs out_specs max_concurrent_steps gmem_refs →
  num_steps grid + Z.min max_concurrent_steps (num_steps grid) ≤ 2 ^ 31 →
  let d := Z.min max_concurrent_steps (num_steps grid) in
  let barrier_ref := pipeline_barrier grid in_specs max_concurrent_steps in
  let in_brefs := in_operands grid in_specs max_concurrent_steps gmem_refs in
  let out_brefs := out_operands grid in_specs out_specs max_concurrent_steps gmem_refs in
  ∃ tp tl te carry,
    prologue grid d in_brefs barrier_ref = Some (tt, tp)
    ∧ steady_state grid in_specs d in_brefs out_brefs barrier_ref = Some (carry, tl)
    ∧ epilogue grid d out_brefs = Some (tt, te)
    ∧ emit_pipeline grid in_specs out_specs max_concurrent_steps gmem_refs
      = Some (tt, tp ++ tl ++ te)
    ∧ Z.of_nat (count is_load tp) = d * Z.of_nat (length in_specs)
    ∧ tl = flat_map (step_events grid in_specs d barrier_ref in_brefs out_brefs)
             (range (num_steps grid))
    ∧ (∀ step, 0 ≤ step < num_steps grid →
         Z.of_nat (count is_load
                     (step_events grid in_specs d barrier_ref in_brefs out_brefs step))
         = if step + d <? num_steps grid then Z.of_nat (length in_specs) else 0)
    ∧ (∀ step, 0 ≤ step →
         (step + d <? num_steps grid) = (step + max_concurrent_steps <? num_steps grid))
    ∧ count is_load te = 0%nat
    ∧ Z.of_nat (count is_load (tp ++ tl ++ te))
      = num_steps grid * Z.of_nat (length in_specs).
Proof.
  intros wf Hfit d barrier_ref in_brefs out_brefs.
  destruct (emit_pipeline_run grid max_concurrent_steps in_specs out_specs gmem_refs wf)
    as (Hp & Hl & He & Hrun).
  pose proof (wf_depth_bounds grid max_concurrent_steps in_specs out_specs gmem_refs wf)
    as Hd.
  pose proof (wf_steps _ _ _ _ _ wf) as HN.
  pose proof (in_operands_length grid max_concurrent_steps in_specs out_specs gmem_refs wf)
    as Hlen.
  change (depth grid max_concurrent_steps) with d in *.
  fold barrier_ref in_brefs out_brefs in Hp, Hl, He, Hrun. fold in_brefs in Hlen.
  fold d in Hfit.
  do 4 eexists.
  split; [exact Hp|]. split; [exact Hl|]. split; [exact He|]. split; [exact Hrun|].
  split; [rewrite count_load_prologue by lia; by rewrite Hlen|].
  split; [done|].
  split.
  { intros step Hstep. unfold count. rewrite filter_load_step, fetch_test by lia.
    destruct (Z.leb_spec (2 ^ 31) (step + d)) as [?|_]; [lia|]. rewrite orb_false_r.
    destruct (step + d <? num_steps grid); [|done].
    by rewrite loads_from_length, Hlen. }
  split.
  { intros step Hstep.
    destruct (Z.ltb_spec (step + d) (num_steps grid)),
      (Z.ltb_spec (step + max_concurrent_steps) (num_steps grid)); (done || lia). }
  split; [apply count_load_epilogue|].
  rewrite !count_app, count_load_epilogue, !Nat2Z.inj_add.
  rewrite count_load_prologue, count_load_loop by lia. rewrite Hlen. lia.
Qed.

(** ** The elision of stores *)

Lemma sentinel_differs `{Tracing} (grid_indices : list Z) (bref : BufferedRef.t) :
  wf_spec (length grid_indices) (BufferedRef.spec bref) →
  block_shape (BufferedRef.spec bref) ≠ [] →
  Forall (λ size, 0 < size) (block_shape (BufferedRef.spec bref)) →
  sentinel bref ≠ map to_Slice (gmem_slice (BufferedRef.spec bref) grid_indices).
Proof.
  intros Hwf Hne Hpos. unfold sentinel, gmem_slice.
  specialize (Hwf grid_indices eq_refl).
  destruct (block_shape (BufferedRef.spec bref)) as [|size0 shape]; [done|].
  destruct (index_map (BufferedRef.spec bref) grid_indices) as [|idx0 idxs]; [done|].
  simpl. intros [= Hstart Hsize]. inversion Hpos; subst. lia.
Qed.

(** C1: when the loop reaches a step, the record of an output that
    depends on the grid is the sentinel at step 0 and the region of the
    step before otherwise.  At every step the loop issues, for every
    such output, one store whose predicate is: the region of the step
    differs from the record, or the step is the last one.  Blocks have
    positive sizes, so no region is the sentinel: the store of step 0 is
    not elided, and neither is the store of the last step. *)
Theorem store_elision_predicate `{Tracing} (grid : list Z)
    (in_specs out_specs : list BlockSpec) (max_concurrent_steps : Z)
    (gmem_refs : list AbstractMemoryRef) :
  wf_pipeline grid in_specs out_specs max_concurrent_steps gmem_refs →
  Forall (λ spec, Forall (λ size, 0 < size) (block_shape spec)) out_specs →
  let d := Z.min max_concurrent_steps (num_steps grid) in
  let barrier_ref := pipeline_barrier grid in_specs max_concurrent_steps in
  let in_brefs := in_operands grid in_specs max_concurrent_steps gmem_refs in
  let out_brefs := out_operands grid in_specs out_specs max_concurrent_steps gmem_refs in
  (∃ carry,
     steady_state grid in_specs d in_brefs out_brefs barrier_ref
     = Some (carry,
             flat_map (step_events grid in_specs d barrier_ref in_brefs out_brefs)
               (range (num_steps grid))))
  ∧ (∀ step, 0 ≤ step →
       ∃ t, fori_loop 0 step (loop_body grid in_specs d in_brefs out_brefs barrier_ref)
              (replicate (length grid) 0, init_store_slices out_brefs)
            = Some ((unravel grid step,
                     map (λ bref, if BufferedRef.is_index_invariant bref then None
                                  else Some (record_before grid bref step)) out_brefs),
                    t))
  ∧ (∀ bref,
       record_before grid bref 0
       = replicate (length (block_shape (BufferedRef.spec bref))) (mk_Slice (-1) (-1)))
  ∧ (∀ bref step, 0 ≤ step →
       record_before grid bref (step + 1) = map to_Slice (region grid bref step))
  ∧ (∀ step,
       List.filter is_store
         (step_events grid in_specs d barrier_ref in_brefs out_brefs step)
       = map (λ bref,
                copy_smem_to_gmem (BufferedRef.smem_ref bref, step `mod` d)
                  (BufferedRef.gmem_ref bref, region grid bref step)
                  (Some (negb (bool_decide (record_before grid bref step
                                            = map to_Slice (region grid bref step)))
                         || (step =? num_steps grid - 1))))
           (List.filter (λ bref, negb (BufferedRef.is_index_invariant bref)) out_brefs))
  ∧ (∀ bref, bref ∈ out_brefs → BufferedRef.is_index_invariant bref = false →
       (∀ step, record_before grid bref 0 ≠ map to_Slice (region grid bref step))
       ∧ store_predicate grid bref 0 = true
       ∧ store_predicate grid bref (num_steps grid - 1) = true).
Proof.
  intros wf Hshapes d barrier_ref in_brefs out_brefs.
  destruct (emit_pipeline_run grid max_concurrent_steps in_specs out_specs gmem_refs wf)
    as (_ & Hl & _).
  pose proof (wf_depth_bounds grid max_concurrent_steps in_specs out_specs gmem_refs wf)
    as Hd.
  pose proof (wf_grid _ _ _ _ _ wf) as Hgrid.
  pose proof (wf_sizes _ _ _ _ _ wf) as Hsizes.
  pose proof (wf_steps _ _ _ _ _ wf) as Hsteps.
  pose proof (wf_in_operands grid max_concurrent_steps in_specs out_specs gmem_refs wf)
    as Hin.
  pose proof (wf_out_operands grid max_concurrent_steps in_specs out_specs gmem_refs wf)
    as Hout.
  change (depth grid max_concurrent_steps) with d in *.
  fold barrier_ref in_brefs out_brefs in Hl, Hin, Hout.
  split; [eexists; exact Hl|].
  split; [intros step Hstep; apply loop_state; (done || lia)|].
  split; [done|].
  split; [intros bref step Hstep; by apply record_before_succ|].
  split; [intros step; by rewrite filter_store_step, stores_at_filter|].
  intros bref Hbref Hinv.
  assert (Hdiff : ∀ step,
            record_before grid bref 0 ≠ map to_Slice (region grid bref step)).
  { intros step. change (record_before grid bref 0) with (sentinel bref).
    destruct (proj1 (Forall_forall _ _) Hout bref Hbref) as [Hwf Hrank].
    apply sentinel_differs.
    - by rewrite unravel_length.
    - by apply Hrank.
    - pose proof (operands_spec grid d (length in_specs) out_specs
                    (drop (length in_specs) gmem_refs) _ Hshapes) as HP.
      by destruct (proj1 (Forall_forall _ _) HP bref Hbref). }
  split; [exact Hdiff|]. unfold store_predicate. split.
  - rewrite bool_decide_eq_false_2 by apply Hdiff. done.
  - rewrite Z.eqb_refl. apply orb_true_r.
Qed.

Lemma store_elision_predicate_witness :
  @wf_pipeline jaxpr_tracing [3] [ex_in] [ex_half] 2 ex_refs
  ∧ Forall (λ spec, Forall (λ size, 0 < size) (block_shape spec)) [ex_half]
  ∧ ∃ carry t,
      @steady_state jaxpr_tracing [3] [ex_in] 2
        (in_operands [3] [ex_in] 2 ex_refs)
        (out_operands [3] [ex_in] [ex_half] 2 ex_refs)
        (pipeline_barrier [3] [ex_in] 2)
      = Some (carry, t)
      ∧ List.filter is_store t
        = [copy_smem_to_gmem (mkRef 1 [2; 8] 0, 0) (mkRef 11 [24] 0, [pl.mkSlice 0 8])
             (Some true);
           copy_smem_to_gmem (mkRef 1 [2; 8] 0, 1) (mkRef 11 [24] 0, [pl.mkSlice 0 8])
             (Some false);
           copy_smem_to_gmem (mkRef 1 [2; 8] 0, 0) (mkRef 11 [24] 0, [pl.mkSlice 8 8])
             (Some true)].
Proof.
  assert (Hshapes : Forall (λ spec, Forall (λ size, 0 < size) (block_shape spec))
                      [ex_half]) by (repeat constructor).
  split; [exact ex_wf_half|]. split; [exact Hshapes|].
  destruct (@store_elision_predicate jaxpr_tracing [3] [ex_in] [ex_half] 2 ex_refs
              ex_wf_half Hshapes) as ([carry Hloop] & _).
  exists carry. eexists. split; [exact Hloop|]. vm_compute. reflexivity.
Defined.

(** ** The stores of one operand *)

Lemma is_store_from_store `{Tracing} (bref : BufferedRef.t) (e : event) :
  is_store e = false → is_store_from bref e = false.
Proof. by destruct e. Qed.

Lemma operands_names `{Tracing} (grid : list Z) (d : Z) (first : nat)
    (specs : list BlockSpec) (gmem_refs : list AbstractMemoryRef) :
  Forall (λ bref, (first ≤ ref_name (BufferedRef.smem_ref bref))%nat)
    (operands grid d first specs gmem_refs)
  ∧ NoDup (BufferedRef.smem_ref <$> operands grid d first specs gmem_refs).
Proof.
  revert first gmem_refs. induction specs as [|spec specs IH];
    intros first [|ref gmem_refs]; simpl; try (split; constructor).
  - done.
  - eapply Forall_impl; [apply (IH (S first) gmem_refs)|]. simpl. intros; lia.
  - intros Hin. apply list_elem_of_fmap in Hin as (b & Hb & Hin).
    destruct (IH (S first) gmem_refs) as [Hge _].
    pose proof (proj1 (Forall_forall _ _) Hge b Hin) as Hle.
    simpl in Hle. rewrite <- Hb in Hle. simpl in Hle. lia.
  - apply IH.
Qed.

Lemma filter_store_from_none `{Tracing} (bref : BufferedRef.t)
    (g : BufferedRef.t → list event) (l : list BufferedRef.t) :
  (∀ b, BufferedRef.smem_ref b ≠ BufferedRef.smem_ref bref →
        List.filter (is_store_from bref) (g b) = []) →
  BufferedRef.smem_ref bref ∉ BufferedRef.smem_ref <$> l →
  List.filter (is_store_from bref) (flat_map g l) = [].
Proof.
  intros Hg. induction l as [|b l IH]; intros Hnot; simpl; [done|].
  rewrite fmap_cons, not_elem_of_cons in Hnot. destruct Hnot as [Hne Hnot].
  rewrite List.filter_app, Hg, IH by done. done.
Qed.

(** Among operands with different scratch memory, the stores out of the
    scratch memory of one operand are those issued for this operand. *)
Lemma filter_store_from_one `{Tracing} (bref : BufferedRef.t)
    (g : BufferedRef.t → list event) (l : list BufferedRef.t) :
  (∀ b, BufferedRef.smem_ref b ≠ BufferedRef.smem_ref bref →
        List.filter (is_store_from bref) (g b) = []) →
  NoDup (BufferedRef.smem_ref <$> l) → bref ∈ l →
  List.filter (is_store_from bref) (flat_map g l)
  = List.filter (is_store_from bref) (g bref).
Proof.
  intros Hg. induction l as [|b l IH]; intros Hnodup Hin; [by apply elem_of_nil in Hin|].
  rewrite fmap_cons in Hnodup. apply NoDup_cons in Hnodup as [Hb Hnodup].
  simpl. rewrite List.filter_app. apply elem_of_cons in Hin as [->|Hin].
  - rewrite filter_store_from_none by done. by rewrite app_nil_r.
  - assert (Hne : BufferedRef.smem_ref b ≠ BufferedRef.smem_ref bref).
    { intros Heq. apply Hb. rewrite Heq. apply list_elem_of_fmap. eauto. }
    rewrite Hg by done. rewrite IH by done. done.
Qed.

(** C5: an index-invariant output is not stored by the prologue or by
    the loop, and the epilogue stores it exactly once, from the slot
    [(num_steps - 1) mod depth] (the same slot for the number of slots
    asked for and for the number in use) to its region at the all-zero
    indices. *)
Theorem invariant_output_single_store `{Tracing} (grid : list Z)
    (in_specs out_specs : list BlockSpec) (max_concurrent_steps : Z)
    (gmem_refs : list AbstractMemoryRef) :
  wf_pipeline grid in_specs out_specs max_concurrent_steps gmem_refs →
  let d := Z.min max_concurrent_steps (num_steps grid) in
  let barrier_ref := pipeline_barrier grid in_specs max_concurrent_steps in
  let in_brefs := in_operands grid in_specs max_concurrent_steps gmem_refs in
  let out_brefs := out_operands grid in_specs out_specs max_concurrent_steps gmem_refs in
  ∃ tp tl te carry,
    prologue grid d in_brefs barrier_ref = Some (tt, tp)
    ∧ steady_state grid in_specs d in_brefs out_brefs barrier_ref = Some (carry, tl)
    ∧ epilogue grid d out_brefs = Some (tt, te)
    ∧ emit_pipeline grid in_specs out_specs max_concurrent_steps gmem_refs
      = Some (tt, tp ++ tl ++ te)
    ∧ length out_brefs = length out_specs
    ∧ (num_steps grid - 1) `mod` d = (num_steps grid - 1) `mod` max_concurrent_steps
    ∧ ∀ bref, bref ∈ out_brefs → BufferedRef.is_index_invariant bref = true →
        List.filter (is_store_from bref) tp = []
        ∧ List.filter (is_store_from bref) tl = []
        ∧ List.filter (is_store_from bref) te
          = [copy_smem_to_gmem
               (BufferedRef.smem_ref bref, (num_steps grid - 1) `mod` d)
               (BufferedRef.gmem_ref bref,
                gmem_slice (BufferedRef.spec bref) (replicate (length grid) 0))
               None].
Proof.
  intros wf d barrier_ref in_brefs out_brefs.
  destruct (emit_pipeline_run grid max_concurrent_steps in_specs out_specs gmem_refs wf)
    as (Hp & Hl & He & Hrun).
  change (depth grid max_concurrent_steps) with d in *.
  fold barrier_ref in_brefs out_brefs in Hp, Hl, He, Hrun.
  do 4 eexists.
  split; [exact Hp|]. split; [exact Hl|]. split; [exact He|]. split; [exact Hrun|].
  split; [by eapply out_operands_length|].
  split.
  { pose proof (wf_depth_bounds grid max_concurrent_steps in_specs out_specs gmem_refs wf)
      as Hd.
    change (depth grid max_concurrent_steps) with d in Hd.
    destruct (Z.min_spec max_concurrent_steps (num_steps grid)) as [[_ Hm]|[Hle Hm]].
    - fold d in Hm. by rewrite Hm.
    - fold d in Hm. rewrite Hm, !Z.mod_small by lia. done. }
  intros bref Hbref Hinv.
  destruct (operands_names grid d (length in_specs) out_specs
              (drop (length in_specs) gmem_refs)) as [_ Hnodup].
  fold out_brefs in Hnodup.
  split; [by apply filter_prologue_other|]. split.
  - unfold loop_events. induction (range (num_steps grid)) as [|step l IH]; [done|].
    simpl. rewrite List.filter_app, IH, app_nil_r.
    rewrite filter_step_stores by apply is_store_from_store.
    unfold stores_at. rewrite filter_store_from_one; [by rewrite Hinv| |done|done].
    intros b Hne. destruct (BufferedRef.is_index_invariant b); [done|].
    simpl. by rewrite bool_decide_eq_false_2.
  - rewrite filter_epilogue_stores by apply is_store_from_store.
    rewrite filter_store_from_one; [|  |done|done].
    + rewrite Hinv. simpl. by rewrite bool_decide_eq_true_2.
    + intros b Hne. destruct (BufferedRef.is_index_invariant b); [|done].
      simpl. by rewrite bool_decide_eq_false_2.
Qed.

Lemma invariant_output_single_store_witness :
  @wf_pipeline jaxpr_tracing [3] [ex_in] [ex_const] 2 ex_refs
  ∧ ∃ t, @emit_pipeline jaxpr_tracing [3] [ex_in] [ex_const] 2 ex_refs = Some (tt, t)
         ∧ List.filter is_store t
           = [copy_smem_to_gmem (mkRef 1 [2; 8] 0, 0)
                (mkRef 11 [24] 0, [pl.mkSlice 0 8]) None].
Proof.
  split; [exact ex_wf_const|].
  destruct (@invariant_output_single_store jaxpr_tracing [3] [ex_in] [ex_const] 2 ex_refs
              ex_wf_const) as (tp & tl & te & carry & Hp & Hl & He & Hrun & _).
  exists (tp ++ tl ++ te). split; [exact Hrun|].
  vm_compute in Hp, Hl, He.
  injection Hp as <-. injection Hl as _ <-. injection He as <-.
  vm_compute. reflexivity.
Defined.

(** C10: without outputs the loop commits nothing, the epilogue is one
    commit followed by the final wait, and the pipeline stores nothing. *)
Theorem no_output_single_commit `{Tracing} (grid : list Z)
    (in_specs : list BlockSpec) (max_concurrent_steps : Z)
    (gmem_refs : list AbstractMemoryRef) :
  wf_pipeline grid in_specs [] max_concurrent_steps gmem_refs →
  let d := Z.min max_concurrent_steps (num_steps grid) in
  let barrier_ref := pipeline_barrier grid in_specs max_concurrent_steps in
  let in_brefs := in_operands grid in_specs max_concurrent_steps gmem_refs in
  ∃ tp tl carry,
    prologue grid d in_brefs barrier_ref = Some (tt, tp)
    ∧ steady_state grid in_specs d in_brefs [] barrier_ref = Some (carry, tl)
    ∧ epilogue grid d [] = Some (tt, [commit_smem; wait_smem_to_gmem 0])
    ∧ emit_pipeline grid in_specs [] max_concurrent_steps gmem_refs
      = Some (tt, tp ++ tl ++ [commit_smem; wait_smem_to_gmem 0])
    ∧ count is_commit tp = 0%nat
    ∧ count is_commit tl = 0%nat
    ∧ count is_commit (tp ++ tl ++ [commit_smem; wait_smem_to_gmem 0]) = 1%nat
    ∧ count is_store (tp ++ tl ++ [commit_smem; wait_smem_to_gmem 0]) = 0%nat.
Proof.
  intros wf d barrier_ref in_brefs.
  destruct (emit_pipeline_run grid max_concurrent_steps in_specs [] gmem_refs wf)
    as (Hp & Hl & He & Hrun).
  change (depth grid max_concurrent_steps) with d in *.
  change (out_operands grid in_specs [] max_concurrent_steps gmem_refs)
    with (@nil BufferedRef.t) in *.
  fold barrier_ref in_brefs in Hp, Hl, He, Hrun.
  assert (Hcp : count is_commit (prologue_events grid d barrier_ref in_brefs) = 0%nat).
  { unfold count. by rewrite filter_prologue_other. }
  assert (Hsp : count is_store (prologue_events grid d barrier_ref in_brefs) = 0%nat).
  { unfold count. by rewrite filter_prologue_other. }
  assert (Hcl : count is_commit (loop_events grid in_specs d barrier_ref in_brefs [])
                = 0%nat).
  { unfold loop_events. rewrite (count_flat_map _ _ _ 0); [lia|].
    apply Forall_forall. intros step _. unfold count. by rewrite filter_commit_step. }
  assert (Hsl : count is_store (loop_events grid in_specs d barrier_ref in_brefs [])
                = 0%nat).
  { unfold loop_events. rewrite (count_flat_map _ _ _ 0); [lia|].
    apply Forall_forall. intros step _. unfold count. by rewrite filter_store_step. }
  do 3 eexists.
  split; [exact Hp|]. split; [exact Hl|]. split; [exact He|]. split; [exact Hrun|].
  split; [exact Hcp|]. split; [exact Hcl|].
  rewrite !count_app, Hcp, Hcl, Hsp, Hsl. done.
Qed.

Lemma no_output_single_commit_witness :
  @wf_pipeline jaxpr_tracing [3] [ex_in] [] 2 [mkRef 10 [24] 0]
  ∧ ∃ t, @emit_pipeline jaxpr_tracing [3] [ex_in] [] 2 [mkRef 10 [24] 0] = Some (tt, t)
         ∧ count is_commit t = 1%nat ∧ count is_store t = 0%nat.
Proof.
  split; [exact ex_wf_no_output|].
  destruct (@no_output_single_commit jaxpr_tracing [3] [ex_in] 2 [mkRef 10 [24] 0]
              ex_wf_no_output) as (tp & tl & carry & _ & _ & _ & Hrun & _ & _ & Hc & Hs).
  exists (tp ++ tl ++ [commit_smem; wait_smem_to_gmem 0]).
  split; [exact Hrun|]. split; [exact Hc | exact Hs].
Defined.

(** ** The sizes of the slices *)

Lemma compute_gmem_slice_sizes `{Tracing} (bref : BufferedRef.t) (grid_indices : list Z)
    (slices : list pl.Slice) :
  BufferedRef.compute_gmem_slice bref grid_indices = Some slices →
  map pl.size slices = block_shape (BufferedRef.spec bref).
Proof.
  unfold BufferedRef.compute_gmem_slice.
  destruct (safe_zip _ _) as [ps|] eqn:Hz; simpl; [|done].
  intros [= <-]. apply safe_zip_inv in Hz as [Hlen ->].
  revert Hlen. generalize (block_shape (BufferedRef.spec bref)) as shape.
  generalize (index_map (BufferedRef.spec bref) grid_indices) as idxs.
  induction idxs as [|idx idxs IH]; intros [|size0 shape] Hlen; simpl in *; try done.
  by rewrite IH by lia.
Qed.

(** Slices of the same sizes are equal exactly when their starts are. *)
Lemma same_sizes_starts (r1 r2 : list pl.Slice) :
  map pl.size r1 = map pl.size r2 →
  bool_decide (map to_Slice r1 = map to_Slice r2)
  = bool_decide (map pl.start r1 = map pl.start r2).
Proof.
  intros Hsizes. apply bool_decide_ext. revert r2 Hsizes.
  induction r1 as [|[s1 z1] r1 IH]; intros [|[s2 z2] r2] Hsizes; simpl in *; try done.
  injection Hsizes as -> Hsizes. specialize (IH r2 Hsizes). unfold to_Slice at 1 2. simpl.
  split; intros [= -> Hrest]; f_equal; by apply IH.
Qed.

(** C9: the sizes of the slices that [compute_gmem_slice] returns are the
    block shape, at every step of every output of the pipeline; so at every
    step after the first the predicate of a store is: the starts of the
    slices differ from those of the step before, or the step is the last. *)
Theorem store_slices_sizes `{Tracing} (grid : list Z)
    (in_specs out_specs : list BlockSpec) (max_concurrent_steps : Z)
    (gmem_refs : list AbstractMemoryRef) :
  wf_pipeline grid in_specs out_specs max_concurrent_steps gmem_refs →
  let d := Z.min max_concurrent_steps (num_steps grid) in
  let barrier_ref := pipeline_barrier grid in_specs max_concurrent_steps in
  let in_brefs := in_operands grid in_specs max_concurrent_steps gmem_refs in
  let out_brefs := out_operands grid in_specs out_specs max_concurrent_steps gmem_refs in
  (∀ bref grid_indices slices,
     BufferedRef.compute_gmem_slice bref grid_indices = Some slices →
     map pl.size slices = block_shape (BufferedRef.spec bref))
  ∧ (∀ bref step, bref ∈ out_brefs →
       BufferedRef.compute_gmem_slice bref (unravel grid step)
       = Some (region grid bref step)
       ∧ map pl.size (region grid bref step) = block_shape (BufferedRef.spec bref))
  ∧ (∃ carry,
       steady_state grid in_specs d in_brefs out_brefs barrier_ref
       = Some (carry,
               flat_map (step_events grid in_specs d barrier_ref in_brefs out_brefs)
                 (range (num_steps grid))))
  ∧ (∀ step, 0 < step →
       List.filter is_store
         (step_events grid in_specs d barrier_ref in_brefs out_brefs step)
       = map (λ bref,
                copy_smem_to_gmem (BufferedRef.smem_ref bref, step `mod` d)
                  (BufferedRef.gmem_ref bref, region grid bref step)
                  (Some (negb (bool_decide
                                 (map pl.start (region grid bref (step - 1))
                                  = map pl.start (region grid bref step)))
                         || (step =? num_steps grid - 1))))
           (List.filter (λ bref, negb (BufferedRef.is_index_invariant bref)) out_brefs)).
Proof.
  intros wf d barrier_ref in_brefs out_brefs.
  destruct (emit_pipeline_run grid max_concurrent_steps in_specs out_specs gmem_refs wf)
    as (_ & Hl & _).
  pose proof (wf_out_operands grid max_concurrent_steps in_specs out_specs gmem_refs wf)
    as Hout.
  change (depth grid max_concurrent_steps) with d in *.
  fold barrier_ref in_brefs out_brefs in Hl, Hout.
  assert (Hregion : ∀ bref step, bref ∈ out_brefs →
            BufferedRef.compute_gmem_slice bref (unravel grid step)
            = Some (region grid bref step)
            ∧ map pl.size (region grid bref step) = block_shape (BufferedRef.spec bref)).
  { intros bref step Hbref.
    destruct (proj1 (Forall_forall _ _) Hout bref Hbref) as [Hwf _].
    assert (Hc : BufferedRef.compute_gmem_slice bref (unravel grid step)
                 = Some (region grid bref step))
      by (apply compute_gmem_slice_wf; by rewrite unravel_length).
    split; [exact Hc|]. by eapply compute_gmem_slice_sizes. }
  split; [apply compute_gmem_slice_sizes|].
  split; [exact Hregion|].
  split; [eexists; exact Hl|].
  intros step Hstep. rewrite filter_store_step, stores_at_filter.
  apply map_ext_Forall'. apply Forall_forall. intros bref Hbref.
  apply list_elem_of_In, List.filter_In in Hbref as [Hbref _].
  apply list_elem_of_In in Hbref.
  unfold store_at, store_predicate, record_before.
  destruct (Z.eqb_spec step 0) as [?|_]; [lia|].
  rewrite same_sizes_starts; [done|].
  destruct (Hregion bref step Hbref) as [_ ->].
  by destruct (Hregion bref (step - 1) Hbref) as [_ ->].
Qed.

Lemma store_slices_sizes_witness :
  @wf_pipeline jaxpr_tracing [3] [ex_in] [ex_half] 2 ex_refs
  ∧ ∀ grid_indices slices,
      BufferedRef.compute_gmem_slice
        (BufferedRef.mk ex_half [3] (mkRef 11 [24] 0) (mkRef 1 [2; 8] 0)) grid_indices
      = Some slices →
      map pl.size slices = [8].
Proof.
  split; [exact ex_wf_half|].
  exact (proj1 (@store_slices_sizes jaxpr_tracing [3] [ex_in] [ex_half] 2 ex_refs
                  ex_wf_half)
           (BufferedRef.mk ex_half [3] (mkRef 11 [24] 0) (mkRef 1 [2; 8] 0))).
Defined.

(** ** The number of slots *)

(** C7: [emit_pipeline] builds the pipeline with [min(max_concurrent_steps,
    num_steps)] slots; asked for more slots than there are steps, it
    returns the pipeline it returns when asked for [num_steps] slots. *)
Theorem clamping_transparent `{Tracing} (grid : list Z)
    (in_specs out_specs : list BlockSpec) (max_concurrent_steps : Z) :
  num_steps grid < max_concurrent_steps →
  emit_pipeline grid in_specs out_specs max_concurrent_steps
  = emit_pipeline grid in_specs out_specs (num_steps grid)
  ∧ ∀ m, emit_pipeline grid in_specs out_specs m
         = pipeline grid in_specs out_specs (Z.min m (num_steps grid)).
Proof.
  intros Hgt. split.
  - unfold emit_pipeline. cbv zeta.
    destruct (Z.gtb_spec max_concurrent_steps (num_steps grid)) as [_|?]; [|lia].
    destruct (Z.gtb_spec (num_steps grid) (num_steps grid)) as [?|_]; [lia|done].
  - intros m. unfold emit_pipeline. cbv zeta. by rewrite clamp_depth.
Qed.

Lemma clamping_transparent_witness :
  num_steps [3] < 5
  ∧ @emit_pipeline jaxpr_tracing [3] [ex_in] [ex_half] 5
    = @emit_pipeline jaxpr_tracing [3] [ex_in] [ex_half] (num_steps [3]).
Proof.
  assert (Hlt : num_steps [3] < 5) by reflexivity.
  split; [exact Hlt|].
  exact (proj1 (@clamping_transparent jaxpr_tracing [3] [ex_in] [ex_half] 5 Hlt)).
Defined.

(** ** Index invariance *)

Lemma existsb_lookup (used : list bool) :
  existsb id used = true ↔ ∃ k, used !! k = Some true.
Proof.
  rewrite existsb_exists. split.
  - intros (b & Hin & Hb). unfold id in Hb. subst b.
    apply list_elem_of_In, list_elem_of_lookup in Hin. done.
  - intros (k & Hk). exists true. split; [|done].
    apply list_elem_of_In, list_elem_of_lookup. eauto.
Qed.

(** An index map that no single axis changes is constant. *)
Lemma constant_by_axes (f : list Z → list Z) (n : nat) :
  (∀ k, (k < n)%nat → ¬ depends_on_axis f n k) →
  ∀ i1 i2, length i1 = n → length i2 = n → f i1 = f i2.
Proof.
  intros Hno i1 i2 H1 H2.
  assert (Hstep : ∀ m, (m ≤ n)%nat → f (take m i2 ++ drop m i1) = f i1).
  { induction m as [|m IH]; intros Hm.
    - by rewrite take_0, drop_0.
    - rewrite <- IH by lia.
      destruct (lookup_lt_is_Some_2 i2 m) as [v Hv]; [lia|].
      destruct (lookup_lt_is_Some_2 i1 m) as [y Hy]; [lia|].
      rewrite (take_S_r _ _ _ Hv), (drop_S _ _ _ Hy), <- app_assoc. simpl.
      destruct (decide (f (take m i2 ++ v :: drop (S m) i1)
                        = f (take m i2 ++ y :: drop (S m) i1))) as [Heq|Hne]; [done|].
      exfalso. apply (Hno m); [lia|].
      exists (take m i2 ++ y :: drop (S m) i1), v. split.
      + rewrite length_app, length_take. simpl. rewrite length_drop. lia.
      + rewrite insert_app_r_alt by (rewrite length_take; lia).
        rewrite length_take. replace (m - m `min` length i2)%nat with 0%nat by lia.
        done. }
  specialize (Hstep n (le_n n)).
  rewrite take_ge, drop_ge, app_nil_r in Hstep by lia. done.
Qed.

(** With every output in use, dead-code elimination keeps every output. *)
Lemma used_outputs_all (outs : list jexpr) :
  map fst (List.filter snd (zip outs (replicate (length outs) true))) = outs.
Proof. induction outs as [|e outs IH]; simpl; [done|]. by rewrite IH. Qed.

(** The analysis of an index map in symbolic form: an axis is in use
    when an expression of the index map mentions its index. *)
Lemma uses_arguments_symbolic (index_map : @Callable jaxpr_tracing) (grid : list Z) :
  _uses_arguments index_map grid
  = map (mentions_axis index_map) (seq 0 (length grid)).
Proof.
  unfold _uses_arguments. simpl. unfold dce. simpl.
  by rewrite length_seq, used_outputs_all.
Qed.

Lemma eval_not_mentioned (e : jexpr) (k : nat) (v : Z) (args : list Z) :
  mentions k e = false → eval (<[k := v]> args) e = eval args e.
Proof.
  induction e as [j|z|a IHa b IHb|a IHa b IHb|a IHa b IHb|a IHa b|a IHa b];
    simpl; intros Hm.
  - apply bool_decide_eq_false in Hm. by rewrite list_lookup_insert_ne by done.
  - done.
  - apply orb_false_iff in Hm as [Ha Hb]. by rewrite IHa, IHb.
  - apply orb_false_iff in Hm as [Ha Hb]. by rewrite IHa, IHb.
  - apply orb_false_iff in Hm as [Ha Hb]. by rewrite IHa, IHb.
  - by rewrite IHa.
  - by rewrite IHa.
Qed.

(** An index map that depends on an axis mentions its index. *)
Lemma depends_mentions (index_map : @Callable jaxpr_tracing) (n k : nat) :
  depends_on_axis index_map n k → mentions_axis index_map k = true.
Proof.
  intros (grid_indices & v & _ & Hne).
  destruct (mentions_axis index_map k) eqn:Hm; [done|]. exfalso. apply Hne.
  unfold mentions_axis in Hm. simpl. apply map_ext_Forall'. apply Forall_forall.
  intros e He. apply eval_not_mentioned.
  destruct (mentions k e) eqn:Hk; [|done].
  assert (existsb (mentions k) index_map = true); [|congruence].
  apply existsb_exists. exists e. split; [by apply list_elem_of_In|done].
Qed.

Lemma index_invariant_symbolic (bref : @BufferedRef.t jaxpr_tracing) :
  BufferedRef.is_index_invariant bref = true
  ↔ ∀ k, (k < length (BufferedRef.grid bref))%nat →
         mentions_axis (index_map (BufferedRef.spec bref)) k = false.
Proof.
  unfold BufferedRef.is_index_invariant. rewrite uses_arguments_symbolic.
  rewrite negb_true_iff, <- not_true_iff_false, existsb_lookup. split.
  - intros Hno k Hk. apply not_true_iff_false. intros Hm. apply Hno. exists k.
    change (map ?f ?l) with (f <$> l). rewrite list_lookup_fmap.
    rewrite lookup_seq_lt by done. simpl. by rewrite Hm.
  - intros Hno (k & Hk). change (map ?f ?l) with (f <$> l) in Hk.
    rewrite list_lookup_fmap in Hk.
    destruct (seq 0 (length (BufferedRef.grid bref)) !! k) as [j|] eqn:Hj; [|done].
    apply lookup_seq in Hj as [-> Hlt]. simpl in Hk. injection Hk as Hk.
    rewrite Hno in Hk by done. done.
Qed.

(** C6 (counterexample): the index map [lambda i: (i * 0,)] is constant
    in the axis of the grid: it depends on no axis.  The analysis finds
    the index of the axis in its expression and the operand is not
    index-invariant. *)
Lemma index_invariant_times_zero :
  (∀ i1 i2, index_map ex_times_zero i1 = index_map ex_times_zero i2)
  ∧ (∀ k, ¬ depends_on_axis (index_map ex_times_zero) (length [3]) k)
  ∧ @BufferedRef.is_index_invariant jaxpr_tracing
      (BufferedRef.mk ex_times_zero [3] (mkRef 11 [24] 0) (mkRef 1 [2; 8] 0)) = false.
Proof.
  assert (Hconst : ∀ i, index_map ex_times_zero i = [0]).
  { intros i. simpl. by rewrite Z.mul_0_r. }
  split; [intros i1 i2; by rewrite !Hconst|].
  split; [|reflexivity].
  intros k (grid_indices & v & _ & Hne). apply Hne. by rewrite !Hconst.
Qed.

(** C6: on index maps in symbolic form, an operand is index-invariant
    exactly when no expression of its index map mentions the index of an
    axis of the grid.  The index map of an index-invariant operand depends
    on no axis: it is constant on the indices of the grid.  An operand
    whose index map depends on some axis is not index-invariant. *)
Theorem index_invariant_syntactic (bref : @BufferedRef.t jaxpr_tracing) :
  let n := length (BufferedRef.grid bref) in
  let f := index_map (BufferedRef.spec bref) in
  (BufferedRef.is_index_invariant bref = true
   ↔ ∀ k, (k < n)%nat → mentions_axis f k = false)
  ∧ (BufferedRef.is_index_invariant bref = true →
     (∀ k, (k < n)%nat → ¬ depends_on_axis f n k)
     ∧ ∀ i1 i2, length i1 = n → length i2 = n → f i1 = f i2)
  ∧ ((∃ k, (k < n)%nat ∧ depends_on_axis f n k) →
     BufferedRef.is_index_invariant bref = false).
Proof.
  intros n f. split; [apply index_invariant_symbolic|].
  assert (Hno : BufferedRef.is_index_invariant bref = true →
                ∀ k, (k < n)%nat → ¬ depends_on_axis f n k).
  { intros Hinv k Hk Hdep. apply depends_mentions in Hdep.
    pose proof (proj1 (index_invariant_symbolic bref) Hinv k Hk) as Hm.
    fold f in Hm. congruence. }
  split.
  - intros Hinv. split; [by apply Hno|]. apply constant_by_axes. by apply Hno.
  - intros (k & Hk & Hdep). apply not_true_iff_false. intros Hinv.
    by apply (Hno Hinv k Hk).
Qed.

Lemma index_invariant_syntactic_witness :
  @BufferedRef.is_index_invariant jaxpr_tracing
    (BufferedRef.mk ex_const [3] (mkRef 11 [24] 0) (mkRef 1 [2; 8] 0)) = true
  ∧ (∀ i1 i2, length i1 = 1%nat → length i2 = 1%nat →
       index_map ex_const i1 = index_map ex_const i2)
  ∧ @BufferedRef.is_index_invariant jaxpr_tracing
      (BufferedRef.mk ex_half [3] (mkRef 11 [24] 0) (mkRef 1 [2; 8] 0)) = false.
Proof.
  destruct (index_invariant_syntactic
              (BufferedRef.mk ex_const [3] (mkRef 11 [24] 0) (mkRef 1 [2; 8] 0)))
    as (Hiff & Hconst & _).
  destruct (index_invariant_syntactic
              (BufferedRef.mk ex_half [3] (mkRef 11 [24] 0) (mkRef 1 [2; 8] 0)))
    as (_ & _ & Hdep).
  assert (Hinv : @BufferedRef.is_index_invariant jaxpr_tracing
                   (BufferedRef.mk ex_const [3] (mkRef 11 [24] 0) (mkRef 1 [2; 8] 0))
                 = true).
  { apply Hiff. intros k _. reflexivity. }
  split; [exact Hinv|]. split; [exact (proj2 (Hconst Hinv))|].
  apply Hdep. exists 0%nat. split; [simpl; lia|].
  exists [0], 2. split; [reflexivity|]. simpl. discriminate.
Defined.

Lemma ex_const_analysis :
  @analysis_exact jaxpr_tracing (index_map ex_const) [3].
Proof.
  split; [reflexivity|]. intros k Hk. simpl in Hk.
  assert (k = 0%nat) as -> by lia. split.
  - intros Hused. vm_compute in Hused. discriminate Hused.
  - intros (grid_indices & v & _ & Hne). by destruct Hne.
Qed.

(** C8: for every step below [min(depth, num_steps)] the prologue loads
    every input into the slot of the step's number, from the region at the
    indices of the step.  These indices are the element of that number of
    [itertools.product] over the ranges of the axes, they are what
    [_inc_grid] returns from the all-zero indices after that many steps,
    and their position in the row-major order of the grid, where the last
    axis varies fastest, is the number of the step. *)
Theorem prologue_loads `{Tracing} (grid : list Z)
    (in_specs out_specs : list BlockSpec) (max_concurrent_steps : Z)
    (gmem_refs : list AbstractMemoryRef) :
  wf_pipeline grid in_specs out_specs max_concurrent_steps gmem_refs →
  let d := Z.min max_concurrent_steps (num_steps grid) in
  let barrier_ref := pipeline_barrier grid in_specs max_concurrent_steps in
  let in_brefs := in_operands grid in_specs max_concurrent_steps gmem_refs in
  prologue grid d in_brefs barrier_ref
  = Some (tt,
          flat_map
            (λ step,
               map (λ bref,
                      copy_gmem_to_smem
                        (BufferedRef.gmem_ref bref,
                         gmem_slice (BufferedRef.spec bref) (unravel grid step))
                        (BufferedRef.smem_ref bref, step) (barrier_ref, step))
                 in_brefs)
            (range d))
  ∧ length in_brefs = length in_specs
  ∧ ∀ step, 0 ≤ step < d →
      product (map range grid) !! Z.to_nat step = Some (unravel grid step)
      ∧ _inc_grid (replicate (length grid) 0) grid step = Some (unravel grid step)
      ∧ in_grid (unravel grid step) grid
      ∧ ravel (unravel grid step) grid = step.
Proof.
  intros wf d barrier_ref in_brefs.
  destruct (emit_pipeline_run grid max_concurrent_steps in_specs out_specs gmem_refs wf)
    as (Hp & _).
  pose proof (wf_depth_bounds grid max_concurrent_steps in_specs out_specs gmem_refs wf)
    as Hd.
  pose proof (wf_grid _ _ _ _ _ wf) as Hgrid.
  change (depth grid max_concurrent_steps) with d in *.
  split; [exact Hp|].
  split; [by eapply in_operands_length|].
  intros step Hstep. repeat split.
  - rewrite product_ranges by done.
    change (map (unravel grid) (range (prod grid)))
      with (unravel grid <$> range (prod grid)).
    rewrite list_lookup_fmap. unfold range.
    rewrite lookup_seqZ_lt by (unfold num_steps in Hd; lia).
    simpl. f_equal. f_equal. lia.
  - pose proof (wf_steps _ _ _ _ _ wf) as Hsteps.
    rewrite <- unravel_0. rewrite inc_grid_unravel; [done | done | apply wf | lia |].
    rewrite unravel_0. apply Forall_replicate. lia.
  - by apply unravel_in_grid.
  - rewrite ravel_unravel by done. apply Z.mod_small. unfold num_steps in Hd. lia.
Qed.

Lemma prologue_loads_witness :
  @wf_pipeline jaxpr_tracing [3] [ex_in] [ex_half] 2 ex_refs
  ∧ prologue [3] 2
      (in_operands [3] [ex_in] 2 ex_refs) (pipeline_barrier [3] [ex_in] 2)
    = Some (tt,
            [copy_gmem_to_smem (mkRef 10 [24] 0, [pl.mkSlice 0 8])
               (mkRef 0 [2; 8] 0, 0) (mkBarrier 1 2, 0);
             copy_gmem_to_smem (mkRef 10 [24] 0, [pl.mkSlice 8 8])
               (mkRef 0 [2; 8] 0, 1) (mkBarrier 1 2, 1)]).
Proof.
  split; [exact ex_wf_half|].
  exact (proj1 (@prologue_loads jaxpr_tracing [3] [ex_in] [ex_half] 2 ex_refs ex_wf_half)).
Defined.

Lemma inbound_transfers_total_witness :
  @wf_pipeline jaxpr_tracing [3] [ex_in] [ex_half] 2 ex_refs
  ∧ num_steps [3] + Z.min 2 (num_steps [3]) ≤ 2 ^ 31
  ∧ ∃ t, @emit_pipeline jaxpr_tracing [3] [ex_in] [ex_half] 2 ex_refs = Some (tt, t)
         ∧ Z.of_nat (count is_load t) = 3 * 1.
Proof.
  assert (Hfit : num_steps [3] + Z.min 2 (num_steps [3]) ≤ 2 ^ 31)
    by (vm_compute; discriminate).
  split; [exact ex_wf_half|]. split; [exact Hfit|].
  destruct (@inbound_transfers_total jaxpr_tracing [3] [ex_in] [ex_half] 2 ex_refs
              ex_wf_half Hfit)
    as (tp & tl & te & carry & _ & _ & _ & Hrun & _ & _ & _ & _ & _ & Htotal).
  exists (tp ++ tl ++ te). split; [exact Hrun | exact Htotal].
Defined.

(** * Further properties of the code *)

(** ** The grid counter *)

Lemma safe_zip_None {A B : Type} (xs : list A) (ys : list B) :
  length xs ≠ length ys → safe_zip xs ys = None.
Proof.
  revert ys. induction xs as [|x xs IH]; intros [|y ys] Hlen; simpl in *; try done.
  rewrite IH by lia. done.
Qed.

(** What the loop of [_inc_grid] returns: an error when the number of
    steps meets an index without fitting in 32 bits, or when twice the
    size of an axis does not fit; one index per axis otherwise. *)
Lemma inc_pairs_cases (ps : list (Z * Z)) (by_ : Z) :
  match inc_pairs ps by_ with
  | None =>
      (ps ≠ [] ∧ ¬ (- 2 ^ 31 ≤ by_ < 2 ^ 31))
      ∨ Exists (λ size, ¬ (- 2 ^ 31 ≤ 2 * size < 2 ^ 31)) ps.*2
  | Some st =>
      length st.1 = length ps
      ∧ (ps ≠ [] → - 2 ^ 31 ≤ by_ < 2 ^ 31)
      ∧ (ps = [] → st.2 = by_)
      ∧ (ps ≠ [] → - 2 ^ 31 ≤ st.2 < 2 ^ 31)
      ∧ Forall (λ size, - 2 ^ 31 ≤ 2 * size < 2 ^ 31) ps.*2
  end.
Proof.
  induction ps as [|p ps IH]; simpl.
  - repeat split; (done || constructor).
  - destruct (inc_pairs ps by_) as [[rest carry]|]; cbn [mbind option_bind].
    + destruct IH as (Hlen & Hby & Hnil & Hcarry & Hsizes). simpl in *.
      destruct (inc_axis p.1 p.2 carry) as [[new_idx carry']|] eqn:Hax;
        cbn [mbind option_bind].
      * assert (Hok : (- 2 ^ 31 ≤ carry < 2 ^ 31) ∧ (- 2 ^ 31 ≤ 2 * p.2 < 2 ^ 31)).
        { destruct (decide (- 2 ^ 31 ≤ carry < 2 ^ 31)) as [Hc|Hc];
            [|assert (inc_axis p.1 p.2 carry = None) by (apply inc_axis_None; by left);
              congruence].
          destruct (decide (- 2 ^ 31 ≤ 2 * p.2 < 2 ^ 31)) as [Hs|Hs];
            [done|assert (inc_axis p.1 p.2 carry = None)
                    by (apply inc_axis_None; by right); congruence]. }
        destruct Hok as [Hc Hs]. simpl. split; [by rewrite Hlen|]. split.
        { intros _. destruct ps as [|q ps]; [by rewrite <- Hnil|by apply Hby]. }
        split; [done|]. split; [intros _; by eapply inc_axis_carry|].
        by constructor.
      * apply inc_axis_None in Hax as [Hc|Hs].
        -- left. split; [done|]. destruct ps as [|q ps]; [by rewrite <- Hnil|].
           exfalso. by apply Hc, Hcarry.
        -- right. by apply Exists_cons_hd.
    + destruct IH as [[Hne Hby]|Hex]; [by left|right; by apply Exists_cons_tl].
Qed.

(** X1: on int32 indices, [_inc_grid] is an error exactly when there are
    not as many indices as axes, when the grid has an axis and the number
    of steps does not fit in 32 bits, or when twice the size of an axis
    does not fit in 32 bits; otherwise it returns one index per axis. *)
Theorem inc_grid_error (indices grid : list Z) (by_ : Z) :
  (_inc_grid indices grid by_ = None
   ↔ length indices ≠ length grid
     ∨ (grid ≠ [] ∧ ¬ (- 2 ^ 31 ≤ by_ < 2 ^ 31))
     ∨ Exists (λ size, ¬ (- 2 ^ 31 ≤ 2 * size < 2 ^ 31)) grid)
  ∧ ∀ new_indices, _inc_grid indices grid by_ = Some new_indices →
      length new_indices = length grid.
Proof.
  rewrite inc_grid_pairs.
  destruct (decide (length indices = length grid)) as [Hlen|Hlen].
  - rewrite safe_zip_Some by done. cbn [mbind option_bind].
    pose proof (inc_pairs_cases (zip indices grid) by_) as Hcases.
    rewrite snd_zip in Hcases by lia.
    assert (Hnil : zip indices grid ≠ [] ↔ grid ≠ []).
    { destruct indices, grid; simpl in *; done. }
    destruct (inc_pairs (zip indices grid) by_) as [st|]; cbn [mbind option_bind].
    + destruct Hcases as (Hl & Hby & _ & _ & Hsizes). split.
      * split; [done|]. intros [?|[[Hne Hb]|Hex]]; [done| |].
        -- exfalso. by apply Hb, Hby, Hnil.
        -- exfalso. apply Exists_exists in Hex as (size & Hin & Hbad).
           by apply Hbad, (proj1 (Forall_forall _ _) Hsizes).
      * intros new_indices [= <-]. rewrite Hl, length_zip_with. lia.
    + split; [|done]. split; [|done]. intros _. right.
      destruct Hcases as [[Hne Hb]|Hex]; [left|by right].
      split; [by apply Hnil|done].
  - rewrite safe_zip_None by done. simpl. split; [|done]. split; [by left|done].
Qed.

(** X2: on indices within a grid whose sizes, doubled, fit in 32 bits,
    no step leaves the indices where they are, and so does any number of
    whole rounds of the grid that, added to an index, stays below
    [2 ^ 31]. *)
Theorem inc_grid_rounds (indices grid : list Z) (rounds : Z) :
  in_grid indices grid → 0 ≤ rounds →
  Forall (λ size, 2 * size < 2 ^ 31) grid →
  Forall (λ idx, idx + rounds * prod grid < 2 ^ 31) indices →
  _inc_grid indices grid 0 = Some indices
  ∧ _inc_grid indices grid (rounds * prod grid) = Some indices.
Proof.
  intros Hin Hr Hsz Hfit. pose proof (in_grid_pos _ _ Hin) as Hpos.
  pose proof (prod_pos _ Hpos) as HP. split.
  - rewrite inc_grid_ravel; [by rewrite Z.add_0_r, unravel_ravel|done|done|lia|].
    eapply in_grid_fits; [exact Hin|].
    eapply Forall_impl; [exact Hsz|]. simpl. intros; lia.
  - rewrite inc_grid_ravel; [|done|done|nia|done].
    by rewrite unravel_periodic, unravel_ravel.
Qed.

Lemma inc_grid_rounds_witness :
  in_grid [1; 2] [2; 3] ∧ 0 ≤ 4
  ∧ Forall (λ size, 2 * size < 2 ^ 31) [2; 3]
  ∧ Forall (λ idx, idx + 4 * prod [2; 3] < 2 ^ 31) [1; 2]
  ∧ _inc_grid [1; 2] [2; 3] 0 = Some [1; 2]
  ∧ _inc_grid [1; 2] [2; 3] (4 * prod [2; 3]) = Some [1; 2].
Proof.
  assert (Hin : in_grid [1; 2] [2; 3]) by (repeat constructor; lia).
  assert (Hsz : Forall (λ size, 2 * size < 2 ^ 31) [2; 3]) by (repeat constructor; lia).
  assert (Hfit : Forall (λ idx, idx + 4 * prod [2; 3] < 2 ^ 31) [1; 2])
    by (repeat constructor).
  split; [exact Hin|]. split; [lia|]. split; [exact Hsz|]. split; [exact Hfit|].
  apply (inc_grid_rounds [1; 2] [2; 3] 4); [exact Hin | lia | exact Hsz | exact Hfit].
Defined.

(** An axis whose index plus the carry stays below its size. *)
Lemma inc_axis_stay (idx size carry : Z) :
  - 2 ^ 31 ≤ carry < 2 ^ 31 → 0 < size → 2 * size < 2 ^ 31 →
  - 2 ^ 31 ≤ idx + carry < size →
  inc_axis idx size carry = Some (idx + carry, 0).
Proof.
  intros Hc Hs H2 Hlt. unfold inc_axis.
  rewrite (int32_fits carry) by lia. cbn [mbind option_bind].
  rewrite (int32_fits (2 * size)) by lia. cbn [mbind option_bind].
  rewrite wrap32_small by lia.
  destruct (Z.ltb_spec (idx + carry) (2 * size)); [|lia].
  destruct (Z.ltb_spec (idx + carry) size); [done|lia].
Qed.

Lemma inc_pairs_last (ps : list (Z * Z)) (idx size by_ : Z) :
  Forall (λ p : Z * Z, - 2 ^ 31 ≤ p.1 < p.2 ∧ 0 < p.2 ∧ 2 * p.2 < 2 ^ 31) ps →
  0 < size → 2 * size < 2 ^ 31 → - 2 ^ 31 ≤ by_ < 2 ^ 31 →
  - 2 ^ 31 ≤ idx + by_ < size →
  inc_pairs (ps ++ [(idx, size)]) by_ = Some (map fst ps ++ [idx + by_], 0).
Proof.
  intros Hps Hs H2 Hby Hlt. induction Hps as [|[i s] ps (Hi & Hp & Hp2) _ IH]; simpl in *.
  - by rewrite inc_axis_stay.
  - rewrite IH. cbn [mbind option_bind]. rewrite inc_axis_stay by lia.
    cbn [mbind option_bind]. by rewrite Z.add_0_r.
Qed.

(** X3: on int32 indices and axes whose sizes, doubled, fit in 32 bits,
    when the last index plus the number of steps is an int32 value below
    the size of the last axis, only the last index moves.  This holds for
    a negative number of steps too: the counter never borrows from a
    slower axis, and a step back from an index 0 leaves a negative index. *)
Theorem inc_grid_last_axis (front gfront : list Z) (idx size by_ : Z) :
  Forall2 (λ i s, - 2 ^ 31 ≤ i < s ∧ 0 < s ∧ 2 * s < 2 ^ 31) front gfront →
  0 < size → 2 * size < 2 ^ 31 → - 2 ^ 31 ≤ by_ < 2 ^ 31 →
  - 2 ^ 31 ≤ idx + by_ < size →
  _inc_grid (front ++ [idx]) (gfront ++ [size]) by_ = Some (front ++ [idx + by_]).
Proof.
  intros Hfront Hs H2 Hby Hlt. pose proof (Forall2_length _ _ _ Hfront) as Hlen.
  rewrite inc_grid_pairs.
  rewrite safe_zip_Some by (rewrite !length_app; simpl; lia). cbn [mbind option_bind].
  rewrite zip_with_app by done. simpl.
  rewrite inc_pairs_last; [| |done|done|done|done].
  - cbn [mbind option_bind]. simpl. do 2 f_equal. clear Hlen.
    induction Hfront as [|i s front gfront _ _ IH]; simpl; [done|]. by rewrite IH.
  - clear Hlen. induction Hfront as [|i s front gfront Hi _ IH]; simpl; by constructor.
Qed.

Lemma inc_grid_last_axis_witness :
  Forall2 (λ i s, - 2 ^ 31 ≤ i < s ∧ 0 < s ∧ 2 * s < 2 ^ 31) [1] [2]
  ∧ 0 < 3 ∧ 2 * 3 < 2 ^ 31 ∧ - 2 ^ 31 ≤ -1 < 2 ^ 31 ∧ - 2 ^ 31 ≤ 0 + (-1) < 3
  ∧ _inc_grid ([1] ++ [0]) ([2] ++ [3]) (-1) = Some ([1] ++ [0 + (-1)]).
Proof.
  assert (Hfront : Forall2 (λ i s, - 2 ^ 31 ≤ i < s ∧ 0 < s ∧ 2 * s < 2 ^ 31) [1] [2])
    by (repeat constructor; lia).
  split; [exact Hfront|]. split; [lia|]. split; [lia|]. split; [lia|]. split; [lia|].
  apply (inc_grid_last_axis [1] [2] 0 3 (-1)); [exact Hfront | lia | lia | lia | lia].
Defined.

(** ** Slices *)

(** X5: [compute_gmem_slice] succeeds exactly when the index map returns
    as many block coordinates as the block has dimensions; the slice of a
    dimension then starts at the block coordinate times the block size. *)
Theorem compute_gmem_slice_rank `{Tracing} (bref : BufferedRef.t)
    (grid_indices : list Z) :
  (is_Some (BufferedRef.compute_gmem_slice bref grid_indices)
   ↔ length (index_map (BufferedRef.spec bref) grid_indices)
     = length (block_shape (BufferedRef.spec bref)))
  ∧ ∀ slices, BufferedRef.compute_gmem_slice bref grid_indices = Some slices →
      map pl.start slices
      = zip_with Z.mul (index_map (BufferedRef.spec bref) grid_indices)
          (block_shape (BufferedRef.spec bref)).
Proof.
  unfold BufferedRef.compute_gmem_slice.
  generalize (index_map (BufferedRef.spec bref) grid_indices) as idxs.
  generalize (block_shape (BufferedRef.spec bref)) as shape. intros shape idxs.
  destruct (decide (length idxs = length shape)) as [Hlen|Hlen].
  - rewrite safe_zip_Some by done. simpl. split; [split; [done|eauto]|].
    intros slices [= <-]. revert shape Hlen.
    induction idxs as [|idx idxs IH]; intros [|size0 shape] Hlen; simpl in *; try done.
    by rewrite IH by lia.
  - rewrite safe_zip_None by done. simpl. split; [|done].
    split; [by intros [? ?]|done].
Qed.

(** X6: the comparison of the recorded slices with the new ones in
    [loop_body] is an error on empty tuples and on tuples of different
    lengths; otherwise all dimensions are the same exactly when the two
    tuples are equal. *)
Theorem same_slices_reduce (old new : list _Slice) :
  (old = [] ∨ length old ≠ length new →
   safe_map2 _Slice_eq old new ≫= reduce andb = None)
  ∧ (old ≠ [] → length old = length new →
     safe_map2 _Slice_eq old new ≫= reduce andb = Some (bool_decide (old = new))).
Proof.
  split.
  - intros [->|Hlen].
    + by destruct new.
    + unfold safe_map2. by rewrite safe_zip_None.
  - intros Hne Hlen.
    destruct (reduce_same_slices old new Hlen Hne) as (same & -> & Hreduce). done.
Qed.

(** ** Errors of the pipeline *)

Lemma bindM_None_r {A B : Type} (m : M A) (k : A → M B) :
  (∀ a, k a = None) → bindM m k = None.
Proof. intros Hk. unfold bindM. destruct m as [[a t]|]; [|done]. by rewrite Hk. Qed.

Lemma pipeline_refs_mismatch `{Tracing} (grid : list Z)
    (in_specs out_specs : list BlockSpec) (d : Z) (gmem_refs : list AbstractMemoryRef) :
  length gmem_refs ≠ (length in_specs + length out_specs)%nat →
  pipeline grid in_specs out_specs d gmem_refs = None.
Proof.
  intros Hlen. unfold pipeline, split_list, safe_map2.
  rewrite safe_zip_None by (rewrite length_app; lia). done.
Qed.

(** With one reference per operand, [pipeline] is the prologue, the loop
    and the epilogue on the operands it builds. *)
Lemma pipeline_phases `{Tracing} (grid : list Z)
    (in_specs out_specs : list BlockSpec) (d : Z) (gmem_refs : list AbstractMemoryRef) :
  length gmem_refs = (length in_specs + length out_specs)%nat →
  let barrier_ref := mkBarrier (Z.of_nat (length in_specs)) d in
  let in_brefs := operands grid d 0 in_specs (take (length in_specs) gmem_refs) in
  let out_brefs :=
    operands grid d (length in_specs) out_specs (drop (length in_specs) gmem_refs) in
  pipeline grid in_specs out_specs d gmem_refs
  = (prologue grid d in_brefs barrier_ref;;
     steady_state grid in_specs d in_brefs out_brefs barrier_ref;;
     epilogue grid d out_brefs).
Proof.
  intros Hlen barrier_ref in_brefs out_brefs.
  unfold pipeline, split_list, safe_map2.
  rewrite safe_zip_Some by (rewrite length_app; lia). cbn [mbind option_bind].
  rewrite bindM_lift. unfold run_scoped, scoped_pipeline.
  set (n := length in_specs) in *.
  assert (Hzip : zip (in_specs ++ out_specs) gmem_refs
                 = zip in_specs (take n gmem_refs) ++ zip out_specs (drop n gmem_refs)).
  { rewrite <- (take_drop n gmem_refs) at 1. apply zip_with_app.
    rewrite length_take. lia. }
  rewrite Hzip, map_app.
  assert (Hn : length (map (λ p : BlockSpec * AbstractMemoryRef,
                              mkSMEM (d :: block_shape p.1) (ref_dtype p.2))
                         (zip in_specs (take n gmem_refs))) = n).
  { rewrite length_map, length_zip_with, length_take. lia. }
  rewrite take_app_length' by (symmetry; exact Hn).
  rewrite drop_app_length' by (symmetry; exact Hn).
  rewrite Hn.
  rewrite make_brefs_operands by (rewrite length_take; lia).
  rewrite bindM_lift.
  rewrite make_brefs_operands by (rewrite length_drop; lia).
  rewrite bindM_lift. done.
Qed.

Lemma prologue_negative `{Tracing} (grid : list Z) (d : Z) (in_brefs : list BufferedRef.t)
    (barrier_ref : Barrier) :
  d < 0 → prologue grid d in_brefs barrier_ref = None.
Proof.
  intros Hd. unfold prologue, islice.
  destruct (Z.ltb_spec d 0); [done|lia].
Qed.

Lemma epilogue_no_slot `{Tracing} (grid : list Z) (out_brefs : list BufferedRef.t) :
  epilogue grid 0 out_brefs = None.
Proof. unfold epilogue. apply bindM_None_r. intros _. done. Qed.

(** X7: a pipeline without a slot is an error, whether no slot was asked
    for or the grid has no step: [islice] refuses a negative number of
    steps and the slot of the epilogue is a modulo by zero. *)
Theorem pipeline_without_slot `{Tracing} (grid : list Z)
    (in_specs out_specs : list BlockSpec) (max_concurrent_steps : Z)
    (gmem_refs : list AbstractMemoryRef) :
  max_concurrent_steps ≤ 0 ∨ num_steps grid ≤ 0 →
  emit_pipeline grid in_specs out_specs max_concurrent_steps gmem_refs = None.
Proof.
  intros Hd. unfold emit_pipeline. cbv zeta. rewrite clamp_depth.
  assert (Hle : depth grid max_concurrent_steps ≤ 0) by (unfold depth; lia).
  destruct (decide (length gmem_refs = (length in_specs + length out_specs)%nat))
    as [Hlen|Hlen]; [|by apply pipeline_refs_mismatch].
  rewrite pipeline_phases by done.
  destruct (Z_lt_le_dec (depth grid max_concurrent_steps) 0) as [Hneg|Hnn].
  - by rewrite prologue_negative.
  - replace (depth grid max_concurrent_steps) with 0 by lia.
    apply bindM_None_r. intros _. apply bindM_None_r. intros _.
    apply epilogue_no_slot.
Qed.

Lemma pipeline_without_slot_witness :
  (0 ≤ 0 ∨ num_steps [3] ≤ 0)
  ∧ @emit_pipeline jaxpr_tracing [3] [ex_in] [ex_half] 0 ex_refs = None.
Proof.
  assert (Hd : 0 ≤ 0 ∨ num_steps [3] ≤ 0) by (left; lia).
  split; [exact Hd|].
  exact (@pipeline_without_slot jaxpr_tracing [3] [ex_in] [ex_half] 0 ex_refs Hd).
Defined.

(** X8: the function that [emit_pipeline] returns is an error unless it is
    given one reference per input and per output. *)
Theorem pipeline_refs_count `{Tracing} (grid : list Z)
    (in_specs out_specs : list BlockSpec) (max_concurrent_steps : Z)
    (gmem_refs : list AbstractMemoryRef) :
  length gmem_refs ≠ (length in_specs + length out_specs)%nat →
  emit_pipeline grid in_specs out_specs max_concurrent_steps gmem_refs = None.
Proof.
  intros Hlen. unfold emit_pipeline. cbv zeta. by apply pipeline_refs_mismatch.
Qed.

Lemma pipeline_refs_count_witness :
  length [mkRef 10 [24] 0] ≠ (length [ex_in] + length [ex_half])%nat
  ∧ @emit_pipeline jaxpr_tracing [3] [ex_in] [ex_half] 2 [mkRef 10 [24] 0] = None.
Proof.
  assert (Hlen : length [mkRef 10 [24] 0] ≠ (length [ex_in] + length [ex_half])%nat)
    by (simpl; lia).
  split; [exact Hlen|].
  exact (@pipeline_refs_count jaxpr_tracing [3] [ex_in] [ex_half] 2 [mkRef 10 [24] 0] Hlen).
Defined.

Lemma for_each_None {A : Type} (f : A → M unit) (xs : list A) (x : A) :
  x ∈ xs → f x = None → for_each xs f = None.
Proof.
  intros Hin Hx. induction xs as [|y ys IH]; [by apply elem_of_nil in Hin|].
  simpl. apply elem_of_cons in Hin as [<-|Hin].
  - by rewrite Hx.
  - apply bindM_None_r. intros _. by apply IH.
Qed.

Lemma for_fold_None {A S : Type} (f : A → S → M S) (xs : list A) (x : A) :
  x ∈ xs → (∀ s, f x s = None) → ∀ s, for_fold xs f s = None.
Proof.
  intros Hin Hx. induction xs as [|y ys IH]; intros s; [by apply elem_of_nil in Hin|].
  simpl. apply elem_of_cons in Hin as [<-|Hin].
  - by rewrite Hx.
  - apply bindM_None_r. intros s'. by apply IH.
Qed.

Lemma enumerate_from_lookup {A : Type} (xs : list A) (i : Z) (j : nat) (x : A) :
  xs !! j = Some x → (i + Z.of_nat j, x) ∈ enumerate_from i xs.
Proof.
  revert i j. induction xs as [|y ys IH]; intros i [|j] Hj; try done.
  - injection Hj as ->. rewrite Z.add_0_r. apply elem_of_cons. by left.
  - cbn [enumerate_from]. apply elem_of_cons. right.
    replace (i + Z.of_nat (S j)) with (i + 1 + Z.of_nat j) by lia.
    by apply IH.
Qed.

Lemma operands_of_spec `{Tracing} (grid : list Z) (d : Z) (first : nat)
    (specs : list BlockSpec) (gmem_refs : list AbstractMemoryRef) (spec : BlockSpec) :
  length specs = length gmem_refs → spec ∈ specs →
  ∃ bref,
    bref ∈ operands grid d first specs gmem_refs
    ∧ BufferedRef.spec bref = spec ∧ BufferedRef.grid bref = grid.
Proof.
  revert first gmem_refs. induction specs as [|spec0 specs IH];
    intros first [|ref gmem_refs] Hlen Hin; simpl in *; try done.
  - by apply elem_of_nil in Hin.
  - apply elem_of_cons in Hin as [->|Hin].
    + eexists. split; [apply elem_of_cons; by left|done].
    + destruct (IH (S first) gmem_refs) as (bref & Hb & Hspec); [lia|done|].
      exists bref. split; [apply elem_of_cons; by right|done].
Qed.

Lemma compute_gmem_slice_None `{Tracing} (bref : BufferedRef.t)
    (grid_indices : list Z) :
  length (index_map (BufferedRef.spec bref) grid_indices)
  ≠ length (block_shape (BufferedRef.spec bref)) →
  BufferedRef.compute_gmem_slice bref grid_indices = None.
Proof.
  intros Hlen. unfold BufferedRef.compute_gmem_slice. by rewrite safe_zip_None.
Qed.

Section WrongRank.

Context `{Tracing}.
Variable grid : list Z.
Variable in_specs : list BlockSpec.
Variable d : Z.
Variable barrier_ref : Barrier.
Variables in_brefs out_brefs : list BufferedRef.t.
Variable bref : BufferedRef.t.

Hypothesis grid_pos : Forall (λ size, 0 < size) grid.
Hypothesis depth_pos : 0 < d ≤ num_steps grid.
Hypothesis wrong_rank :
  length (index_map (BufferedRef.spec bref) (replicate (length grid) 0))
  ≠ length (block_shape (BufferedRef.spec bref)).

Lemma prologue_wrong_rank :
  bref ∈ in_brefs → prologue grid d in_brefs barrier_ref = None.
Proof using grid_pos depth_pos wrong_rank.
  intros Hin. unfold prologue, islice.
  destruct (Z.ltb_spec d 0) as [?|_]; [lia|].
  rewrite product_ranges by done. rewrite firstn_map.
  rewrite take_range by (unfold num_steps in depth_pos; lia).
  rewrite bindM_lift, enumerate_map_range. unfold range.
  rewrite seqZ_cons by lia. simpl.
  rewrite (for_each_None _ in_brefs bref Hin); [done|].
  unfold BufferedRef.copy_in. rewrite compute_gmem_slice_None; [done|].
  by rewrite unravel_0.
Qed.

Lemma epilogue_wrong_rank :
  bref ∈ out_brefs → BufferedRef.is_index_invariant bref = true →
  epilogue grid d out_brefs = None.
Proof using wrong_rank.
  intros Hin Hinv. unfold epilogue. apply bindM_None_r. intros _.
  apply bindM_None_r. intros last_slot.
  rewrite (for_each_None _ out_brefs bref Hin); [done|].
  rewrite Hinv. unfold BufferedRef.copy_out. by rewrite compute_gmem_slice_None.
Qed.

Lemma loop_body_wrong_rank :
  bref ∈ out_brefs → BufferedRef.is_index_invariant bref = false →
  loop_body grid in_specs d in_brefs out_brefs barrier_ref 0
    (replicate (length grid) 0, init_store_slices out_brefs) = None.
Proof using wrong_rank.
  intros Hin Hinv. unfold loop_body.
  apply bindM_None_r. intros slots. cbv zeta.
  apply bindM_None_r. intros _. apply bindM_None_r. intros _.
  apply bindM_None_r. intros grid_env. apply bindM_None_r. intros _.
  apply bindM_None_r. intros _.
  apply list_elem_of_lookup in Hin as [j Hj].
  rewrite (for_fold_None _ (enumerate out_brefs) (Z.of_nat j, bref)); [done| |].
  - apply (enumerate_from_lookup out_brefs 0 j bref Hj).
  - intros acc. unfold store_output. rewrite Nat2Z.id.
    unfold init_store_slices.
    change (map ?f out_brefs) with (f <$> out_brefs).
    rewrite list_lookup_fmap, Hj. simpl. rewrite Hinv.
    by rewrite compute_gmem_slice_None.
Qed.

Lemma steady_state_wrong_rank :
  bref ∈ out_brefs → BufferedRef.is_index_invariant bref = false →
  steady_state grid in_specs d in_brefs out_brefs barrier_ref = None.
Proof using depth_pos wrong_rank.
  intros Hin Hinv. unfold steady_state, fori_loop.
  destruct (Z.to_nat (num_steps grid - 0)) as [|n] eqn:Hn; [lia|].
  cbn [fori_loop_from]. by rewrite loop_body_wrong_rank.
Qed.

End WrongRank.

(** X9: an operand whose index map, at the all-zero indices, does not
    return as many block coordinates as its block has dimensions makes
    the pipeline an error.  With one reference per operand, the error is
    raised for an input in the prologue, for an output that depends on the
    grid in the first step of the loop, and for an index-invariant output
    in the epilogue. *)
Theorem pipeline_wrong_rank `{Tracing} (grid : list Z)
    (in_specs out_specs : list BlockSpec) (max_concurrent_steps : Z)
    (gmem_refs : list AbstractMemoryRef) (spec : BlockSpec) :
  Forall (λ size, 0 < size) grid → 0 < max_concurrent_steps →
  spec ∈ in_specs ++ out_specs →
  length (index_map spec (replicate (length grid) 0)) ≠ length (block_shape spec) →
  let d := Z.min max_concurrent_steps (num_steps grid) in
  let barrier_ref := pipeline_barrier grid in_specs max_concurrent_steps in
  let in_brefs := in_operands grid in_specs max_concurrent_steps gmem_refs in
  let out_brefs := out_operands grid in_specs out_specs max_concurrent_steps gmem_refs in
  emit_pipeline grid in_specs out_specs max_concurrent_steps gmem_refs = None
  ∧ (length gmem_refs = (length in_specs + length out_specs)%nat →
     (spec ∈ in_specs → prologue grid d in_brefs barrier_ref = None)
     ∧ (spec ∈ out_specs → invariant_spec grid spec = false →
        loop_body grid in_specs d in_brefs out_brefs barrier_ref 0
          (replicate (length grid) 0, init_store_slices out_brefs) = None
        ∧ steady_state grid in_specs d in_brefs out_brefs barrier_ref = None)
     ∧ (spec ∈ out_specs → invariant_spec grid spec = true →
        epilogue grid d out_brefs = None)).
Proof.
  intros Hgrid Hmcs Hspec Hrank d barrier_ref in_brefs out_brefs.
  pose proof (prod_pos _ Hgrid) as HN. fold (num_steps grid) in HN.
  assert (Hd : 0 < d ≤ num_steps grid) by (unfold d; lia).
  assert (Hphases :
    length gmem_refs = (length in_specs + length out_specs)%nat →
    (spec ∈ in_specs → prologue grid d in_brefs barrier_ref = None)
    ∧ (spec ∈ out_specs → invariant_spec grid spec = false →
       loop_body grid in_specs d in_brefs out_brefs barrier_ref 0
         (replicate (length grid) 0, init_store_slices out_brefs) = None
       ∧ steady_state grid in_specs d in_brefs out_brefs barrier_ref = None)
    ∧ (spec ∈ out_specs → invariant_spec grid spec = true →
       epilogue grid d out_brefs = None)).
  { intros Hlen. split; [|split].
    - intros Hin.
      destruct (operands_of_spec grid d 0 in_specs
                  (take (length in_specs) gmem_refs) spec) as (bref & Hb & Hs & _);
        [rewrite length_take; lia | done |].
      apply (prologue_wrong_rank grid d barrier_ref in_brefs bref); try done.
      by rewrite Hs.
    - intros Hout Hinv.
      destruct (operands_of_spec grid d (length in_specs) out_specs
                  (drop (length in_specs) gmem_refs) spec) as (bref & Hb & Hs & Hg);
        [rewrite length_drop; lia | done |].
      assert (Hinv' : BufferedRef.is_index_invariant bref = false)
        by (unfold BufferedRef.is_index_invariant; by rewrite Hs, Hg).
      split.
      + apply (loop_body_wrong_rank grid in_specs d barrier_ref in_brefs out_brefs bref);
          try done. by rewrite Hs.
      + apply (steady_state_wrong_rank grid in_specs d barrier_ref in_brefs out_brefs
                 bref); try done. by rewrite Hs.
    - intros Hout Hinv.
      destruct (operands_of_spec grid d (length in_specs) out_specs
                  (drop (length in_specs) gmem_refs) spec) as (bref & Hb & Hs & Hg);
        [rewrite length_drop; lia | done |].
      assert (Hinv' : BufferedRef.is_index_invariant bref = true)
        by (unfold BufferedRef.is_index_invariant; by rewrite Hs, Hg).
      apply (epilogue_wrong_rank grid d out_brefs bref); try done. by rewrite Hs. }
  split; [|exact Hphases].
  unfold emit_pipeline. cbv zeta. rewrite clamp_depth.
  change (depth grid max_concurrent_steps) with d.
  destruct (decide (length gmem_refs = (length in_specs + length out_specs)%nat))
    as [Hlen|Hlen]; [|by apply pipeline_refs_mismatch].
  rewrite pipeline_phases by done.
  destruct (Hphases Hlen) as (Hp & Hl & He).
  change (operands grid d 0 in_specs (take (length in_specs) gmem_refs)) with in_brefs.
  change (operands grid d (length in_specs) out_specs
            (drop (length in_specs) gmem_refs)) with out_brefs.
  change (mkBarrier (Z.of_nat (length in_specs)) d) with barrier_ref.
  apply elem_of_app in Hspec as [Hin|Hout].
  - by rewrite Hp.
  - apply bindM_None_r. intros _.
    destruct (invariant_spec grid spec) eqn:Hinv.
    + apply bindM_None_r. intros _. by apply He.
    + by rewrite (proj2 (Hl Hout eq_refl)).
Qed.

Lemma pipeline_wrong_rank_witness :
  Forall (λ size, 0 < size) [3] ∧ 0 < 2
  ∧ ex_wrong_rank ∈ [ex_in] ++ [ex_wrong_rank]
  ∧ length (index_map ex_wrong_rank (replicate (length [3]) 0))
    ≠ length (block_shape ex_wrong_rank)
  ∧ @emit_pipeline jaxpr_tracing [3] [ex_in] [ex_wrong_rank] 2 ex_refs = None
  ∧ @steady_state jaxpr_tracing [3] [ex_in] 2
      (in_operands [3] [ex_in] 2 ex_refs)
      (out_operands [3] [ex_in] [ex_wrong_rank] 2 ex_refs)
      (pipeline_barrier [3] [ex_in] 2) = None.
Proof.
  assert (Hgrid : Forall (λ size, 0 < size) [3]) by (repeat constructor).
  assert (Hspec : ex_wrong_rank ∈ [ex_in] ++ [ex_wrong_rank])
    by (apply elem_of_app; right; apply elem_of_cons; by left).
  assert (Hrank : length (index_map ex_wrong_rank (replicate (length [3]) 0))
                  ≠ length (block_shape ex_wrong_rank)) by (simpl; lia).
  split; [exact Hgrid|]. split; [lia|]. split; [exact Hspec|]. split; [exact Hrank|].
  destruct (@pipeline_wrong_rank jaxpr_tracing [3] [ex_in] [ex_wrong_rank] 2 ex_refs
              ex_wrong_rank Hgrid (eq_refl : 0 < 2) Hspec Hrank) as (Hrun & Hphases).
  split; [exact Hrun|].
  destruct (Hphases eq_refl) as (_ & Hloop & _).
  apply Hloop; [apply elem_of_cons; by left|reflexivity].
Defined.

(** ** Grids that the traced loop does not accept *)

Lemma inc_grid_None_size (indices grid : list Z) (by_ : Z) :
  Exists (λ size, ¬ (- 2 ^ 31 ≤ 2 * size < 2 ^ 31)) grid →
  _inc_grid indices grid by_ = None.
Proof.
  intros Hex. rewrite inc_grid_pairs.
  destruct (safe_zip indices grid) as [ps|] eqn:Hz; [|done].
  apply safe_zip_inv in Hz as [Hlen ->]. cbn [mbind option_bind].
  pose proof (inc_pairs_cases (zip indices grid) by_) as Hcases.
  rewrite snd_zip in Hcases by lia.
  destruct (inc_pairs (zip indices grid) by_) as [st|]; [|done].
  destruct Hcases as (_ & _ & _ & _ & Hsizes). exfalso.
  apply Exists_exists in Hex as (size & Hin & Hbad).
  by apply Hbad, (proj1 (Forall_forall _ _) Hsizes).
Qed.

Lemma loop_body_overflow `{Tracing} (grid : list Z) (in_specs : list BlockSpec)
    (d : Z) (in_brefs out_brefs : list BufferedRef.t) (barrier_ref : Barrier)
    (step : Z) (carry : list Z * list (option (list _Slice))) :
  Exists (λ size, ¬ (- 2 ^ 31 ≤ 2 * size < 2 ^ 31)) grid
  ∨ ¬ (- 2 ^ 31 ≤ num_steps grid < 2 ^ 31) →
  loop_body grid in_specs d in_brefs out_brefs barrier_ref step carry = None.
Proof.
  intros Hbad. unfold loop_body. apply bindM_None_r. intros slots.
  destruct carry as [indices last_store_slices]. cbv zeta.
  apply bindM_None_r. intros _. apply bindM_None_r. intros _.
  apply bindM_None_r. intros grid_env. apply bindM_None_r. intros _.
  apply bindM_None_r. intros _. apply bindM_None_r. intros new_store_slices.
  destruct (int32 (num_steps grid)) as [steps|] eqn:Hsteps; [|done].
  rewrite bindM_lift. apply bindM_None_r. intros _.
  destruct Hbad as [Hex|HN]; [|apply int32_Some in Hsteps; lia].
  by rewrite inc_grid_None_size.
Qed.

(** X21: the pipeline is an error on a grid of positive sizes that the
    traced loop does not accept: when twice the size of an axis or the
    number of steps does not fit in 32 bits, the first step of the loop
    compares an int32 value with a Python integer that does not fit. *)
Theorem pipeline_overflow `{Tracing} (grid : list Z)
    (in_specs out_specs : list BlockSpec) (max_concurrent_steps : Z)
    (gmem_refs : list AbstractMemoryRef) :
  Forall (λ size, 0 < size) grid →
  Exists (λ size, 2 ^ 31 ≤ 2 * size) grid ∨ 2 ^ 31 ≤ num_steps grid →
  emit_pipeline grid in_specs out_specs max_concurrent_steps gmem_refs = None
  ∧ ∀ d in_brefs out_brefs barrier_ref,
      steady_state grid in_specs d in_brefs out_brefs barrier_ref = None.
Proof.
  intros Hgrid Hbad.
  pose proof (prod_pos _ Hgrid) as HN. fold (num_steps grid) in HN.
  assert (Hloop : ∀ d in_brefs out_brefs barrier_ref,
            steady_state grid in_specs d in_brefs out_brefs barrier_ref = None).
  { intros d in_brefs out_brefs barrier_ref. unfold steady_state, fori_loop.
    destruct (Z.to_nat (num_steps grid - 0)) as [|n] eqn:Hn; [lia|].
    cbn [fori_loop_from]. rewrite loop_body_overflow; [done|].
    destruct Hbad as [Hex|Hsteps]; [left|right; lia].
    eapply Exists_impl; [exact Hex|]. simpl. intros; lia. }
  split; [|exact Hloop].
  unfold emit_pipeline. cbv zeta. rewrite clamp_depth.
  destruct (decide (length gmem_refs = (length in_specs + length out_specs)%nat))
    as [Hlen|Hlen]; [|by apply pipeline_refs_mismatch].
  rewrite pipeline_phases by done.
  apply bindM_None_r. intros _. by rewrite Hloop.
Qed.

Lemma pipeline_overflow_witness :
  Forall (λ size, 0 < size) [1073741824]
  ∧ (Exists (λ size, 2 ^ 31 ≤ 2 * size) [1073741824]
     ∨ 2 ^ 31 ≤ num_steps [1073741824])
  ∧ @emit_pipeline jaxpr_tracing [1073741824] [ex_in] [] 2 [mkRef 10 [24] 0] = None.
Proof.
  assert (Hgrid : Forall (λ size, 0 < size) [1073741824]) by (repeat constructor).
  assert (Hbad : Exists (λ size, 2 ^ 31 ≤ 2 * size) [1073741824]
                 ∨ 2 ^ 31 ≤ num_steps [1073741824])
    by (left; apply Exists_cons_hd; vm_compute; discriminate).
  split; [exact Hgrid|]. split; [exact Hbad|].
  exact (proj1 (@pipeline_overflow jaxpr_tracing [1073741824] [ex_in] [] 2
                  [mkRef 10 [24] 0] Hgrid Hbad)).
Defined.

(** ** The schedule seen by kind of event *)

Lemma filter_flat_map {A : Type} (p : event → bool) (f : A → list event) (l : list A) :
  List.filter p (flat_map f l) = flat_map (λ x, List.filter p (f x)) l.
Proof.
  induction l as [|x l IH]; simpl; [done|]. by rewrite List.filter_app, IH.
Qed.

Lemma flat_map_nil {A B : Type} (f : A → list B) (l : list A) :
  Forall (λ x, f x = []) l → flat_map f l = [].
Proof. induction 1 as [|x l Hx _ IH]; simpl; [done|]. by rewrite Hx, IH. Qed.

Lemma flat_map_singleton {A B : Type} (g : A → B) (l : list A) :
  flat_map (λ x, [g x]) l = map g l.
Proof. induction l as [|x l IH]; simpl; [done|]. by rewrite IH. Qed.

Lemma flat_map_seqZ_shift {B : Type} (f : Z → list B) (m n : Z) :
  flat_map f (seqZ m n) = flat_map (λ step, f (m + step)) (seqZ 0 n).
Proof.
  rewrite <- (Z.add_0_r m) at 1. rewrite <- fmap_add_seqZ.
  change (Z.add m <$> seqZ 0 n) with (map (Z.add m) (seqZ 0 n)).
  by rewrite flat_map_map.
Qed.

(** The size of an axis is at most the number of steps. *)
Lemma sizes_le_prod (grid : list Z) :
  Forall (λ size, 0 < size) grid → Forall (λ size, size ≤ prod grid) grid.
Proof.
  induction 1 as [|size grid Hs Hpos IH]; constructor;
    pose proof (prod_pos _ Hpos) as HP.
  - rewrite prod_cons. nia.
  - eapply Forall_impl; [exact IH|]. simpl. intros s Hle. rewrite prod_cons. nia.
Qed.

(** While [num_steps + depth] does not exceed [2 ^ 31], the counter of
    the loads ahead returns the indices of the step [depth] steps later. *)
Lemma fetch_indices_exact (grid : list Z) (d step : Z) :
  Forall (λ size, 0 < size) grid → Forall (λ size, 2 * size < 2 ^ 31) grid →
  0 ≤ d → num_steps grid + d ≤ 2 ^ 31 →
  fetch_indices grid d step = unravel grid (step + d).
Proof.
  intros Hpos Hsizes Hd Hfit. unfold fetch_indices.
  rewrite inc_grid_unravel; [done|done|done|done|].
  apply unravel_fits; [done|].
  eapply Forall_impl; [apply sizes_le_prod, Hpos|]. simpl. unfold num_steps in Hfit.
  intros; lia.
Qed.

(** The loads ahead of a step when no sum overflows. *)
Lemma prefetch_exact `{Tracing} (grid : list Z) (barrier_ref : Barrier)
    (in_brefs : list BufferedRef.t) (d slot step : Z) :
  Forall (λ size, 0 < size) grid → Forall (λ size, 2 * size < 2 ^ 31) grid →
  0 ≤ d → num_steps grid + d ≤ 2 ^ 31 → 0 ≤ step < num_steps grid →
  (if wrap32 (step + d) <? num_steps grid
   then loads_from barrier_ref in_brefs slot (fetch_indices grid d step) else [])
  = (if step + d <? num_steps grid
     then loads_at grid barrier_ref in_brefs slot (step + d) else []).
Proof.
  intros Hpos Hsizes Hd Hfit Hstep. rewrite wrap32_small by lia.
  destruct (step + d <? num_steps grid); [|done].
  unfold loads_at. by rewrite fetch_indices_exact.
Qed.

Section Kinds.

Context `{Tracing}.
Variable grid : list Z.
Variable in_specs : list BlockSpec.
Variable d : Z.
Variable barrier_ref : Barrier.
Variables in_brefs out_brefs : list BufferedRef.t.

(** The events of a kind in the whole schedule, phase by phase. *)
Lemma filter_schedule (p : event → bool) :
  List.filter p
    (prologue_events grid d barrier_ref in_brefs
     ++ loop_events grid in_specs d barrier_ref in_brefs out_brefs
     ++ epilogue_events grid d out_brefs)
  = List.filter p (prologue_events grid d barrier_ref in_brefs)
    ++ flat_map (λ step, List.filter p
                           (step_events grid in_specs d barrier_ref in_brefs out_brefs step))
         (range (num_steps grid))
    ++ List.filter p (epilogue_events grid d out_brefs).
Proof. rewrite !List.filter_app. unfold loop_events. by rewrite filter_flat_map. Qed.

Lemma filter_epilogue_other (p : event → bool) :
  p commit_smem = false → p (wait_smem_to_gmem 0) = false →
  (∀ src dst predicate, p (copy_smem_to_gmem src dst predicate) = false) →
  List.filter p (epilogue_events grid d out_brefs) = [].
Proof.
  intros Hc Hw Hs. unfold epilogue_events. rewrite !List.filter_app.
  assert (H1 : List.filter p
                 (if forallb BufferedRef.is_index_invariant out_brefs
                  then [commit_smem] else []) = []).
  { destruct (forallb BufferedRef.is_index_invariant out_brefs); [|done].
    simpl. by rewrite Hc. }
  rewrite H1. simpl. rewrite Hw, app_nil_r.
  rewrite filter_flat_map. apply flat_map_nil. apply Forall_forall. intros b _.
  destruct (BufferedRef.is_index_invariant b); [|done]. simpl.
  unfold final_store. by rewrite Hs.
Qed.

Lemma filter_load_prologue :
  0 < d →
  List.filter is_load (prologue_events grid d barrier_ref in_brefs)
  = flat_map (λ step, loads_at grid barrier_ref in_brefs (step `mod` d) step) (seqZ 0 d).
Proof.
  intros Hd. unfold prologue_events, range, loads_at. rewrite filter_flat_map.
  apply flat_map_ext_Forall. apply Forall_seqZ. intros step Hstep.
  rewrite filter_load_loads. by rewrite Z.mod_small by lia.
Qed.

Lemma filter_load_loop :
  Forall (λ size, 0 < size) grid → Forall (λ size, 2 * size < 2 ^ 31) grid →
  0 < d ≤ num_steps grid → num_steps grid + d ≤ 2 ^ 31 →
  flat_map (λ step, List.filter is_load
                      (step_events grid in_specs d barrier_ref in_brefs out_brefs step))
    (range (num_steps grid))
  = flat_map (λ step, loads_at grid barrier_ref in_brefs (step `mod` d) step)
      (seqZ d (num_steps grid - d)).
Proof.
  intros Hpos Hsizes Hd Hfit. unfold range.
  replace (num_steps grid) with ((num_steps grid - d) + d) at 1 by lia.
  rewrite seqZ_app by lia. rewrite flat_map_app.
  rewrite (flat_map_nil _ (seqZ _ d)).
  - rewrite app_nil_r, (flat_map_seqZ_shift _ d).
    apply flat_map_ext_Forall. apply Forall_seqZ. intros step Hstep.
    rewrite filter_load_step, prefetch_exact by (done || lia).
    destruct (Z.ltb_spec (step + d) (num_steps grid)); [|lia].
    rewrite (Z.add_comm d step).
    replace (step + d) with (step + 1 * d) at 2 by lia.
    by rewrite Z.mod_add by lia.
  - apply Forall_seqZ. intros step Hstep.
    rewrite filter_load_step, prefetch_exact by (done || lia).
    destruct (Z.ltb_spec (step + d) (num_steps grid)); [lia|done].
Qed.

Lemma filter_body_step (step : Z) :
  List.filter is_body
    (step_events grid in_specs d barrier_ref in_brefs out_brefs step)
  = [call_body (zip (unravel grid step) grid)
       (map (λ bref, (BufferedRef.smem_ref bref, step `mod` d)) (in_brefs ++ out_brefs))].
Proof.
  unfold step_events. cbv zeta. rewrite !List.filter_app.
  rewrite filter_other_stores by done.
  assert (Hw : List.filter is_body
                 match in_specs with
                 | [] => []
                 | _ :: _ => [barrier_wait (barrier_ref, step `mod` d)]
                 end = []) by by destruct in_specs.
  rewrite Hw.
  assert (Hc : List.filter is_body
                 (if forallb BufferedRef.is_index_invariant out_brefs
                  then [] else [commit_smem]) = [])
    by by destruct (forallb BufferedRef.is_index_invariant out_brefs).
  rewrite Hc. simpl.
  destruct (wrap32 (step + d) <? num_steps grid); [|done].
  by rewrite filter_other_loads.
Qed.

Lemma filter_wait_step (step : Z) :
  List.filter is_wait
    (step_events grid in_specs d barrier_ref in_brefs out_brefs step)
  = match in_specs with
    | [] => []
    | _ :: _ => [barrier_wait (barrier_ref, step `mod` d)]
    end ++ [wait_smem_to_gmem (d - 1)].
Proof.
  unfold step_events. cbv zeta. rewrite !List.filter_app.
  rewrite filter_other_stores by done.
  assert (Hw : List.filter is_wait
                 match in_specs with
                 | [] => []
                 | _ :: _ => [barrier_wait (barrier_ref, step `mod` d)]
                 end
               = match in_specs with
                 | [] => []
                 | _ :: _ => [barrier_wait (barrier_ref, step `mod` d)]
                 end) by by destruct in_specs.
  rewrite Hw.
  assert (Hc : List.filter is_wait
                 (if forallb BufferedRef.is_index_invariant out_brefs
                  then [] else [commit_smem]) = [])
    by by destruct (forallb BufferedRef.is_index_invariant out_brefs).
  rewrite Hc. simpl.
  destruct (wrap32 (step + d) <? num_steps grid); [|done].
  by rewrite filter_other_loads.
Qed.

Lemma filter_wait_epilogue :
  List.filter is_wait (epilogue_events grid d out_brefs) = [wait_smem_to_gmem 0].
Proof.
  unfold epilogue_events. rewrite !List.filter_app.
  assert (H1 : List.filter is_wait
                 (if forallb BufferedRef.is_index_invariant out_brefs
                  then [commit_smem] else []) = [])
    by by destruct (forallb BufferedRef.is_index_invariant out_brefs).
  rewrite H1. simpl. rewrite filter_flat_map, flat_map_nil; [done|].
  apply Forall_forall. intros b _. by destruct (BufferedRef.is_index_invariant b).
Qed.

Lemma filter_commit_epilogue :
  List.filter is_commit (epilogue_events grid d out_brefs)
  = if forallb BufferedRef.is_index_invariant out_brefs then [commit_smem] else [].
Proof.
  unfold epilogue_events. rewrite !List.filter_app. simpl.
  rewrite filter_flat_map, flat_map_nil.
  - rewrite app_nil_r. by destruct (forallb BufferedRef.is_index_invariant out_brefs).
  - apply Forall_forall. intros b _. by destruct (BufferedRef.is_index_invariant b).
Qed.

End Kinds.

(** X10: while [num_steps + min(depth, num_steps)] does not exceed
    [2 ^ 31], the loads that the pipeline issues are, in this order, the
    loads of the steps [0], [1], ..., [num_steps - 1]: every step has each
    of its inputs loaded once, from the region at the indices of the step,
    into the slot [step mod depth] that its body reads, signalling the
    barrier of that slot. *)
Theorem loads_in_step_order `{Tracing} (grid : list Z)
    (in_specs out_specs : list BlockSpec) (max_concurrent_steps : Z)
    (gmem_refs : list AbstractMemoryRef) :
  wf_pipeline grid in_specs out_specs max_concurrent_steps gmem_refs →
  num_steps grid + Z.min max_concurrent_steps (num_steps grid) ≤ 2 ^ 31 →
  let d := Z.min max_concurrent_steps (num_steps grid) in
  let barrier_ref := pipeline_barrier grid in_specs max_concurrent_steps in
  let in_brefs := in_operands grid in_specs max_concurrent_steps gmem_refs in
  ∃ t,
    emit_pipeline grid in_specs out_specs max_concurrent_steps gmem_refs = Some (tt, t)
    ∧ List.filter is_load t
      = flat_map
          (λ step,
             map (λ bref,
                    copy_gmem_to_smem
                      (BufferedRef.gmem_ref bref,
                       gmem_slice (BufferedRef.spec bref) (unravel grid step))
                      (BufferedRef.smem_ref bref, step `mod` d)
                      (barrier_ref, step `mod` d))
               in_brefs)
          (range (num_steps grid)).
Proof.
  intros wf Hfit d barrier_ref in_brefs.
  destruct (emit_pipeline_run grid max_concurrent_steps in_specs out_specs gmem_refs wf)
    as (_ & _ & _ & Hrun).
  pose proof (wf_depth_bounds grid max_concurrent_steps in_specs out_specs gmem_refs wf)
    as Hd.
  change (depth grid max_concurrent_steps) with d in *.
  fold barrier_ref in_brefs in Hrun. fold d in Hfit.
  eexists. split; [exact Hrun|].
  rewrite filter_schedule, filter_load_prologue by lia.
  rewrite filter_load_loop by (done || apply wf).
  rewrite filter_epilogue_other by done. rewrite app_nil_r, <- flat_map_app.
  replace (seqZ d (num_steps grid - d)) with (seqZ (0 + d) (num_steps grid - d))
    by (f_equal; lia).
  rewrite <- seqZ_app by lia. unfold range. do 2 f_equal. lia.
Qed.

Lemma loads_in_step_order_witness :
  @wf_pipeline jaxpr_tracing [3] [ex_in] [ex_half] 2 ex_refs
  ∧ num_steps [3] + Z.min 2 (num_steps [3]) ≤ 2 ^ 31
  ∧ ∃ t,
      @emit_pipeline jaxpr_tracing [3] [ex_in] [ex_half] 2 ex_refs = Some (tt, t)
      ∧ List.filter is_load t
        = [copy_gmem_to_smem (mkRef 10 [24] 0, [pl.mkSlice 0 8])
             (mkRef 0 [2; 8] 0, 0) (mkBarrier 1 2, 0);
           copy_gmem_to_smem (mkRef 10 [24] 0, [pl.mkSlice 8 8])
             (mkRef 0 [2; 8] 0, 1) (mkBarrier 1 2, 1);
           copy_gmem_to_smem (mkRef 10 [24] 0, [pl.mkSlice 16 8])
             (mkRef 0 [2; 8] 0, 0) (mkBarrier 1 2, 0)].
Proof.
  assert (Hfit : num_steps [3] + Z.min 2 (num_steps [3]) ≤ 2 ^ 31)
    by (vm_compute; discriminate).
  split; [exact ex_wf_half|]. split; [exact Hfit|].
  destruct (@loads_in_step_order jaxpr_tracing [3] [ex_in] [ex_half] 2 ex_refs
              ex_wf_half Hfit) as (t & Hrun & Hloads).
  exists t. split; [exact Hrun|]. rewrite Hloads. vm_compute. reflexivity.
Defined.

(** X11: the pipeline calls the body once per step, in the row-major
    order of the grid, under the indices of the step and on the slot
    [step mod depth] of the scratch memory of every input and output. *)
Theorem body_once_per_step `{Tracing} (grid : list Z)
    (in_specs out_specs : list BlockSpec) (max_concurrent_steps : Z)
    (gmem_refs : list AbstractMemoryRef) :
  wf_pipeline grid in_specs out_specs max_concurrent_steps gmem_refs →
  let d := Z.min max_concurrent_steps (num_steps grid) in
  let in_brefs := in_operands grid in_specs max_concurrent_steps gmem_refs in
  let out_brefs := out_operands grid in_specs out_specs max_concurrent_steps gmem_refs in
  ∃ t,
    emit_pipeline grid in_specs out_specs max_concurrent_steps gmem_refs = Some (tt, t)
    ∧ List.filter is_body t
      = map (λ step,
               call_body (zip (unravel grid step) grid)
                 (map (λ bref, (BufferedRef.smem_ref bref, step `mod` d))
                    (in_brefs ++ out_brefs)))
          (range (num_steps grid))
    ∧ Z.of_nat (count is_body t) = num_steps grid.
Proof.
  intros wf d in_brefs out_brefs.
  destruct (emit_pipeline_run grid max_concurrent_steps in_specs out_specs gmem_refs wf)
    as (_ & _ & _ & Hrun).
  pose proof (wf_num_steps grid max_concurrent_steps in_specs out_specs gmem_refs wf)
    as HN.
  change (depth grid max_concurrent_steps) with d in *.
  fold in_brefs out_brefs in Hrun.
  assert (Hbody : List.filter is_body
            (prologue_events grid d
               (pipeline_barrier grid in_specs max_concurrent_steps) in_brefs
             ++ loop_events grid in_specs d
                  (pipeline_barrier grid in_specs max_concurrent_steps)
                  in_brefs out_brefs
             ++ epilogue_events grid d out_brefs)
          = map (λ step,
                   call_body (zip (unravel grid step) grid)
                     (map (λ bref, (BufferedRef.smem_ref bref, step `mod` d))
                        (in_brefs ++ out_brefs)))
              (range (num_steps grid))).
  { rewrite filter_schedule, filter_prologue_other, filter_epilogue_other by done.
    rewrite app_nil_r. simpl. rewrite <- flat_map_singleton.
    apply flat_map_ext_Forall. apply Forall_forall. intros step _.
    apply filter_body_step. }
  eexists. split; [exact Hrun|]. split; [exact Hbody|].
  unfold count. rewrite Hbody, length_map. unfold range.
  rewrite length_seqZ. lia.
Qed.

Lemma body_once_per_step_witness :
  @wf_pipeline jaxpr_tracing [3] [ex_in] [ex_half] 2 ex_refs
  ∧ ∃ t,
      @emit_pipeline jaxpr_tracing [3] [ex_in] [ex_half] 2 ex_refs = Some (tt, t)
      ∧ Z.of_nat (count is_body t) = num_steps [3].
Proof.
  split; [exact ex_wf_half|].
  destruct (@body_once_per_step jaxpr_tracing [3] [ex_in] [ex_half] 2 ex_refs ex_wf_half)
    as (t & Hrun & _ & Hcount).
  exists t. split; [exact Hrun | exact Hcount].
Defined.

(** X12: the waits of the pipeline are, for every step in order, the wait
    on the barrier of the slot of the step when there are inputs, then the
    wait until at most [depth - 1] stores are in flight; the pipeline ends
    with the wait until no store is in flight. *)
Theorem waits_per_step `{Tracing} (grid : list Z)
    (in_specs out_specs : list BlockSpec) (max_concurrent_steps : Z)
    (gmem_refs : list AbstractMemoryRef) :
  wf_pipeline grid in_specs out_specs max_concurrent_steps gmem_refs →
  let d := Z.min max_concurrent_steps (num_steps grid) in
  let barrier_ref := pipeline_barrier grid in_specs max_concurrent_steps in
  ∃ t,
    emit_pipeline grid in_specs out_specs max_concurrent_steps gmem_refs = Some (tt, t)
    ∧ List.filter is_wait t
      = flat_map
          (λ step,
             match in_specs with
             | [] => []
             | _ :: _ => [barrier_wait (barrier_ref, step `mod` d)]
             end ++ [wait_smem_to_gmem (d - 1)])
          (range (num_steps grid))
        ++ [wait_smem_to_gmem 0]
    ∧ last t = Some (wait_smem_to_gmem 0).
Proof.
  intros wf d barrier_ref.
  destruct (emit_pipeline_run grid max_concurrent_steps in_specs out_specs gmem_refs wf)
    as (_ & _ & _ & Hrun).
  change (depth grid max_concurrent_steps) with d in *. fold barrier_ref in Hrun.
  eexists. split; [exact Hrun|]. split.
  - rewrite filter_schedule, filter_prologue_other, filter_wait_epilogue by done.
    simpl. f_equal. apply flat_map_ext_Forall. apply Forall_forall. intros step _.
    apply filter_wait_step.
  - unfold epilogue_events. rewrite !app_assoc. apply last_snoc.
Qed.

Lemma waits_per_step_witness :
  @wf_pipeline jaxpr_tracing [3] [ex_in] [ex_half] 2 ex_refs
  ∧ ∃ t,
      @emit_pipeline jaxpr_tracing [3] [ex_in] [ex_half] 2 ex_refs = Some (tt, t)
      ∧ last t = Some (wait_smem_to_gmem 0).
Proof.
  split; [exact ex_wf_half|].
  destruct (@waits_per_step jaxpr_tracing [3] [ex_in] [ex_half] 2 ex_refs ex_wf_half)
    as (t & Hrun & _ & Hlast).
  exists t. split; [exact Hrun | exact Hlast].
Defined.

(** X13: when every output is index-invariant (or there is none) the
    pipeline commits once, in the epilogue; otherwise it commits once in
    every step of the loop and not in the epilogue. *)
Theorem commits_of_pipeline `{Tracing} (grid : list Z)
    (in_specs out_specs : list BlockSpec) (max_concurrent_steps : Z)
    (gmem_refs : list AbstractMemoryRef) :
  wf_pipeline grid in_specs out_specs max_concurrent_steps gmem_refs →
  let d := Z.min max_concurrent_steps (num_steps grid) in
  let barrier_ref := pipeline_barrier grid in_specs max_concurrent_steps in
  let in_brefs := in_operands grid in_specs max_concurrent_steps gmem_refs in
  let out_brefs := out_operands grid in_specs out_specs max_concurrent_steps gmem_refs in
  let all_invariant := forallb BufferedRef.is_index_invariant out_brefs in
  ∃ tp tl te carry,
    prologue grid d in_brefs barrier_ref = Some (tt, tp)
    ∧ steady_state grid in_specs d in_brefs out_brefs barrier_ref = Some (carry, tl)
    ∧ epilogue grid d out_brefs = Some (tt, te)
    ∧ emit_pipeline grid in_specs out_specs max_concurrent_steps gmem_refs
      = Some (tt, tp ++ tl ++ te)
    ∧ count is_commit tp = 0%nat
    ∧ Z.of_nat (count is_commit tl) = (if all_invariant then 0 else num_steps grid)
    ∧ count is_commit te = (if all_invariant then 1 else 0)%nat
    ∧ Z.of_nat (count is_commit (tp ++ tl ++ te))
      = (if all_invariant then 1 else num_steps grid).
Proof.
  intros wf d barrier_ref in_brefs out_brefs all_invariant.
  destruct (emit_pipeline_run grid max_concurrent_steps in_specs out_specs gmem_refs wf)
    as (Hp & Hl & He & Hrun).
  pose proof (wf_num_steps grid max_concurrent_steps in_specs out_specs gmem_refs wf)
    as HN.
  change (depth grid max_concurrent_steps) with d in *.
  fold barrier_ref in_brefs out_brefs in Hp, Hl, He, Hrun.
  assert (Hcp : count is_commit (prologue_events grid d barrier_ref in_brefs) = 0%nat).
  { unfold count. by rewrite filter_prologue_other. }
  assert (Hcl : Z.of_nat (count is_commit
                            (loop_events grid in_specs d barrier_ref in_brefs out_brefs))
                = (if all_invariant then 0 else num_steps grid)).
  { unfold loop_events.
    rewrite (count_flat_map _ _ _ (if all_invariant then 0 else 1)%nat).
    - unfold range. rewrite length_seqZ. destruct all_invariant; lia.
    - apply Forall_forall. intros step _. unfold count. rewrite filter_commit_step.
      fold all_invariant. by destruct all_invariant. }
  assert (Hce : count is_commit (epilogue_events grid d out_brefs)
                = (if all_invariant then 1 else 0)%nat).
  { unfold count. rewrite filter_commit_epilogue. fold all_invariant.
    by destruct all_invariant. }
  do 4 eexists.
  split; [exact Hp|]. split; [exact Hl|]. split; [exact He|]. split; [exact Hrun|].
  split; [exact Hcp|]. split; [exact Hcl|]. split; [exact Hce|].
  rewrite !count_app, !Nat2Z.inj_add, Hcp, Hcl, Hce. destruct all_invariant; lia.
Qed.

Lemma commits_of_pipeline_witness :
  @wf_pipeline jaxpr_tracing [3] [ex_in] [ex_half] 2 ex_refs
  ∧ ∃ t,
      @emit_pipeline jaxpr_tracing [3] [ex_in] [ex_half] 2 ex_refs = Some (tt, t)
      ∧ Z.of_nat (count is_commit t) = 3.
Proof.
  split; [exact ex_wf_half|].
  destruct (@commits_of_pipeline jaxpr_tracing [3] [ex_in] [ex_half] 2 ex_refs ex_wf_half)
    as (tp & tl & te & carry & _ & _ & _ & Hrun & _ & _ & _ & Htotal).
  exists (tp ++ tl ++ te). split; [exact Hrun | exact Htotal].
Defined.

(** ** Slots *)

Lemma operands_smem_shape `{Tracing} (grid : list Z) (d : Z) (first : nat)
    (specs : list BlockSpec) (gmem_refs : list AbstractMemoryRef) :
  Forall (λ bref, ref_shape (BufferedRef.smem_ref bref)
                  = d :: block_shape (BufferedRef.spec bref))
    (operands grid d first specs gmem_refs).
Proof.
  revert first gmem_refs. induction specs as [|spec specs IH];
    intros first [|ref gmem_refs]; simpl; by constructor.
Qed.

Section Slots.

Context `{Tracing}.
Variable grid : list Z.
Variable in_specs : list BlockSpec.
Variable d : Z.
Variable barrier_ref : Barrier.
Variables in_brefs out_brefs : list BufferedRef.t.

Hypothesis depth_pos : 0 < d.
Hypothesis barriers : num_barriers barrier_ref = d.
Hypothesis in_shapes :
  Forall (λ bref, ref_shape (BufferedRef.smem_ref bref)
                  = d :: block_shape (BufferedRef.spec bref)) in_brefs.
Hypothesis out_shapes :
  Forall (λ bref, ref_shape (BufferedRef.smem_ref bref)
                  = d :: block_shape (BufferedRef.spec bref)) out_brefs.

Lemma slot_of_ref_ok (bref : BufferedRef.t) (slot : Z) :
  ref_shape (BufferedRef.smem_ref bref) = d :: block_shape (BufferedRef.spec bref) →
  0 ≤ slot < d → slot_of_ref (BufferedRef.smem_ref bref) slot = true.
Proof.
  intros Hshape Hslot. unfold slot_of_ref. rewrite Hshape.
  apply andb_true_iff. split; [apply Z.leb_le | apply Z.ltb_lt]; lia.
Qed.

Lemma slot_of_barrier_ok (slot : Z) :
  0 ≤ slot < d → slot_of_barrier barrier_ref slot = true.
Proof using barriers.
  intros Hslot. unfold slot_of_barrier. rewrite barriers.
  apply andb_true_iff. split; [apply Z.leb_le | apply Z.ltb_lt]; lia.
Qed.

Lemma slots_loads (slot : Z) (grid_indices : list Z) :
  0 ≤ slot < d →
  Forall (λ e, slots_in_bounds e = true)
    (loads_from barrier_ref in_brefs slot grid_indices).
Proof using barriers in_shapes.
  intros Hslot. unfold loads_from. apply List.Forall_map.
  eapply Forall_impl; [exact in_shapes|]. intros bref Hshape. simpl.
  rewrite slot_of_ref_ok, slot_of_barrier_ok by done. done.
Qed.

Lemma slots_step (step : Z) :
  Forall (λ e, slots_in_bounds e = true)
    (step_events grid in_specs d barrier_ref in_brefs out_brefs step).
Proof using depth_pos barriers in_shapes out_shapes.
  pose proof (Z.mod_pos_bound step d depth_pos) as Hslot.
  unfold step_events. cbv zeta. repeat apply Forall_app_2.
  - destruct in_specs; constructor; [|constructor]. simpl.
    by apply slot_of_barrier_ok.
  - constructor; [done|]. constructor; [|constructor]. simpl.
    apply forallb_forall. intros r Hr. apply in_map_iff in Hr as (bref & <- & Hb).
    simpl. apply slot_of_ref_ok; [|done].
    apply in_app_or in Hb as [Hb|Hb].
    + by apply (proj1 (List.Forall_forall _ _) in_shapes).
    + by apply (proj1 (List.Forall_forall _ _) out_shapes).
  - destruct (forallb BufferedRef.is_index_invariant out_brefs); by repeat constructor.
  - unfold stores_at. apply List.Forall_flat_map.
    eapply Forall_impl; [exact out_shapes|]. intros bref Hshape. simpl.
    destruct (BufferedRef.is_index_invariant bref); constructor; [|constructor].
    simpl. by apply slot_of_ref_ok.
  - destruct (wrap32 (step + d) <? num_steps grid); [|constructor].
    by apply slots_loads.
Qed.

Lemma slots_schedule :
  Forall (λ e, slots_in_bounds e = true)
    (prologue_events grid d barrier_ref in_brefs
     ++ loop_events grid in_specs d barrier_ref in_brefs out_brefs
     ++ epilogue_events grid d out_brefs).
Proof using depth_pos barriers in_shapes out_shapes.
  repeat apply Forall_app_2.
  - unfold prologue_events, range. apply List.Forall_flat_map.
    apply Forall_seqZ. intros step Hstep. apply slots_loads. lia.
  - unfold loop_events. apply List.Forall_flat_map.
    apply Forall_forall. intros step _. apply slots_step.
  - destruct (forallb BufferedRef.is_index_invariant out_brefs); by repeat constructor.
  - apply List.Forall_flat_map.
    eapply Forall_impl; [exact out_shapes|]. intros bref Hshape. simpl.
    destruct (BufferedRef.is_index_invariant bref); constructor; [|constructor].
    simpl. apply slot_of_ref_ok; [done|]. by apply Z.mod_pos_bound.
  - by repeat constructor.
Qed.

End Slots.

(** X14: every slot that the pipeline reads, writes or hands to the body
    is within the slots of the scratch memory allocated for the operand,
    and every barrier it signals or waits for is one of the barriers
    allocated. *)
Theorem slots_within_bounds `{Tracing} (grid : list Z)
    (in_specs out_specs : list BlockSpec) (max_concurrent_steps : Z)
    (gmem_refs : list AbstractMemoryRef) :
  wf_pipeline grid in_specs out_specs max_concurrent_steps gmem_refs →
  ∃ t,
    emit_pipeline grid in_specs out_specs max_concurrent_steps gmem_refs = Some (tt, t)
    ∧ forallb slots_in_bounds t = true.
Proof.
  intros wf.
  destruct (emit_pipeline_run grid max_concurrent_steps in_specs out_specs gmem_refs wf)
    as (_ & _ & _ & Hrun).
  pose proof (wf_depth_bounds grid max_concurrent_steps in_specs out_specs gmem_refs wf)
    as Hd.
  eexists. split; [exact Hrun|].
  apply forallb_forall. apply List.Forall_forall.
  apply slots_schedule; [lia | done | apply operands_smem_shape..].
Qed.

Lemma slots_within_bounds_witness :
  @wf_pipeline jaxpr_tracing [3] [ex_in] [ex_half] 2 ex_refs
  ∧ ∃ t,
      @emit_pipeline jaxpr_tracing [3] [ex_in] [ex_half] 2 ex_refs = Some (tt, t)
      ∧ forallb slots_in_bounds t = true.
Proof.
  split; [exact ex_wf_half|].
  exact (@slots_within_bounds jaxpr_tracing [3] [ex_in] [ex_half] 2 ex_refs ex_wf_half).
Defined.

(** ** The state of the loop at its end *)

(** X15: the loop ends with the all-zero indices it started from, and
    with, for every output that depends on the grid, the record of the
    region of the last step. *)
Theorem loop_final_carry `{Tracing} (grid : list Z)
    (in_specs out_specs : list BlockSpec) (max_concurrent_steps : Z)
    (gmem_refs : list AbstractMemoryRef) :
  wf_pipeline grid in_specs out_specs max_concurrent_steps gmem_refs →
  let d := Z.min max_concurrent_steps (num_steps grid) in
  let barrier_ref := pipeline_barrier grid in_specs max_concurrent_steps in
  let in_brefs := in_operands grid in_specs max_concurrent_steps gmem_refs in
  let out_brefs := out_operands grid in_specs out_specs max_concurrent_steps gmem_refs in
  ∃ t,
    steady_state grid in_specs d in_brefs out_brefs barrier_ref
    = Some ((replicate (length grid) 0,
             map (λ bref,
                    if BufferedRef.is_index_invariant bref then None
                    else Some (map to_Slice (region grid bref (num_steps grid - 1))))
               out_brefs),
            t).
Proof.
  intros wf d barrier_ref in_brefs out_brefs.
  destruct (emit_pipeline_run grid max_concurrent_steps in_specs out_specs gmem_refs wf)
    as (_ & Hl & _).
  pose proof (wf_num_steps grid max_concurrent_steps in_specs out_specs gmem_refs wf)
    as HN.
  pose proof (wf_grid _ _ _ _ _ wf) as Hgrid.
  change (depth grid max_concurrent_steps) with d in *.
  fold barrier_ref in_brefs out_brefs in Hl.
  eexists. rewrite Hl. do 3 f_equal.
  - replace (num_steps grid) with (0 + 1 * prod grid) by (unfold num_steps; lia).
    by rewrite unravel_periodic, unravel_0.
  - unfold records. apply map_ext. intros bref. unfold record_before.
    destruct (Z.eqb_spec (num_steps grid) 0) as [?|_]; [lia|done].
Qed.

Lemma loop_final_carry_witness :
  @wf_pipeline jaxpr_tracing [3] [ex_in] [ex_half] 2 ex_refs
  ∧ ∃ t,
      @steady_state jaxpr_tracing [3] [ex_in] 2
        (in_operands [3] [ex_in] 2 ex_refs)
        (out_operands [3] [ex_in] [ex_half] 2 ex_refs)
        (pipeline_barrier [3] [ex_in] 2)
      = Some (([0], [Some [mk_Slice 8 8]]), t).
Proof.
  split; [exact ex_wf_half|].
  exact (@loop_final_carry jaxpr_tracing [3] [ex_in] [ex_half] 2 ex_refs ex_wf_half).
Defined.

(** ** The region of an index-invariant operand *)

Lemma invariant_constant `{Tracing} (bref : BufferedRef.t) :
  analysis_exact (index_map (BufferedRef.spec bref)) (BufferedRef.grid bref) →
  BufferedRef.is_index_invariant bref = true →
  ∀ i1 i2, length i1 = length (BufferedRef.grid bref) →
           length i2 = length (BufferedRef.grid bref) →
           index_map (BufferedRef.spec bref) i1 = index_map (BufferedRef.spec bref) i2.
Proof.
  intros [Hlen Hexact] Hinv. apply constant_by_axes. intros k Hk Hdep.
  unfold BufferedRef.is_index_invariant in Hinv. apply negb_true_iff in Hinv.
  apply not_true_iff_false in Hinv. apply Hinv. apply existsb_lookup.
  exists k. by apply Hexact.
Qed.

(** X16: when the analysis of the index map tells, per axis, whether the
    block coordinates depend on the axis, the slices of an index-invariant
    operand are the same at all indices of the grid: the region that the
    epilogue stores at the all-zero indices is the region of every step. *)
Theorem invariant_region_constant `{Tracing} (bref : BufferedRef.t)
    (grid_indices : list Z) :
  analysis_exact (index_map (BufferedRef.spec bref)) (BufferedRef.grid bref) →
  BufferedRef.is_index_invariant bref = true →
  length grid_indices = length (BufferedRef.grid bref) →
  BufferedRef.compute_gmem_slice bref grid_indices
  = BufferedRef.compute_gmem_slice bref
      (replicate (length (BufferedRef.grid bref)) 0).
Proof.
  intros Hexact Hinv Hlen. unfold BufferedRef.compute_gmem_slice.
  rewrite (invariant_constant bref Hexact Hinv grid_indices
             (replicate (length (BufferedRef.grid bref)) 0)); [done|done|].
  by rewrite length_replicate.
Qed.

Lemma invariant_region_constant_witness :
  @analysis_exact jaxpr_tracing (index_map ex_const) [3]
  ∧ @BufferedRef.is_index_invariant jaxpr_tracing
      (BufferedRef.mk ex_const [3] (mkRef 11 [24] 0) (mkRef 1 [2; 8] 0)) = true
  ∧ length [2] = length [3]
  ∧ BufferedRef.compute_gmem_slice
      (BufferedRef.mk ex_const [3] (mkRef 11 [24] 0) (mkRef 1 [2; 8] 0)) [2]
    = BufferedRef.compute_gmem_slice
        (BufferedRef.mk ex_const [3] (mkRef 11 [24] 0) (mkRef 1 [2; 8] 0))
        (replicate (length [3]) 0).
Proof.
  assert (Hinv : @BufferedRef.is_index_invariant jaxpr_tracing
                   (BufferedRef.mk ex_const [3] (mkRef 11 [24] 0) (mkRef 1 [2; 8] 0))
                 = true) by reflexivity.
  split; [exact ex_const_analysis|]. split; [exact Hinv|]. split; [reflexivity|].
  exact (@invariant_region_constant jaxpr_tracing
           (BufferedRef.mk ex_const [3] (mkRef 11 [24] 0) (mkRef 1 [2; 8] 0)) [2]
           ex_const_analysis Hinv eq_refl).
Defined.

(** ** The order of the events *)

Section Order.

Context `{Tracing}.
Variable grid : list Z.
Variable in_specs : list BlockSpec.
Variable d : Z.
Variable barrier_ref : Barrier.
Variables in_brefs out_brefs : list BufferedRef.t.

Lemma filter_body_load_step (step : Z) :
  List.filter (λ e, is_body e || is_load e)
    (step_events grid in_specs d barrier_ref in_brefs out_brefs step)
  = call_body (zip (unravel grid step) grid)
      (map (λ bref, (BufferedRef.smem_ref bref, step `mod` d)) (in_brefs ++ out_brefs))
    :: (if wrap32 (step + d) <? num_steps grid
        then loads_from barrier_ref in_brefs (step `mod` d) (fetch_indices grid d step)
        else []).
Proof.
  unfold step_events. cbv zeta. rewrite !List.filter_app.
  rewrite filter_other_stores by done.
  assert (Hw : List.filter (λ e, is_body e || is_load e)
                 match in_specs with
                 | [] => []
                 | _ :: _ => [barrier_wait (barrier_ref, step `mod` d)]
                 end = []) by by destruct in_specs.
  rewrite Hw.
  assert (Hc : List.filter (λ e, is_body e || is_load e)
                 (if forallb BufferedRef.is_index_invariant out_brefs
                  then [] else [commit_smem]) = [])
    by by destruct (forallb BufferedRef.is_index_invariant out_brefs).
  rewrite Hc. simpl. f_equal.
  destruct (wrap32 (step + d) <? num_steps grid); [|done].
  unfold loads_from. induction in_brefs as [|b l IH]; simpl; [done|]. by rewrite IH.
Qed.

Lemma filter_body_load_prologue :
  List.filter (λ e, is_body e || is_load e)
    (prologue_events grid d barrier_ref in_brefs)
  = prologue_events grid d barrier_ref in_brefs.
Proof.
  unfold prologue_events. rewrite filter_flat_map.
  apply flat_map_ext_Forall. apply Forall_forall. intros step _.
  unfold loads_at, loads_from.
  induction in_brefs as [|b l IH]; simpl; [done|]. by rewrite IH.
Qed.

End Order.

(** X17: while [num_steps + min(depth, num_steps)] does not exceed
    [2 ^ 31], a slot is loaded again only after the body has run on it:
    among the calls of the body and the loads, the prologue comes first,
    and each call of the body is directly followed by the loads of the
    step [depth] steps later, which go into the slot this call has read;
    the last [depth] steps load nothing. *)
Theorem loads_follow_body `{Tracing} (grid : list Z)
    (in_specs out_specs : list BlockSpec) (max_concurrent_steps : Z)
    (gmem_refs : list AbstractMemoryRef) :
  wf_pipeline grid in_specs out_specs max_concurrent_steps gmem_refs →
  num_steps grid + Z.min max_concurrent_steps (num_steps grid) ≤ 2 ^ 31 →
  let d := Z.min max_concurrent_steps (num_steps grid) in
  let barrier_ref := pipeline_barrier grid in_specs max_concurrent_steps in
  let in_brefs := in_operands grid in_specs max_concurrent_steps gmem_refs in
  let out_brefs := out_operands grid in_specs out_specs max_concurrent_steps gmem_refs in
  ∃ t,
    emit_pipeline grid in_specs out_specs max_concurrent_steps gmem_refs = Some (tt, t)
    ∧ List.filter (λ e, is_body e || is_load e) t
      = flat_map (λ step, loads_at grid barrier_ref in_brefs step step) (range d)
        ++ flat_map
             (λ step,
                call_body (zip (unravel grid step) grid)
                  (map (λ bref, (BufferedRef.smem_ref bref, step `mod` d))
                     (in_brefs ++ out_brefs))
                :: (if step + d <? num_steps grid
                    then loads_at grid barrier_ref in_brefs (step `mod` d) (step + d)
                    else []))
             (range (num_steps grid)).
Proof.
  intros wf Hfit d barrier_ref in_brefs out_brefs.
  destruct (emit_pipeline_run grid max_concurrent_steps in_specs out_specs gmem_refs wf)
    as (_ & _ & _ & Hrun).
  pose proof (wf_depth_bounds grid max_concurrent_steps in_specs out_specs gmem_refs wf)
    as Hd.
  change (depth grid max_concurrent_steps) with d in *.
  fold barrier_ref in_brefs out_brefs in Hrun. fold d in Hfit.
  eexists. split; [exact Hrun|].
  rewrite filter_schedule, filter_body_load_prologue, filter_epilogue_other by done.
  rewrite app_nil_r. f_equal.
  apply flat_map_ext_Forall. apply Forall_seqZ. intros step Hstep.
  rewrite filter_body_load_step. f_equal.
  apply prefetch_exact; (lia || apply wf).
Qed.

Lemma loads_follow_body_witness :
  @wf_pipeline jaxpr_tracing [3] [ex_in] [ex_half] 2 ex_refs
  ∧ num_steps [3] + Z.min 2 (num_steps [3]) ≤ 2 ^ 31
  ∧ ∃ t,
      @emit_pipeline jaxpr_tracing [3] [ex_in] [ex_half] 2 ex_refs = Some (tt, t)
      ∧ map is_body (List.filter (λ e, is_body e || is_load e) t)
        = [false; false; true; false; true; true].
Proof.
  assert (Hfit : num_steps [3] + Z.min 2 (num_steps [3]) ≤ 2 ^ 31)
    by (vm_compute; discriminate).
  split; [exact ex_wf_half|]. split; [exact Hfit|].
  destruct (@loads_follow_body jaxpr_tracing [3] [ex_in] [ex_half] 2 ex_refs
              ex_wf_half Hfit) as (t & Hrun & Horder).
  exists t. split; [exact Hrun|]. rewrite Horder. vm_compute. reflexivity.
Defined.

(** ** Stores and commits *)

Lemma stores_committed_app (c : bool) (t1 t2 : list event) :
  stores_committed c (t1 ++ t2)
  = stores_committed c t1 && stores_committed (committed_after c t1) t2.
Proof.
  revert c. induction t1 as [|e t1 IH]; intros c; [done|].
  destruct e; simpl; rewrite ?IH; try done. by rewrite andb_assoc.
Qed.

Lemma committed_after_app (c : bool) (t1 t2 : list event) :
  committed_after c (t1 ++ t2) = committed_after (committed_after c t1) t2.
Proof.
  revert c. induction t1 as [|e t1 IH]; intros c; [done|].
  destruct e; simpl; by rewrite ?IH.
Qed.

(** After a commit, events other than calls of the body keep the scratch
    memory committed. *)
Lemma committed_no_body (t : list event) :
  Forall (λ e, is_body e = false) t →
  stores_committed true t = true ∧ committed_after true t = true.
Proof.
  induction 1 as [|e t He _ IH]; [done|]. by destruct e.
Qed.

Lemma committed_loads (c : bool) (t : list event) :
  Forall (λ e, is_load e = true) t →
  stores_committed c t = true ∧ committed_after c t = c.
Proof. induction 1 as [|e t He _ IH]; [done|]. by destruct e. Qed.

Section Commits.

Context `{Tracing}.
Variable grid : list Z.
Variable in_specs : list BlockSpec.
Variable d : Z.
Variable barrier_ref : Barrier.
Variables in_brefs out_brefs : list BufferedRef.t.

Lemma loads_are_loads (slot : Z) (grid_indices : list Z) :
  Forall (λ e, is_load e = true) (loads_from barrier_ref in_brefs slot grid_indices).
Proof. unfold loads_from. apply List.Forall_map. by apply Forall_forall. Qed.

Lemma stores_at_nil (step : Z) :
  forallb BufferedRef.is_index_invariant out_brefs = true →
  stores_at grid d out_brefs step = [].
Proof.
  unfold stores_at. induction out_brefs as [|b l IH]; simpl; [done|].
  intros [Hb Hl]%andb_true_iff. rewrite Hb. by apply IH.
Qed.

Lemma stores_loads_no_body (step : Z) :
  Forall (λ e, is_body e = false)
    (stores_at grid d out_brefs step
     ++ (if wrap32 (step + d) <? num_steps grid
         then loads_from barrier_ref in_brefs (step `mod` d) (fetch_indices grid d step)
         else [])).
Proof.
  apply Forall_app_2.
  - unfold stores_at. apply List.Forall_flat_map. apply Forall_forall. intros b _.
    destruct (BufferedRef.is_index_invariant b); by repeat constructor.
  - destruct (wrap32 (step + d) <? num_steps grid); [|constructor].
    eapply Forall_impl; [apply loads_are_loads|]. intros e He. by destruct e.
Qed.

Lemma committed_step (c : bool) (step : Z) :
  stores_committed c
    (step_events grid in_specs d barrier_ref in_brefs out_brefs step) = true
  ∧ committed_after c
      (step_events grid in_specs d barrier_ref in_brefs out_brefs step)
    = negb (forallb BufferedRef.is_index_invariant out_brefs).
Proof.
  unfold step_events. cbv zeta.
  assert (Hgoal :
    stores_committed false
      ((if forallb BufferedRef.is_index_invariant out_brefs then [] else [commit_smem])
       ++ stores_at grid d out_brefs step
       ++ (if wrap32 (step + d) <? num_steps grid
           then loads_from barrier_ref in_brefs (step `mod` d)
                  (fetch_indices grid d step)
           else []))
    = true
    ∧ committed_after false
        ((if forallb BufferedRef.is_index_invariant out_brefs then [] else [commit_smem])
         ++ stores_at grid d out_brefs step
         ++ (if wrap32 (step + d) <? num_steps grid
             then loads_from barrier_ref in_brefs (step `mod` d)
                    (fetch_indices grid d step)
             else []))
      = negb (forallb BufferedRef.is_index_invariant out_brefs)).
  { destruct (forallb BufferedRef.is_index_invariant out_brefs) eqn:Hall.
    - rewrite stores_at_nil by done. simpl. apply committed_loads.
      destruct (wrap32 (step + d) <? num_steps grid); [apply loads_are_loads|constructor].
    - simpl. apply committed_no_body, stores_loads_no_body. }
  destruct in_specs; exact Hgoal.
Qed.

Lemma committed_loop (c : bool) (steps : list Z) :
  stores_committed c
    (flat_map (step_events grid in_specs d barrier_ref in_brefs out_brefs) steps) = true
  ∧ committed_after c
      (flat_map (step_events grid in_specs d barrier_ref in_brefs out_brefs) steps)
    = match steps with
      | [] => c
      | _ :: _ => negb (forallb BufferedRef.is_index_invariant out_brefs)
      end.
Proof.
  revert c. induction steps as [|step steps IH]; intros c; [done|].
  simpl. rewrite stores_committed_app, committed_after_app.
  destruct (committed_step c step) as [-> ->].
  destruct (IH (negb (forallb BufferedRef.is_index_invariant out_brefs))) as [-> ->].
  split; [done|]. by destruct steps.
Qed.

Lemma committed_epilogue (c : bool) :
  c = negb (forallb BufferedRef.is_index_invariant out_brefs) →
  stores_committed c (epilogue_events grid d out_brefs) = true.
Proof.
  intros ->. unfold epilogue_events.
  assert (Hfinal : Forall (λ e, is_body e = false)
            (flat_map (λ bref, if BufferedRef.is_index_invariant bref
                               then [final_store grid d bref] else []) out_brefs
             ++ [wait_smem_to_gmem 0])).
  { apply Forall_app_2; [|by repeat constructor].
    apply List.Forall_flat_map. apply Forall_forall. intros b _.
    destruct (BufferedRef.is_index_invariant b); by repeat constructor. }
  destruct (forallb BufferedRef.is_index_invariant out_brefs); simpl;
    by apply committed_no_body.
Qed.

End Commits.

(** X18: the pipeline never stores scratch memory that the body has
    written since the last commit: between a call of the body and the
    next store out of scratch memory there is a [commit_smem]. *)
Theorem stores_after_commit `{Tracing} (grid : list Z)
    (in_specs out_specs : list BlockSpec) (max_concurrent_steps : Z)
    (gmem_refs : list AbstractMemoryRef) :
  wf_pipeline grid in_specs out_specs max_concurrent_steps gmem_refs →
  ∃ t,
    emit_pipeline grid in_specs out_specs max_concurrent_steps gmem_refs = Some (tt, t)
    ∧ stores_committed false t = true.
Proof.
  intros wf.
  destruct (emit_pipeline_run grid max_concurrent_steps in_specs out_specs gmem_refs wf)
    as (_ & _ & _ & Hrun).
  pose proof (wf_num_steps grid max_concurrent_steps in_specs out_specs gmem_refs wf)
    as HN.
  eexists. split; [exact Hrun|].
  rewrite !stores_committed_app.
  set (d := depth grid max_concurrent_steps).
  set (barrier_ref := pipeline_barrier grid in_specs max_concurrent_steps).
  set (in_brefs := in_operands grid in_specs max_concurrent_steps gmem_refs).
  set (out_brefs := out_operands grid in_specs out_specs max_concurrent_steps gmem_refs).
  assert (Hp : stores_committed false (prologue_events grid d barrier_ref in_brefs) = true
               ∧ committed_after false (prologue_events grid d barrier_ref in_brefs)
                 = false).
  { apply committed_loads. unfold prologue_events. apply List.Forall_flat_map.
    apply Forall_forall. intros step _. apply loads_are_loads. }
  destruct Hp as [-> ->]. unfold loop_events.
  destruct (committed_loop grid in_specs d barrier_ref in_brefs out_brefs false
              (range (num_steps grid))) as [-> ->].
  simpl. apply committed_epilogue.
  unfold range. rewrite seqZ_cons by lia. done.
Qed.

Lemma stores_after_commit_witness :
  @wf_pipeline jaxpr_tracing [3] [ex_in] [ex_half] 2 ex_refs
  ∧ ∃ t,
      @emit_pipeline jaxpr_tracing [3] [ex_in] [ex_half] 2 ex_refs = Some (tt, t)
      ∧ stores_committed false t = true.
Proof.
  split; [exact ex_wf_half|].
  exact (@stores_after_commit jaxpr_tracing [3] [ex_in] [ex_half] 2 ex_refs ex_wf_half).
Defined.

(** ** Barriers *)

Lemma barrier_arrivals_app (pending : Z → Z) (t1 t2 : list event) :
  barrier_arrivals pending (t1 ++ t2)
  = barrier_arrivals pending t1 ≫= λ pending', barrier_arrivals pending' t2.
Proof.
  revert pending. induction t1 as [|e t1 IH]; intros pending; [done|].
  destruct e; simpl; rewrite ?IH; try done.
  by destruct (pending barrier.2 =? num_arrivals barrier.1).
Qed.

Lemma barrier_arrivals_quiet (pending : Z → Z) (t : list event) :
  Forall (λ e, is_load e = false ∧ ∀ barrier, e ≠ barrier_wait barrier) t →
  barrier_arrivals pending t = Some pending.
Proof.
  induction 1 as [|e t [He1 He2] _ IH]; [done|].
  destruct e; simpl in *; try done. by destruct (He2 barrier).
Qed.

(** The first step from [step] on that uses the slot [k]. *)
Lemma next_use_same (d step : Z) :
  0 < d →
  (step `mod` d - step) `mod` d = 0
  ∧ (step `mod` d - (step + 1)) `mod` d = d - 1.
Proof.
  intros Hd. pose proof (Z.div_mod step d) as Hs.
  pose proof (Z.mod_pos_bound step d Hd) as Hb. split.
  - symmetry. apply (Z.mod_unique _ _ (- (step / d))); lia.
  - symmetry. apply (Z.mod_unique _ _ (- (step / d) - 1)); lia.
Qed.

Lemma next_use_other (d step k : Z) :
  0 < d → 0 ≤ k < d → k ≠ step `mod` d →
  (k - (step + 1)) `mod` d = (k - step) `mod` d - 1.
Proof.
  intros Hd Hk Hne. pose proof (Z.div_mod (k - step) d) as Hs.
  pose proof (Z.mod_pos_bound (k - step) d Hd) as Hb.
  assert (Hr : (k - step) `mod` d ≠ 0).
  { intros Hr. apply Hne.
    replace step with (k + - ((k - step) / d) * d) by lia.
    rewrite Z.mod_add by lia. by rewrite Z.mod_small. }
  symmetry. apply (Z.mod_unique _ _ ((k - step) / d)); lia.
Qed.

Lemma arrivals_loads `{Tracing} (grid : list Z) (barrier_ref : Barrier)
    (in_brefs : list BufferedRef.t) (pending : Z → Z) (slot step : Z) :
  ∃ pending',
    barrier_arrivals pending (loads_at grid barrier_ref in_brefs slot step)
    = Some pending'
    ∧ ∀ k, pending' k
           = if k =? slot then pending k + Z.of_nat (length in_brefs) else pending k.
Proof.
  unfold loads_at. revert pending. induction in_brefs as [|b l IH]; intros pending.
  - exists pending. split; [done|]. intros k. simpl. destruct (k =? slot); lia.
  - simpl. destruct (IH (λ k, if k =? slot then pending k + 1 else pending k))
      as (pending' & -> & Hp).
    exists pending'. split; [done|]. intros k. rewrite Hp.
    destruct (k =? slot); lia.
Qed.

Lemma arrivals_prologue `{Tracing} (grid : list Z) (barrier_ref : Barrier)
    (in_brefs : list BufferedRef.t) (m : nat) :
  ∃ pending,
    barrier_arrivals (λ _, 0)
      (flat_map (λ step, loads_at grid barrier_ref in_brefs step step)
         (seqZ 0 (Z.of_nat m)))
    = Some pending
    ∧ ∀ k, pending k
           = if (0 <=? k) && (k <? Z.of_nat m) then Z.of_nat (length in_brefs) else 0.
Proof.
  induction m as [|m (pending & IH & Hp)].
  - exists (λ _, 0). split; [done|]. intros k.
    destruct (Z.leb_spec 0 k), (Z.ltb_spec k (Z.of_nat 0)); simpl; (done || lia).
  - rewrite seqZ_S, flat_map_app, barrier_arrivals_app, IH. simpl. rewrite app_nil_r.
    destruct (arrivals_loads grid barrier_ref in_brefs pending
                (0 + Z.of_nat m) (0 + Z.of_nat m)) as (pending' & -> & Hp').
    exists pending'. split; [done|]. intros k. rewrite Hp', Hp.
    destruct (Z.eqb_spec k (0 + Z.of_nat m)), (Z.leb_spec 0 k),
      (Z.ltb_spec k (Z.of_nat m)), (Z.ltb_spec k (Z.of_nat (S m))); simpl; lia.
Qed.

Section Barriers.

Context `{Tracing}.
Variable grid : list Z.
Variable in_specs : list BlockSpec.
Variable d : Z.
Variable barrier_ref : Barrier.
Variables in_brefs out_brefs : list BufferedRef.t.

Hypothesis grid_pos : Forall (λ size, 0 < size) grid.
Hypothesis sizes_fit : Forall (λ size, 2 * size < 2 ^ 31) grid.
Hypothesis depth_bounds : 0 < d ≤ num_steps grid.
Hypothesis no_overflow : num_steps grid + d ≤ 2 ^ 31.
Hypothesis arrivals : num_arrivals barrier_ref = Z.of_nat (length in_brefs).
Hypothesis inputs : length in_brefs = length in_specs.

Lemma step_quiet (step : Z) :
  Forall (λ e, is_load e = false ∧ ∀ barrier, e ≠ barrier_wait barrier)
    ((if forallb BufferedRef.is_index_invariant out_brefs then [] else [commit_smem])
     ++ stores_at grid d out_brefs step).
Proof using Type.
  repeat apply Forall_app_2.
  - destruct (forallb BufferedRef.is_index_invariant out_brefs); by repeat constructor.
  - unfold stores_at. apply List.Forall_flat_map. apply Forall_forall. intros b _.
    destruct (BufferedRef.is_index_invariant b); by repeat constructor.
Qed.

Lemma arrivals_step (pending : Z → Z) (step : Z) :
  0 ≤ step < num_steps grid →
  pending_on (num_steps grid) d (Z.of_nat (length in_brefs)) step pending →
  ∃ pending',
    barrier_arrivals pending
      (step_events grid in_specs d barrier_ref in_brefs out_brefs step)
    = Some pending'
    ∧ pending_on (num_steps grid) d (Z.of_nat (length in_brefs)) (step + 1) pending'.
Proof using grid_pos sizes_fit depth_bounds no_overflow arrivals inputs.
  intros Hstep Hp. unfold step_events. cbv zeta.
  rewrite prefetch_exact by (done || lia).
  pose proof (Z.mod_pos_bound step d (proj1 depth_bounds)) as Hslot.
  destruct (next_use_same d step (proj1 depth_bounds)) as [Hsame Hnext].
  destruct in_specs as [|spec0 specs].
  { cbn [app barrier_arrivals]. rewrite app_assoc, barrier_arrivals_app.
    rewrite barrier_arrivals_quiet by apply (step_quiet step). simpl.
    assert (Hnone : length in_brefs = 0%nat) by exact inputs.
    exists pending. split.
    - destruct (step + d <? num_steps grid); [|done].
      by rewrite (nil_length_inv _ Hnone).
    - intros k. rewrite (Hp k), Hnone.
      by destruct ((0 <=? k) && (k <? d) && _), ((0 <=? k) && (k <? d) && _). }
  cbn [app barrier_arrivals fst snd]. rewrite arrivals.
  assert (Hwait : pending (step `mod` d) = Z.of_nat (length in_brefs)).
  { rewrite Hp, Hsame.
    destruct (Z.leb_spec 0 (step `mod` d)), (Z.ltb_spec (step `mod` d) d),
      (Z.ltb_spec (step + 0) (num_steps grid)); simpl; lia. }
  rewrite Hwait, Z.eqb_refl.
  rewrite app_assoc, barrier_arrivals_app.
  rewrite barrier_arrivals_quiet by apply (step_quiet step).
  simpl.
  destruct (Z.ltb_spec (step + d) (num_steps grid)) as [Hfetch|Hfetch].
  - destruct (arrivals_loads grid barrier_ref in_brefs
                (λ slot, if slot =? step `mod` d then 0 else pending slot)
                (step `mod` d) (step + d)) as (pending' & -> & Hp').
    exists pending'. split; [done|]. intros k. rewrite Hp'.
    destruct (Z.eqb_spec k (step `mod` d)) as [->|Hk].
    + rewrite Hnext.
      destruct (Z.leb_spec 0 (step `mod` d)), (Z.ltb_spec (step `mod` d) d),
        (Z.ltb_spec (step + 1 + (d - 1)) (num_steps grid)); simpl; lia.
    + rewrite Hp.
      destruct (Z.leb_spec 0 k), (Z.ltb_spec k d); simpl; try done.
      rewrite next_use_other by (done || lia).
      by replace (step + 1 + ((k - step) `mod` d - 1))
        with (step + (k - step) `mod` d) by lia.
  - eexists. split; [done|]. intros k. simpl.
    destruct (Z.eqb_spec k (step `mod` d)) as [->|Hk].
    + rewrite Hnext.
      destruct (Z.leb_spec 0 (step `mod` d)), (Z.ltb_spec (step `mod` d) d),
        (Z.ltb_spec (step + 1 + (d - 1)) (num_steps grid)); simpl; lia.
    + rewrite Hp.
      destruct (Z.leb_spec 0 k), (Z.ltb_spec k d); simpl; try done.
      rewrite next_use_other by (done || lia).
      by replace (step + 1 + ((k - step) `mod` d - 1))
        with (step + (k - step) `mod` d) by lia.
Qed.

Lemma arrivals_loop (m : nat) (pending : Z → Z) (step : Z) :
  0 ≤ step → step + Z.of_nat m ≤ num_steps grid →
  pending_on (num_steps grid) d (Z.of_nat (length in_brefs)) step pending →
  ∃ pending',
    barrier_arrivals pending
      (flat_map (step_events grid in_specs d barrier_ref in_brefs out_brefs)
         (seqZ step (Z.of_nat m)))
    = Some pending'
    ∧ pending_on (num_steps grid) d (Z.of_nat (length in_brefs)) (step + Z.of_nat m) pending'.
Proof using grid_pos sizes_fit depth_bounds no_overflow arrivals inputs.
  revert pending step. induction m as [|m IH]; intros pending step Hs Hm Hp.
  - exists pending. split; [done|]. by rewrite Z.add_0_r.
  - rewrite seqZ_cons by lia. cbn [flat_map]. rewrite barrier_arrivals_app.
    destruct (arrivals_step pending step) as (pending1 & -> & Hp1); [lia|done|].
    simpl. replace (Z.pred (Z.of_nat (S m))) with (Z.of_nat m) by lia.
    destruct (IH pending1 (Z.succ step)) as (pending' & -> & Hp'); [lia|lia|done|].
    exists pending'. split; [done|].
    by replace (step + Z.of_nat (S m)) with (Z.succ step + Z.of_nat m) by lia.
Qed.

End Barriers.

(** X19: while [num_steps + min(depth, num_steps)] does not exceed
    [2 ^ 31], every wait on a barrier finds the arrivals the barrier
    expects: since the wait before on the same slot, or since the start,
    the loads into the slot are as many as there are inputs.  At the end no
    arrival is left that no wait has taken. *)
Theorem barriers_balanced `{Tracing} (grid : list Z)
    (in_specs out_specs : list BlockSpec) (max_concurrent_steps : Z)
    (gmem_refs : list AbstractMemoryRef) :
  wf_pipeline grid in_specs out_specs max_concurrent_steps gmem_refs →
  num_steps grid + Z.min max_concurrent_steps (num_steps grid) ≤ 2 ^ 31 →
  ∃ t pending,
    emit_pipeline grid in_specs out_specs max_concurrent_steps gmem_refs = Some (tt, t)
    ∧ barrier_arrivals (λ _, 0) t = Some pending
    ∧ ∀ slot, pending slot = 0.
Proof.
  intros wf Hfit.
  destruct (emit_pipeline_run grid max_concurrent_steps in_specs out_specs gmem_refs wf)
    as (_ & _ & _ & Hrun).
  pose proof (wf_depth_bounds grid max_concurrent_steps in_specs out_specs gmem_refs wf)
    as Hd.
  pose proof (in_operands_length grid max_concurrent_steps in_specs out_specs gmem_refs wf)
    as Hlen.
  pose proof (wf_grid _ _ _ _ _ wf) as Hgrid.
  pose proof (wf_sizes _ _ _ _ _ wf) as Hsizes.
  change (Z.min max_concurrent_steps (num_steps grid))
    with (depth grid max_concurrent_steps) in Hfit.
  set (d := depth grid max_concurrent_steps) in *.
  set (barrier_ref := pipeline_barrier grid in_specs max_concurrent_steps) in *.
  set (in_brefs := in_operands grid in_specs max_concurrent_steps gmem_refs) in *.
  set (out_brefs := out_operands grid in_specs out_specs max_concurrent_steps gmem_refs)
    in *.
  assert (Harr : num_arrivals barrier_ref = Z.of_nat (length in_brefs))
    by (simpl; by rewrite Hlen).
  destruct (arrivals_prologue grid barrier_ref in_brefs (Z.to_nat d))
    as (pending0 & Hp0 & Hpending0).
  rewrite Z2Nat.id in Hp0, Hpending0 by lia.
  assert (Hstart : pending_on (num_steps grid) d (Z.of_nat (length in_brefs)) 0 pending0).
  { intros k. rewrite Hpending0, Z.sub_0_r.
    destruct (Z.leb_spec 0 k), (Z.ltb_spec k d); simpl; try done.
    rewrite Z.mod_small by lia.
    destruct (Z.ltb_spec (0 + k) (num_steps grid)); (done || lia). }
  destruct (arrivals_loop grid in_specs d barrier_ref in_brefs out_brefs
              Hgrid Hsizes Hd Hfit Harr Hlen
              (Z.to_nat (num_steps grid)) pending0 0) as (pending & Hloop & Hpending);
    [lia | lia | done |].
  rewrite Z2Nat.id in Hloop, Hpending by lia.
  eexists. exists pending. split; [exact Hrun|]. split.
  - rewrite !barrier_arrivals_app. unfold prologue_events, loop_events, range.
    rewrite Hp0. cbn [mbind option_bind].
    rewrite barrier_arrivals_app, Hloop. cbn [mbind option_bind].
    apply barrier_arrivals_quiet. unfold epilogue_events. repeat apply Forall_app_2.
    + destruct (forallb BufferedRef.is_index_invariant out_brefs); by repeat constructor.
    + apply List.Forall_flat_map. apply Forall_forall. intros b _.
      destruct (BufferedRef.is_index_invariant b); by repeat constructor.
    + by repeat constructor.
  - intros slot. rewrite (Hpending slot).
    pose proof (Z.mod_pos_bound (slot - (0 + num_steps grid)) d (proj1 Hd)).
    destruct (Z.leb_spec 0 slot), (Z.ltb_spec slot d); simpl; try done.
    destruct (Z.ltb_spec (0 + num_steps grid + (slot - (0 + num_steps grid)) `mod` d)
                (num_steps grid)); (done || lia).
Qed.

Lemma barriers_balanced_witness :
  @wf_pipeline jaxpr_tracing [3] [ex_in] [ex_half] 2 ex_refs
  ∧ num_steps [3] + Z.min 2 (num_steps [3]) ≤ 2 ^ 31
  ∧ ∃ t pending,
      @emit_pipeline jaxpr_tracing [3] [ex_in] [ex_half] 2 ex_refs = Some (tt, t)
      ∧ barrier_arrivals (λ _, 0) t = Some pending
      ∧ ∀ slot, pending slot = 0.
Proof.
  assert (Hfit : num_steps [3] + Z.min 2 (num_steps [3]) ≤ 2 ^ 31)
    by (vm_compute; discriminate).
  split; [exact ex_wf_half|]. split; [exact Hfit|].
  exact (@barriers_balanced jaxpr_tracing [3] [ex_in] [ex_half] 2 ex_refs
           ex_wf_half Hfit).
Defined.

(** ** The number of stores *)

Lemma count_final_stores `{Tracing} (grid : list Z) (d : Z)
    (out_brefs : list BufferedRef.t) :
  count is_store (epilogue_events grid d out_brefs)
  = length (List.filter BufferedRef.is_index_invariant out_brefs).
Proof.
  unfold count. rewrite filter_epilogue_stores by done.
  induction out_brefs as [|b l IH]; simpl; [done|].
  destruct (BufferedRef.is_index_invariant b); simpl; by rewrite IH.
Qed.

(** X20: every output is stored on exactly one of two paths: an output
    that depends on the grid has one store, elided or not, in every step
    of the loop and none in the epilogue; an index-invariant output has
    none in the loop and one in the epilogue. *)
Theorem stores_of_pipeline `{Tracing} (grid : list Z)
    (in_specs out_specs : list BlockSpec) (max_concurrent_steps : Z)
    (gmem_refs : list AbstractMemoryRef) :
  wf_pipeline grid in_specs out_specs max_concurrent_steps gmem_refs →
  let d := Z.min max_concurrent_steps (num_steps grid) in
  let barrier_ref := pipeline_barrier grid in_specs max_concurrent_steps in
  let in_brefs := in_operands grid in_specs max_concurrent_steps gmem_refs in
  let out_brefs := out_operands grid in_specs out_specs max_concurrent_steps gmem_refs in
  let dependent :=
    List.filter (λ bref, negb (BufferedRef.is_index_invariant bref)) out_brefs in
  let invariant := List.filter BufferedRef.is_index_invariant out_brefs in
  ∃ tp tl te carry,
    prologue grid d in_brefs barrier_ref = Some (tt, tp)
    ∧ steady_state grid in_specs d in_brefs out_brefs barrier_ref = Some (carry, tl)
    ∧ epilogue grid d out_brefs = Some (tt, te)
    ∧ emit_pipeline grid in_specs out_specs max_concurrent_steps gmem_refs
      = Some (tt, tp ++ tl ++ te)
    ∧ count is_store tp = 0%nat
    ∧ Z.of_nat (count is_store tl) = num_steps grid * Z.of_nat (length dependent)
    ∧ count is_store te = length invariant
    ∧ (length dependent + length invariant)%nat = length out_specs.
Proof.
  intros wf d barrier_ref in_brefs out_brefs dependent invariant.
  destruct (emit_pipeline_run grid max_concurrent_steps in_specs out_specs gmem_refs wf)
    as (Hp & Hl & He & Hrun).
  pose proof (wf_num_steps grid max_concurrent_steps in_specs out_specs gmem_refs wf)
    as HN.
  pose proof (out_operands_length grid max_concurrent_steps in_specs out_specs
                gmem_refs wf) as Hlen.
  change (depth grid max_concurrent_steps) with d in *.
  fold barrier_ref in_brefs out_brefs in Hp, Hl, He, Hrun, Hlen.
  do 4 eexists.
  split; [exact Hp|]. split; [exact Hl|]. split; [exact He|]. split; [exact Hrun|].
  split; [unfold count; by rewrite filter_prologue_other|].
  split.
  { unfold loop_events. rewrite (count_flat_map _ _ _ (length dependent)).
    - unfold range. rewrite length_seqZ, Nat2Z.inj_mul. rewrite Z2Nat.id by lia. done.
    - apply Forall_forall. intros step _. unfold count.
      by rewrite filter_store_step, stores_at_filter, length_map. }
  split; [apply count_final_stores|].
  rewrite <- Hlen. unfold dependent, invariant. clear.
  induction out_brefs as [|b l IH]; simpl; [done|].
  destruct (BufferedRef.is_index_invariant b); simpl; lia.
Qed.

Lemma stores_of_pipeline_witness :
  @wf_pipeline jaxpr_tracing [3] [ex_in] [ex_half] 2 ex_refs
  ∧ ∃ t,
      @emit_pipeline jaxpr_tracing [3] [ex_in] [ex_half] 2 ex_refs = Some (tt, t)
      ∧ count is_store t = 3%nat.
Proof.
  split; [exact ex_wf_half|].
  destruct (@stores_of_pipeline jaxpr_tracing [3] [ex_in] [ex_half] 2 ex_refs ex_wf_half)
    as (tp & tl & te & carry & Hp & Hl & He & Hrun & _).
  exists (tp ++ tl ++ te). split; [exact Hrun|].
  vm_compute in Hp, Hl, He.
  injection Hp as <-. injection Hl as _ <-. injection He as <-.
  vm_compute. reflexivity.
Defined.
